(** * Chromosome profiles (sim/chrm_prof.py): a shallow embedding

    [ChrmProf] keeps a mutated chromosome string together with two doubly
    linked lists of segments: the list of original segments ([_OrgNode]) and
    the list of mutated segments ([_MutNode]).  Every mutated segment points
    to the original segment it descends from, and every original segment
    holds the list of its descendants.

    The Python objects are modelled as cells of two arenas indexed by
    handles; the fields [l], [r], [parent] and [children] hold handles, so
    aliasing between the two lists is kept as in the source.  A Python
    [None] is [None : option nat].  Exceptions are results of the error
    monad [res]. *)

From Stdlib Require Import ZArith Ascii String Lia.
From stdpp Require Import base option list gmap sorting.

Local Open Scope Z_scope.

(** ** Results of calls *)

(** The exceptions the source can raise: attribute access on [None],
    unpacking [None], [list.remove] of an absent element. *)
Inductive exn := AttributeError | TypeError | ValueError.

(** [Stuck] is not a Python outcome: it marks a handle that is absent from
    its arena or a loop that used up its fuel.  The well-formedness lemmas
    below show that it does not occur on the states the program builds. *)
Inductive res (A : Type) : Type :=
| Ok (a : A)
| Raise (e : exn)
| Stuck.
Arguments Ok {A} a.
Arguments Raise {A} e.
Arguments Stuck {A}.

#[global] Instance res_ret : MRet res := λ A a, Ok a.
#[global] Instance res_bind : MBind res := λ A B f x,
  match x with
  | Ok a => f a
  | Raise e => Raise e
  | Stuck => Stuck
  end.

(** ** Nodes *)

(** Class [_Node]: both kinds of node have [l], [r], [bgn] and [end]; the
    fields of the subclass are in [n_ext]. *)
Record Node (X : Type) : Type := mkNode {
  n_l : option nat;
  n_r : option nat;
  n_bgn : Z;
  n_end : Z;
  n_ext : X
}.
Arguments mkNode {X} n_l n_r n_bgn n_end n_ext.
Arguments n_l {X} n.
Arguments n_r {X} n.
Arguments n_bgn {X} n.
Arguments n_end {X} n.
Arguments n_ext {X} n.

(** [_OrgNode]: the list [children] of handles of mutated nodes. *)
Record OrgX : Type := mkOrgX { children : list nat }.

(** [_MutNode]: the handle [parent] of an original node and [is_inv]. *)
Record MutX : Type := mkMutX { parent : option nat; is_inv : bool }.

Definition set_l {X} (v : option nat) (n : Node X) : Node X :=
  mkNode v (n_r n) (n_bgn n) (n_end n) (n_ext n).
Definition set_r {X} (v : option nat) (n : Node X) : Node X :=
  mkNode (n_l n) v (n_bgn n) (n_end n) (n_ext n).
Definition set_end {X} (v : Z) (n : Node X) : Node X :=
  mkNode (n_l n) (n_r n) (n_bgn n) v (n_ext n).
Definition set_ext {X} (v : X) (n : Node X) : Node X :=
  mkNode (n_l n) (n_r n) (n_bgn n) (n_end n) v.
(** [cur.bgn += d; cur.end += d] *)
Definition shift {X} (d : Z) (n : Node X) : Node X :=
  mkNode (n_l n) (n_r n) (n_bgn n + d) (n_end n + d) (n_ext n).

Definition set_parent (p : option nat) (n : Node MutX) : Node MutX :=
  set_ext (mkMutX p (is_inv (n_ext n))) n.
Definition add_child (c : nat) (n : Node OrgX) : Node OrgX :=
  set_ext (mkOrgX (children (n_ext n) ++ [c])) n.

(** Reading the cell of a handle. *)
Definition rd {X} (m : gmap nat (Node X)) (h : nat) : res (Node X) :=
  match m !! h with
  | Some n => Ok n
  | None => Stuck
  end.

(** ** The profile *)

Record ChrmProf : Type := mkChrmProf {
  chrm : list ascii;            (* self.chrm *)
  org : option nat;             (* self.org  *)
  mut : option nat;             (* self.mut  *)
  orgs : gmap nat (Node OrgX);  (* arena of the _OrgNode objects *)
  muts : gmap nat (Node MutX);  (* arena of the _MutNode objects *)
  org_next : nat;               (* next handle of each arena *)
  mut_next : nat
}.

Definition len (st : ChrmProf) : Z := Z.of_nat (length (chrm st)).

Definition with_chrm (s : list ascii) (st : ChrmProf) : ChrmProf :=
  mkChrmProf s (org st) (mut st) (orgs st) (muts st) (org_next st) (mut_next st).
Definition with_mut (h : option nat) (st : ChrmProf) : ChrmProf :=
  mkChrmProf (chrm st) (org st) h (orgs st) (muts st) (org_next st) (mut_next st).
Definition with_muts (m : gmap nat (Node MutX)) (st : ChrmProf) : ChrmProf :=
  mkChrmProf (chrm st) (org st) (mut st) (orgs st) m (org_next st) (mut_next st).
Definition with_orgs (m : gmap nat (Node OrgX)) (st : ChrmProf) : ChrmProf :=
  mkChrmProf (chrm st) (org st) (mut st) m (muts st) (org_next st) (mut_next st).

(** [ChrmProf.__init__] *)
Definition create (s : list ascii) : ChrmProf :=
  let e := Z.of_nat (length s) - 1 in
  mkChrmProf s (Some 0%nat) (Some 0%nat)
    {[ 0%nat := mkNode None None 0 e (mkOrgX [0%nat]) ]}
    {[ 0%nat := mkNode None None 0 e (mkMutX (Some 0%nat) false) ]}
    1 1.

(** ** Strings *)

(** A slice bound of Python, clipped to the string. *)
Definition py_index (n k : Z) : nat :=
  Z.to_nat (if k <? 0 then Z.max 0 (n + k) else Z.min k n).

(** [s[a:b]] *)
Definition py_slice (s : list ascii) (a b : Z) : list ascii :=
  let n := Z.of_nat (length s) in
  take (py_index n b - py_index n a)%nat (drop (py_index n a) s).

Definition tri_split_str (s : list ascii) (bgn end_ : Z)
  : list ascii * list ascii * list ascii :=
  let n := Z.of_nat (length s) in
  (py_slice s 0 bgn, py_slice s bgn (end_ + 1), py_slice s (end_ + 1) n).

(** ** Walking a list of nodes *)

(** [while cur != None and not stop(cur): cur = cur.r] *)
Fixpoint scan_r {X} (fuel : nat) (m : gmap nat (Node X)) (stop : Node X → bool)
    (cur : option nat) : res (option nat) :=
  match cur with
  | None => Ok None
  | Some h =>
    n ← rd m h;
    if stop n then Ok (Some h)
    else match fuel with
         | O => Stuck
         | S f => scan_r f m stop (n_r n)
         end
  end.

(** [_get_head_tail] *)
Definition _get_head_tail {X} (m : gmap nat (Node X)) (cur : option nat) (bgn end_ : Z)
  : res (option nat * option nat) :=
  head ← scan_r (size m) m (λ n, bool_decide (n_bgn n = bgn)) cur;
  tail ← scan_r (size m) m (λ n, bool_decide (n_end n = end_)) head;
  Ok (head, tail).

(** [_is_already_mut_bgn], [_is_already_mut_end] *)
Definition _is_already_mut_bgn {X} (m : gmap nat (Node X)) (cur : option nat) (bgn : Z)
  : res bool :=
  r ← scan_r (size m) m (λ n, bool_decide (bgn = n_bgn n)) cur;
  Ok (bool_decide (is_Some r)).
Definition _is_already_mut_end {X} (m : gmap nat (Node X)) (cur : option nat) (end_ : Z)
  : res bool :=
  r ← scan_r (size m) m (λ n, bool_decide (end_ = n_end n)) cur;
  Ok (bool_decide (is_Some r)).

(** ** Splitting *)

(** [_OrgNode.split] and [_MutNode.split]: the two methods differ in the
    constructor of the new node only; [new_ext] gives its own fields from
    those of [self]. *)
Definition Node_split {X} (new_ext : X → X) (self : nat) (k : Z)
    (m : gmap nat (Node X)) (next : nat) : res (nat * gmap nat (Node X) * nat) :=
  n ← rd m self;
  let r := n_r n in
  let new := next in
  (* self.r = Node(self.bgn + k, self.end); self.r.r = r; self.r.l = self *)
  let m := <[new := mkNode (Some self) r (n_bgn n + k) (n_end n) (new_ext (n_ext n))]> m in
  (* if r != None: r.l = self.r *)
  let m := match r with
           | Some r' => alter (set_l (Some new)) r' m
           | None => m
           end in
  (* self.end = self.bgn + k - 1 *)
  let m := alter (λ n, set_end (n_bgn n + k - 1) (set_r (Some new) n)) self m in
  Ok (new, m, S next).

Definition OrgNode_split := Node_split (λ _ : OrgX, mkOrgX []).
Definition MutNode_split := Node_split (λ x : MutX, mkMutX None (is_inv x)).

(** The loop of [_split] over [orgNode1.children]. *)
Fixpoint split_children (k : Z) (orgNode2 : nat) (cs : list nat) (st : ChrmProf)
  : res ChrmProf :=
  match cs with
  | [] => Ok st
  | mutNode1 :: cs' =>
    '(mutNode2, m, next) ← MutNode_split mutNode1 k (muts st) (mut_next st);
    let m := alter (set_parent (Some orgNode2)) mutNode2 m in
    let o := alter (add_child mutNode2) orgNode2 (orgs st) in
    split_children k orgNode2 cs'
      (mkChrmProf (chrm st) (org st) (mut st) o m (org_next st) next)
  end.

(** [ChrmProf._split] *)
Definition _split (k : Z) (st : ChrmProf) : res ChrmProf :=
  if bool_decide (k = 0) || bool_decide (k >= len st) then Ok st
  else
    splitMut ← scan_r (size (muts st)) (muts st)
                 (λ n, bool_decide (n_bgn n <= k) && bool_decide (k <= n_end n)) (mut st);
    match splitMut with
    | None => Raise AttributeError
    | Some sm =>
      nm ← rd (muts st) sm;
      let orgNode1 := parent (n_ext nm) in
      if bool_decide (n_bgn nm = k) || bool_decide (n_end nm = k) then Ok st
      else
        let k := k - n_bgn nm in
        match orgNode1 with
        | None => Raise AttributeError
        | Some o1 =>
          '(o2, o, onext) ← OrgNode_split o1 k (orgs st) (org_next st);
          n1 ← rd o o1;
          split_children k o2 (children (n_ext n1))
            (mkChrmProf (chrm st) (org st) (mut st) o (muts st) onext (mut_next st))
        end
    end.

(** [ChrmProf._2split] *)
Definition _2split (bgn end_ : Z) (st : ChrmProf) : res ChrmProf :=
  let n := len st in
  st ← (if bool_decide (bgn > 0) then _split bgn st else Ok st);
  if bool_decide (end_ + 1 < n) then _split (end_ + 1) st else Ok st.

(** ** The guards *)

Definition _is_in_bounds (bgn end_ : Z) (st : ChrmProf) : bool :=
  let n := len st in
  if bool_decide (bgn < 0) || bool_decide (bgn > end_) || bool_decide (end_ >= n)
  then false else true.

Definition _is_splitable (bgn end_ : Z) (st : ChrmProf) : res bool :=
  let n := len st in
  b1 ← (if bool_decide (bgn ≠ 0) then _is_already_mut_bgn (muts st) (mut st) bgn
        else Ok false);
  if b1 : bool then Ok false
  else
    b2 ← (if bool_decide (end_ + 1 < n) then _is_already_mut_end (muts st) (mut st) end_
          else Ok false);
    if b2 : bool then Ok false else Ok true.

(** [not self._is_in_bounds(bgn, end) or not self._is_splitable(bgn, end)] *)
Definition rejected (bgn end_ : Z) (st : ChrmProf) : res bool :=
  if negb (_is_in_bounds bgn end_ st) then Ok true
  else b ← _is_splitable bgn end_ st; Ok (negb (b : bool)).

(** ** Inversion *)

(** [_get_inv_pos_diff].  The source computes the midpoint in floating
    point, [int(math.ceil(float(rglen) / 2.0) + rgbgn - 1)]; on integers
    that a float holds exactly this is the integer ceiling used here. *)
Definition _get_inv_pos_diff (rgbgn rgend sgbgn sgend : Z) : Z :=
  let rglen := rgend - rgbgn + 1 in
  let sglen := sgend - sgbgn + 1 in
  let mid := (rglen + 1) `div` 2 + rgbgn - 1 in
  let l := mid - sgend in
  if bool_decide (rglen `mod` 2 = 0) then 2 * l + sglen
  else 2 * l + sglen - 1.

(** The body of the loop of [_rev_mut] on the node [cur]. *)
Definition flip (rgbgn rgend : Z) (n : Node MutX) : Node MutX :=
  let pos_diff := _get_inv_pos_diff rgbgn rgend (n_bgn n) (n_end n) in
  mkNode (n_r n) (n_l n) (n_bgn n + pos_diff) (n_end n + pos_diff)
    (mkMutX (parent (n_ext n)) (negb (is_inv (n_ext n)))).

(** [while cur != ot: ...; cur = nxt] *)
Fixpoint rev_loop (fuel : nat) (rgbgn rgend : Z) (ot cur : option nat)
    (m : gmap nat (Node MutX)) : res (gmap nat (Node MutX)) :=
  if bool_decide (cur = ot) then Ok m
  else match cur with
       | None => Raise AttributeError
       | Some c =>
         match fuel with
         | O => Stuck
         | S f =>
           n ← rd m c;
           rev_loop f rgbgn rgend ot (n_r n) (<[c := flip rgbgn rgend n]> m)
         end
       end.

(** [ChrmProf._rev_mut] *)
Definition _rev_mut (bgn end_ : Z) (st : ChrmProf) : res ChrmProf :=
  let m := muts st in
  cur ← scan_r (size m) m (λ n, bool_decide (n_bgn n = bgn)) (mut st);
  match cur with
  | None => Raise AttributeError          (* oh = cur.l *)
  | Some ih =>
    nih ← rd m ih;
    let oh := n_l nih in
    cur ← scan_r (size m) m (λ n, bool_decide (n_end n = end_)) (Some ih);
    match cur with
    | None => Raise AttributeError        (* ot = cur.r *)
    | Some it =>
      nit ← rd m it;
      let ot := n_r nit in
      let rgbgn := n_bgn nih in
      let rgend := n_end nit in
      m ← rev_loop (size m) rgbgn rgend ot (Some ih) m;
      let m := alter (set_l oh) it m in
      let m := alter (set_r ot) ih m in
      let m := match oh with Some x => alter (set_r (Some it)) x m | None => m end in
      let m := match ot with Some x => alter (set_l (Some ih)) x m | None => m end in
      let st := with_muts m st in
      Ok (if bool_decide (oh = None) then with_mut (Some it) st else st)
    end
  end.

(** [ChrmProf.inv] *)
Definition inv (bgn end_ : Z) (st : ChrmProf) : res (bool * ChrmProf) :=
  rj ← rejected bgn end_ st;
  if rj : bool then Ok (false, st)
  else
    st ← _2split bgn end_ st;
    st ← _rev_mut bgn end_ st;
    let '(s1, s2, s3) := tri_split_str (chrm st) bgn end_ in
    Ok (true, with_chrm (s1 ++ reverse s2 ++ s3) st).

(** ** Deletion *)

(** [list.remove(x)]: the first occurrence goes; [None] stands for the
    [ValueError] of an absent element. *)
Fixpoint list_remove_first (x : nat) (l : list nat) : option (list nat) :=
  match l with
  | [] => None
  | y :: l' => if bool_decide (x = y) then Some l'
               else cons y <$> list_remove_first x l'
  end.

(** The loop of [rem] that unregisters and drops the removed nodes:
    [head.parent.children.remove(head); prev = head; head = head.r; del prev].
    A dropped node leaves the arena. *)
Fixpoint drop_loop (fuel : nat) (head : option nat) (st : ChrmProf) : res ChrmProf :=
  match head with
  | None => Ok st
  | Some h =>
    match fuel with
    | O => Stuck
    | S f =>
      n ← rd (muts st) h;
      match parent (n_ext n) with
      | None => Raise AttributeError
      | Some p =>
        np ← rd (orgs st) p;
        match list_remove_first h (children (n_ext np)) with
        | None => Raise ValueError
        | Some cs =>
          drop_loop f (n_r n)
            (with_muts (delete h (muts st))
               (with_orgs (<[p := set_ext (mkOrgX cs) np]> (orgs st)) st))
        end
      end
    end
  end.

(** [while cur != None: cur.bgn += d; cur.end += d; cur = cur.r] *)
Fixpoint shift_loop (fuel : nat) (d : Z) (cur : option nat) (m : gmap nat (Node MutX))
  : res (gmap nat (Node MutX)) :=
  match cur with
  | None => Ok m
  | Some c =>
    match fuel with
    | O => Stuck
    | S f =>
      n ← rd m c;
      shift_loop f d (n_r n) (<[c := shift d n]> m)
    end
  end.

(** [ChrmProf.rem] *)
Definition rem (bgn end_ : Z) (st : ChrmProf) : res (bool * ChrmProf) :=
  rj ← rejected bgn end_ st;
  if rj : bool then Ok (false, st)
  else
    st ← _2split bgn end_ st;
    '(head, tail) ← _get_head_tail (muts st) (mut st) bgn end_;
    match head with
    | None => Raise AttributeError          (* newL = head.l *)
    | Some hd =>
      nhd ← rd (muts st) hd;
      let newL := n_l nhd in
      match tail with
      | None => Raise AttributeError        (* newR = tail.r *)
      | Some tl =>
        ntl ← rd (muts st) tl;
        let newR := n_r ntl in
        let st := if bool_decide (newL = None) then with_mut newR st else st in
        let m := muts st in
        let m := match newL with Some x => alter (set_r newR) x m | None => m end in
        let m := match newR with Some x => alter (set_l newL) x m | None => m end in
        let m := alter (set_l None) hd m in
        let m := alter (set_r None) tl m in
        let fuel := size m in
        st ← drop_loop fuel (Some hd) (with_muts m st);
        let seg_len := end_ - bgn + 1 in
        m ← shift_loop fuel (- seg_len) newR (muts st);
        let st := with_muts m st in
        let '(s1, s2, s3) := tri_split_str (chrm st) bgn end_ in
        Ok (true, with_chrm (s1 ++ s3) st)
      end
    end.

(** ** Amplification *)

(** The loop of [_copy_from_to].  [headB] is [None] while [i == 0].  The
    result [None] is the Python [None] returned after
    [printerr('should not get here')]. *)
Fixpoint copy_loop (fuel : nat) (to : Z) (curA headB prevB : option nat) (st : ChrmProf)
  : res (option (nat * nat * nat) * ChrmProf) :=
  match curA with
  | None => Ok (None, st)
  | Some a =>
    match fuel with
    | O => Stuck
    | S f =>
      na ← rd (muts st) a;
      (* curB = copy.copy(curA) *)
      let curB := mut_next st in
      (* curB.parent.children.append(curB) *)
      match parent (n_ext na) with
      | None => Raise AttributeError
      | Some p =>
        let o := alter (add_child curB) p (orgs st) in
        let headB := match headB with None => Some curB | Some _ => headB end in
        (* curB.l = prevB; curB.r = None *)
        let m := <[curB := set_r None (set_l prevB na)]> (muts st) in
        (* if prevB != None: prevB.r = curB *)
        let m := match prevB with
                 | Some b => alter (set_r (Some curB)) b m
                 | None => m
                 end in
        let st := mkChrmProf (chrm st) (org st) (mut st) o m (org_next st) (S curB) in
        if bool_decide (n_end na = to) then
          match headB with
          | Some hb => Ok (Some (a, hb, curB), st)
          | None => Stuck
          end
        else copy_loop f to (n_r na) headB (Some curB) st
      end
    end
  end.

(** [_copy_from_to] *)
Definition _copy_from_to (head : option nat) (fm to : Z) (st : ChrmProf)
  : res (option (nat * nat * nat) * ChrmProf) :=
  head ← scan_r (size (muts st)) (muts st) (λ n, bool_decide (n_bgn n = fm)) head;
  copy_loop (size (muts st)) to head None None st.

(** [ChrmProf.amp] *)
Definition amp (bgn end_ : Z) (st : ChrmProf) : res (bool * ChrmProf) :=
  rj ← rejected bgn end_ st;
  if rj : bool then Ok (false, st)
  else
    st ← _2split bgn end_ st;
    '(r, st) ← _copy_from_to (mut st) bgn end_ st;
    match r with
    | None => Raise TypeError               (* insR, head, tail = None *)
    | Some (insR, head, tail) =>
      nR ← rd (muts st) insR;
      let insL := n_r nR in
      let m := muts st in
      let m := alter (set_r (Some head)) insR m in
      let m := alter (set_l (Some insR)) head m in
      let m := alter (set_r insL) tail m in
      let m := match insL with Some x => alter (set_l (Some tail)) x m | None => m end in
      let seg_len := end_ - bgn + 1 in
      m ← shift_loop (size m) seg_len (Some head) m;
      let st := with_muts m st in
      let '(s1, s2, s3) := tri_split_str (chrm st) bgn end_ in
      Ok (true, with_chrm (s1 ++ s2 ++ s2 ++ s3) st)
    end.

(** ** Queries *)

(** The handles of a list of nodes, from [cur] rightwards. *)
Fixpoint chain_from {X} (fuel : nat) (m : gmap nat (Node X)) (cur : option nat)
  : res (list nat) :=
  match cur with
  | None => Ok []
  | Some h =>
    match fuel with
    | O => Stuck
    | S f => n ← rd m h; t ← chain_from f m (n_r n); Ok (h :: t)
    end
  end.

(** A segment as a caller sees it. *)
Definition interval {X} (n : Node X) : Z * Z := (n_bgn n, n_end n).

Definition nodes_of {X} (m : gmap nat (Node X)) (hs : list nat) : list (Node X) :=
  omap (λ h, m !! h) hs.

(** [ChrmProf.get_copy_nums] *)
Definition get_copy_nums (st : ChrmProf) : res (list Z * list Z * list nat) :=
  hs ← chain_from (size (orgs st)) (orgs st) (org st);
  let ns := nodes_of (orgs st) hs in
  Ok (n_bgn <$> ns, n_end <$> ns, (λ n, length (children (n_ext n))) <$> ns).

(** The mutated list in its order: handle, interval, orientation, parent. *)
Definition mut_chain (st : ChrmProf) : res (list nat) :=
  chain_from (size (muts st)) (muts st) (mut st).
Definition org_chain (st : ChrmProf) : res (list nat) :=
  chain_from (size (orgs st)) (orgs st) (org st).

Definition str (s : string) : list ascii := list_ascii_of_string s.

(** ** Reads over breakpoints *)

(** A value of the dictionary [svs]; the key ['mate'] may be absent. *)
Record SvRec : Type := mkSvRec {
  total_reads : Z;
  mated_reads : Z;
  mate : option (Z * bool)
}.

(** [_is_between] *)
Definition _is_between (x a b : Z) : bool :=
  bool_decide (a <= x) && bool_decide (x <= b).

(** [node.parent.bgn] or [node.parent.end] *)
Definition parent_node (st : ChrmProf) (n : Node MutX) : res (Node OrgX) :=
  match parent (n_ext n) with
  | None => Raise AttributeError
  | Some p => rd (orgs st) p
  end.

(** [_get_org_pos] *)
Definition _get_org_pos (st : ChrmProf) (node : nat) (isBgn : bool) : res Z :=
  n ← rd (muts st) node;
  let isBgn := if is_inv (n_ext n) then negb isBgn else isBgn in
  np ← parent_node st n;
  Ok (if isBgn then n_bgn np else n_end np).

(** [_get_mated_pos]; the result [None] is the triple of [None]s. *)
Definition _get_mated_pos (st : ChrmProf) (cur : nat) (isBgn : bool)
  : res (option (Z * bool * bool)) :=
  nc ← rd (muts st) cur;
  let mate := if isBgn then n_l nc else n_r nc in
  match mate with
  | None => Ok None
  | Some mt =>
    curPos ← _get_org_pos st cur isBgn;
    matePos ← _get_org_pos st mt (negb isBgn);
    nm ← rd (muts st) mt;
    pm ← parent_node st nm;
    let isLeft := bool_decide (n_end pm = matePos) in
    let isAdj := bool_decide (Z.abs (curPos - matePos) = 1) in
    Ok (Some (matePos, isLeft, isAdj))
  end.

(** [_get_cur_pos] *)
Definition _get_cur_pos (st : ChrmProf) (cur : nat) (isBgn : bool) : res (Z * bool) :=
  nc ← rd (muts st) cur;
  oCur ← parent_node st nc;
  let isLeft := negb isBgn in
  let isLeft := if is_inv (n_ext nc) then negb isLeft else isLeft in
  Ok (if isLeft then (n_end oCur, isLeft) else (n_bgn oCur, isLeft)).

(** [if key not in svs: svs[key] = {'total_reads': 0, 'mated_reads': 0}] *)
Definition touch (key : Z * bool) (svs : gmap (Z * bool) SvRec) : gmap (Z * bool) SvRec :=
  match svs !! key with
  | Some _ => svs
  | None => <[key := mkSvRec 0 0 None]> svs
  end.

Definition incr_total (v : SvRec) : SvRec :=
  mkSvRec (total_reads v + 1) (mated_reads v) (mate v).
Definition incr_mated (v : SvRec) : SvRec :=
  mkSvRec (total_reads v) (mated_reads v + 1) (mate v).
Definition set_mate (k : Z * bool) (v : SvRec) : SvRec :=
  mkSvRec (total_reads v) (mated_reads v) (Some k).

(** [_add_sv_to_dict] *)
Definition _add_sv_to_dict (st : ChrmProf) (svs : gmap (Z * bool) SvRec)
    (cur : nat) (isBgn : bool) : res (gmap (Z * bool) SvRec) :=
  r ← _get_mated_pos st cur isBgn;
  curTup ← _get_cur_pos st cur isBgn;
  match r with
  | None => Ok svs
  | Some (matePos, mateIsLeft, isAdj) =>
    let mateTup := (matePos, mateIsLeft) in
    let svs := touch curTup svs in
    let svs := touch mateTup svs in
    let svs := alter incr_total curTup svs in
    if negb isAdj then
      let svs := alter incr_mated curTup svs in
      let svs := alter (set_mate mateTup) curTup svs in
      let svs := alter (set_mate curTup) mateTup svs in
      Ok svs
    else Ok svs
  end.

(** The loop of [get_sv_read_nums] over the sorted centres [ps]. *)
Fixpoint read_loop (st : ChrmProf) (d : Z) (ps : list Z) (cur : option nat)
    (svs : gmap (Z * bool) SvRec) : res (gmap (Z * bool) SvRec) :=
  match cur, ps with
  | Some c, p :: ps' =>
    let pl := p - d in
    let pr := p + d in
    nc ← rd (muts st) c;
    let cur := if bool_decide (n_end nc < p) then n_r nc else cur in
    match cur with
    | None => Ok svs
    | Some c =>
      nc ← rd (muts st) c;
      svs ← (if _is_between (n_bgn nc) pl pr then _add_sv_to_dict st svs c true
             else Ok svs);
      svs ← (if _is_between (n_end nc) pl pr then _add_sv_to_dict st svs c false
             else Ok svs);
      read_loop st d ps' cur svs
    end
  | _, _ => Ok svs
  end.

(** The first part of [ChrmProf.get_sv_read_nums], up to the end of the
    [while] loop.  The centres of the reads are drawn by [random.choice];
    [ps] is the list that was drawn, the rest follows the source: the
    centres are sorted and the mutated list is walked along them. *)
Definition sample_reads (read_len : Z) (ps : list Z) (st : ChrmProf)
  : res (gmap (Z * bool) SvRec) :=
  let read_len := if bool_decide (read_len `mod` 2 = 0) then read_len + 1 else read_len in
  let ps := merge_sort Z.le ps in
  let d := read_len `div` 2 in
  read_loop st d ps (mut st) ∅.

(** [for k, v in svs.items(): if 'mate' not in v: keys_to_remove.append(k)] *)
Definition keys_to_remove (svs : gmap (Z * bool) SvRec) : list (Z * bool) :=
  omap (λ kv, match mate kv.2 with None => Some kv.1 | Some _ => None end)
       (map_to_list svs).

(** [for k in keys_to_remove: del svs[k]] *)
Definition del_keys (ks : list (Z * bool)) (svs : gmap (Z * bool) SvRec)
  : gmap (Z * bool) SvRec :=
  foldl (λ m k, delete k m) svs ks.

(** [ChrmProf.get_sv_read_nums] *)
Definition get_sv_read_nums (read_len : Z) (ps : list Z) (st : ChrmProf)
  : res (gmap (Z * bool) SvRec) :=
  svs ← sample_reads read_len ps st;
  Ok (del_keys (keys_to_remove svs) svs).

(** * Lists of nodes as sequences of segments *)

(** A segment is what a node holds apart from its links. *)
Record Seg (X : Type) : Type := mkSeg {
  s_id : nat;
  s_bgn : Z;
  s_end : Z;
  s_ext : X
}.
Arguments mkSeg {X} s_id s_bgn s_end s_ext.
Arguments s_id {X} s.
Arguments s_bgn {X} s.
Arguments s_end {X} s.
Arguments s_ext {X} s.

Definition cell {X} (p n : option nat) (s : Seg X) : Node X :=
  mkNode p n (s_bgn s) (s_end s) (s_ext s).
Definition seg_of {X} (h : nat) (n : Node X) : Seg X :=
  mkSeg h (n_bgn n) (n_end n) (n_ext n).
Definition ids {X} (L : list (Seg X)) : list nat := s_id <$> L.
Definition first_id {X} (L : list (Seg X)) (d : option nat) : option nat :=
  match L with
  | [] => d
  | s :: _ => Some (s_id s)
  end.
Definition last_id {X} (L : list (Seg X)) (d : option nat) : option nat :=
  match last L with
  | Some s => Some (s_id s)
  | None => d
  end.

(** [dlseg m p L n]: the cells of [L] in [m] are linked in this order, the
    first one has [l = p] and the last one has [r = n]. *)
Fixpoint dlseg {X} (m : gmap nat (Node X)) (p : option nat) (L : list (Seg X))
    (n : option nat) : Prop :=
  match L with
  | [] => True
  | s :: t => m !! s_id s = Some (cell p (first_id t n) s) ∧ dlseg m (Some (s_id s)) t n
  end.

(** [rep m hd L]: the arena [m] holds exactly the list [L], entered at [hd]. *)
Record rep {X} (m : gmap nat (Node X)) (hd : option nat) (L : list (Seg X)) : Prop := mkRep {
  rep_seg : dlseg m None L None;
  rep_hd : hd = first_id L None;
  rep_nodup : NoDup (ids L);
  rep_dom : ∀ h, is_Some (m !! h) → h ∈ ids L
}.

Section chains.
Context {X : Type}.
Implicit Types (m : gmap nat (Node X)) (L : list (Seg X)) (s : Seg X).

Lemma first_id_app L1 L2 d : first_id (L1 ++ L2) d = first_id L1 (first_id L2 d).
Proof. by destruct L1. Qed.

Lemma last_id_app L1 L2 d : last_id (L1 ++ L2) d = last_id L2 (last_id L1 d).
Proof.
  unfold last_id. destruct L2 as [|s L2] using rev_ind.
  - by rewrite app_nil_r.
  - by rewrite app_assoc, !last_snoc.
Qed.

Lemma last_id_snoc L s d : last_id (L ++ [s]) d = Some (s_id s).
Proof. unfold last_id. by rewrite last_snoc. Qed.

Lemma last_id_cons s L d : last_id (s :: L) d = last_id L (Some (s_id s)).
Proof. apply (last_id_app [s] L d). Qed.

Lemma first_id_reverse L d : first_id (reverse L) d = last_id L d.
Proof.
  destruct L as [|s L] using rev_ind; [done|].
  by rewrite reverse_snoc, last_id_snoc.
Qed.

Lemma last_id_reverse L d : last_id (reverse L) d = first_id L d.
Proof.
  destruct L as [|s L]; [done|].
  by rewrite reverse_cons, last_id_snoc.
Qed.

Lemma first_id_Some L d h : first_id L None = Some h → first_id L d = Some h.
Proof. by destruct L. Qed.

Lemma last_id_Some L d h : last_id L None = Some h → last_id L d = Some h.
Proof. unfold last_id. by destruct (last L). Qed.

Lemma last_id_fmap_id (f : Seg X → Seg X) L d :
  (∀ s, s_id (f s) = s_id s) → last_id (f <$> L) d = last_id L d.
Proof.
  intros Hf. unfold last_id. rewrite fmap_last. destruct (last L); simpl; [|done].
  by rewrite Hf.
Qed.

Lemma ids_app L1 L2 : ids (L1 ++ L2) = ids L1 ++ ids L2.
Proof. apply fmap_app. Qed.

Lemma elem_of_ids s L : s ∈ L → s_id s ∈ ids L.
Proof. intros. by apply list_elem_of_fmap_2. Qed.

Lemma dlseg_app m p L1 L2 n :
  dlseg m p (L1 ++ L2) n ↔
  dlseg m p L1 (first_id L2 n) ∧ dlseg m (last_id L1 p) L2 n.
Proof.
  revert p. induction L1 as [|s L1 IH]; intros p; simpl.
  - tauto.
  - rewrite IH, first_id_app, last_id_cons. tauto.
Qed.

(** Only the cells of [L] matter. *)
Lemma dlseg_frame m m' p L n :
  (∀ h, h ∈ ids L → m' !! h = m !! h) → dlseg m p L n → dlseg m' p L n.
Proof.
  revert p. induction L as [|s L IH]; intros p Hag; simpl; [done|].
  intros [Hs Ht]. split.
  - rewrite Hag; [done|]. simpl. left.
  - apply IH; [|done]. intros h Hh. apply Hag. simpl. by right.
Qed.

Lemma dlseg_lookup m p L n s :
  dlseg m p L n → s ∈ L → ∃ p' n', m !! s_id s = Some (cell p' n' s).
Proof.
  revert p. induction L as [|s' L IH]; intros p; simpl.
  - intros _ Hin. by apply elem_of_nil in Hin.
  - intros [Hs Ht] Hin. apply elem_of_cons in Hin as [->|Hin]; [eauto|].
    by eapply IH.
Qed.

(** The content of a cell at a known place of the list. *)
Lemma dlseg_middle m p L1 s L2 n :
  dlseg m p (L1 ++ s :: L2) n →
  m !! s_id s = Some (cell (last_id L1 p) (first_id L2 n) s).
Proof. rewrite dlseg_app. simpl. tauto. Qed.

Lemma seg_inj_id L s s' :
  NoDup (ids L) → s ∈ L → s' ∈ L → s_id s = s_id s' → s = s'.
Proof.
  induction L as [|x L IH]; simpl; intros Hnd Hs Hs' Heq.
  - by apply elem_of_nil in Hs.
  - apply NoDup_cons in Hnd as [Hx Hnd].
    apply elem_of_cons in Hs as [->|Hs]; apply elem_of_cons in Hs' as [->|Hs'].
    + done.
    + exfalso. apply Hx. rewrite Heq. by apply elem_of_ids.
    + exfalso. apply Hx. rewrite <- Heq. by apply elem_of_ids.
    + by apply IH.
Qed.

Lemma rep_size m hd L : rep m hd L → size m = length L.
Proof.
  intros [Hseg _ Hnd Hdom].
  assert (dom m = list_to_set (ids L)) as Hd.
  { apply set_eq. intros h. rewrite elem_of_dom, elem_of_list_to_set. split.
    - apply Hdom.
    - intros Hin. apply list_elem_of_fmap in Hin as (s & -> & Hs).
      destruct (dlseg_lookup _ _ _ _ _ Hseg Hs) as (p' & n' & Hl). eauto. }
  rewrite <- size_dom, Hd, size_list_to_set by done.
  unfold ids. by rewrite length_fmap.
Qed.

Lemma rep_lookup m hd L h n :
  rep m hd L → m !! h = Some n → seg_of h n ∈ L.
Proof.
  intros [Hseg _ Hnd Hdom] Hl.
  assert (h ∈ ids L) as Hin by (apply Hdom; eauto).
  apply list_elem_of_fmap in Hin as (s & -> & Hs).
  destruct (dlseg_lookup _ _ _ _ _ Hseg Hs) as (p' & n' & Hl').
  rewrite Hl in Hl'. injection Hl' as ->. by destruct s.
Qed.

Lemma rep_lookup_seg m hd L s :
  rep m hd L → s ∈ L → ∃ n, m !! s_id s = Some n ∧ seg_of (s_id s) n = s.
Proof.
  intros [Hseg _ _ _] Hs.
  destruct (dlseg_lookup _ _ _ _ _ Hseg Hs) as (p' & n' & Hl).
  eexists; split; [done|]. by destruct s.
Qed.

(** *** Scanning *)

(** Every list splits at its first element that satisfies [g]. *)
Lemma first_split (g : Seg X → bool) L :
  Forall (λ s, g s = false) L ∨
  ∃ L1 s L2, L = L1 ++ s :: L2 ∧ Forall (λ s, g s = false) L1 ∧ g s = true.
Proof.
  induction L as [|x L IH].
  - left. constructor.
  - destruct (g x) eqn:Hx.
    + right. exists [], x, L. by repeat split.
    + destruct IH as [IH|(L1 & s & L2 & -> & H1 & Hs)].
      * left. by constructor.
      * right. exists (x :: L1), s, L2. repeat split; [|done]. by constructor.
Qed.

Section scan.
Variables (stop : Node X → bool) (g : Seg X → bool).
Hypothesis stop_cell : ∀ p n s, stop (cell p n s) = g s.

Lemma scan_r_found m fuel p L1 s L2 n :
  dlseg m p (L1 ++ s :: L2) n →
  Forall (λ s, g s = false) L1 → g s = true →
  (length L1 ≤ fuel)%nat →
  scan_r fuel m stop (first_id (L1 ++ s :: L2) n) = Ok (Some (s_id s)).
Proof.
  revert fuel p. induction L1 as [|x L1 IH]; intros fuel p Hseg Hall Hs Hf.
  - simpl in *. destruct Hseg as [Hl _]. destruct fuel; simpl;
      unfold rd; rewrite Hl; simpl; by rewrite stop_cell, Hs.
  - simpl in Hseg. destruct Hseg as [Hl Hseg].
    apply Forall_cons in Hall as [Hx Hall].
    destruct fuel as [|fuel]; [simpl in Hf; lia|].
    simpl. unfold rd. rewrite Hl. simpl. rewrite stop_cell, Hx.
    apply (IH fuel _ Hseg Hall Hs). simpl in Hf. lia.
Qed.

Lemma scan_r_none m fuel p L :
  dlseg m p L None → Forall (λ s, g s = false) L →
  (length L ≤ fuel)%nat →
  scan_r fuel m stop (first_id L None) = Ok None.
Proof.
  revert fuel p. induction L as [|x L IH]; intros fuel p Hseg Hall Hf.
  - by destruct fuel.
  - simpl in Hseg. destruct Hseg as [Hl Hseg].
    apply Forall_cons in Hall as [Hx Hall].
    destruct fuel as [|fuel]; [simpl in Hf; lia|].
    simpl. unfold rd. rewrite Hl. simpl. rewrite stop_cell, Hx.
    apply (IH fuel _ Hseg Hall). simpl in Hf. lia.
Qed.
End scan.

Lemma chain_from_dlseg m fuel p L :
  dlseg m p L None → (length L ≤ fuel)%nat →
  chain_from fuel m (first_id L None) = Ok (ids L).
Proof.
  revert fuel p. induction L as [|x L IH]; intros fuel p Hseg Hf.
  - by destruct fuel.
  - simpl in Hseg. destruct Hseg as [Hl Hseg].
    destruct fuel as [|fuel]; [simpl in Hf; lia|].
    simpl. unfold rd. rewrite Hl. simpl.
    rewrite (IH fuel _ Hseg) by (simpl in Hf; lia). done.
Qed.

Lemma nodes_of_dlseg m p L n :
  dlseg m p L n → (seg_of 0 <$> nodes_of m (ids L)) = (λ s, mkSeg 0%nat (s_bgn s) (s_end s) (s_ext s)) <$> L.
Proof.
  revert p. induction L as [|x L IH]; intros p; simpl; [done|].
  intros [Hl Hseg]. unfold nodes_of in *. simpl. rewrite Hl. simpl.
  f_equal. by eapply IH.
Qed.
End chains.

(** Lookups through the updates of an arena. *)
Ltac lk_ne := solve [ done | congruence | lia | (intros ->; done) | (intros <-; done) ].
Ltac lk :=
  repeat first
    [ rewrite lookup_insert_eq
    | rewrite lookup_alter_eq
    | rewrite lookup_delete_eq
    | rewrite lookup_insert_ne by lk_ne
    | rewrite lookup_alter_ne by lk_ne
    | rewrite lookup_delete_ne by lk_ne ].

Section split_node.
Context {X : Type}.
Implicit Types (m : gmap nat (Node X)) (L : list (Seg X)) (s : Seg X).

(** The two halves of a segment split [k] positions after its start. *)
Definition seg_left (k : Z) s : Seg X :=
  mkSeg (s_id s) (s_bgn s) (s_bgn s + k - 1) (s_ext s).
Definition seg_right (new_ext : X → X) (new : nat) (k : Z) s : Seg X :=
  mkSeg new (s_bgn s + k) (s_end s) (new_ext (s_ext s)).

Lemma NoDup_ids_middle L1 s L2 :
  NoDup (ids (L1 ++ s :: L2)) →
  (s_id s ∉ ids L1) ∧ (s_id s ∉ ids L2) ∧ NoDup (ids L1) ∧ NoDup (ids L2) ∧
  (∀ h, h ∈ ids L1 → h ∉ ids L2).
Proof.
  rewrite ids_app. simpl. intros Hnd.
  apply NoDup_app in Hnd as (H1 & H12 & H2).
  apply NoDup_cons in H2 as [Hs H2].
  repeat split; try done.
  - intros Hin. apply (H12 _ Hin). left.
  - intros h Hh Hh2. apply (H12 _ Hh). by right.
Qed.

Lemma first_id_in L h : first_id L None = Some h → h ∈ ids L.
Proof. destruct L; simpl; [done|]. intros [= <-]. left. Qed.

Lemma last_id_in L h : last_id L None = Some h → h ∈ ids L.
Proof.
  destruct L as [|s L] using rev_ind; [done|].
  rewrite last_id_snoc, ids_app. intros [= <-].
  apply elem_of_app. right. simpl. left.
Qed.

Lemma Node_split_rep new_ext k m hd L1 s L2 next :
  rep m hd (L1 ++ s :: L2) →
  (∀ h, is_Some (m !! h) → (h < next)%nat) →
  ∃ m', Node_split new_ext (s_id s) k m next = Ok (next, m', S next) ∧
        rep m' hd (L1 ++ seg_left k s :: seg_right new_ext next k s :: L2) ∧
        (∀ h, is_Some (m' !! h) → (h < S next)%nat).
Proof.
  intros [Hseg Hhd Hnd Hdom] Hnext.
  pose proof (dlseg_middle _ _ _ _ _ _ Hseg) as Hs.
  destruct (NoDup_ids_middle _ _ _ Hnd) as (Hs1 & Hs2 & Hnd1 & Hnd2 & H12).
  assert (Hfresh : ∀ h, h ∈ ids (L1 ++ s :: L2) → h ≠ next).
  { intros h Hh ->. apply list_elem_of_fmap in Hh as (x & Hx & Hin).
    destruct (dlseg_lookup _ _ _ _ _ Hseg Hin) as (p' & n' & Hl).
    assert (next < next)%nat; [|lia].
    apply Hnext. rewrite Hx. eauto. }
  assert (s_id s ≠ next) as Hsn.
  { apply Hfresh. rewrite ids_app. apply elem_of_app. right. left. }
  assert (∀ h, h ∈ ids L1 → h ≠ next) as Hf1.
  { intros h Hh. apply Hfresh. rewrite ids_app. apply elem_of_app. by left. }
  assert (∀ h, h ∈ ids L2 → h ≠ next) as Hf2.
  { intros h Hh. apply Hfresh. rewrite ids_app. apply elem_of_app. right. by right. }
  apply dlseg_app in Hseg as [Hseg1 Hseg2]. simpl in Hseg1, Hseg2.
  destruct Hseg2 as [_ Hseg2].
  unfold Node_split, rd. rewrite Hs. simpl.
  eexists. split; [reflexivity|]. split; [split|].
  - apply dlseg_app. split.
    + simpl. eapply dlseg_frame; [|exact Hseg1].
      intros h Hh.
      assert (h ≠ s_id s) by (intros ->; done).
      assert (h ≠ next) by (by apply Hf1).
      destruct (first_id L2 None) as [r|] eqn:Hr.
      * assert (h ≠ r) by (intros ->; eapply H12; [done|]; by apply first_id_in).
        by lk.
      * by lk.
    + simpl. split; [|split].
      * destruct (first_id L2 None) as [r|] eqn:Hr.
        -- assert (s_id s ≠ r) by (intros Heq; apply Hs2; rewrite Heq; by apply first_id_in).
           lk. rewrite Hs. done.
        -- lk. rewrite Hs. done.
      * destruct (first_id L2 None) as [r|] eqn:Hr.
        -- assert (next ≠ r) by (intros ->; eapply Hf2; [|done]; by apply first_id_in).
           by lk.
        -- by lk.
      * destruct L2 as [|x L2]; [done|]. simpl in *.
        destruct Hseg2 as [Hx Hseg2].
        apply NoDup_cons in Hnd2 as [Hx2 Hnd2].
        assert (s_id x ≠ s_id s) by (intros Heq; apply Hs2; rewrite <- Heq; left).
        assert (s_id x ≠ next) by (apply Hf2; left).
        split.
        -- lk. rewrite Hx. done.
        -- eapply dlseg_frame; [|exact Hseg2].
           intros h Hh.
           assert (h ≠ s_id s) by (intros ->; apply Hs2; by right).
           assert (h ≠ s_id x) by (intros ->; done).
           assert (h ≠ next) by (apply Hf2; by right).
           by lk.
  - rewrite Hhd. by destruct L1.
  - revert Hnd. rewrite !ids_app. simpl. intros Hnd.
    apply NoDup_app in Hnd as (H1 & H12' & H2).
    apply NoDup_app. split; [done|]. split.
    + intros h Hh Hin. apply elem_of_cons in Hin as [->|Hin]; [by apply Hs1|].
      apply elem_of_cons in Hin as [->|Hin]; [by eapply Hf1|].
      eapply H12; done.
    + apply NoDup_cons. split.
      * intros Hin. apply elem_of_cons in Hin as [?|Hin]; [done|]. by apply Hs2.
      * apply NoDup_cons. split; [|done]. intros Hin. by eapply Hf2.
  - intros h Hh. rewrite ids_app. simpl.
    destruct (decide (h = next)) as [->|Hne].
    { apply elem_of_app. right. right. left. }
    assert (is_Some (m !! h)) as Hm.
    { revert Hh. rewrite lookup_alter_is_Some.
      destruct (first_id L2 None);
        rewrite ?lookup_alter_is_Some, lookup_insert_is_Some';
        intros [?|?]; done || congruence. }
    apply Hdom in Hm. rewrite ids_app in Hm. simpl in Hm.
    apply elem_of_app in Hm as [?|Hm]; apply elem_of_app; [by left|right].
    apply elem_of_cons in Hm as [->|?]; [left|by do 2 right].
  - intros h Hh.
    destruct (decide (h = next)) as [->|Hne]; [lia|].
    assert (is_Some (m !! h)) as Hm.
    { revert Hh. rewrite lookup_alter_is_Some.
      destruct (first_id L2 None);
        rewrite ?lookup_alter_is_Some, lookup_insert_is_Some';
        intros [?|?]; done || congruence. }
    apply Hnext in Hm. lia.
Qed.
End split_node.

Section alter_node.
Context {X : Type}.
Implicit Types (m : gmap nat (Node X)) (L : list (Seg X)) (s : Seg X).

Lemma ids_split L h :
  h ∈ ids L → ∃ L1 s L2, L = L1 ++ s :: L2 ∧ s_id s = h.
Proof.
  intros Hin. apply list_elem_of_fmap in Hin as (s & -> & Hs).
  apply list_elem_of_split in Hs as (L1 & L2 & ->). eauto.
Qed.

(** An update of one cell that keeps its links and its handle. *)
Lemma rep_alter m hd L1 s L2 (f : Node X → Node X) s' :
  rep m hd (L1 ++ s :: L2) →
  (∀ p n, f (cell p n s) = cell p n s') → s_id s' = s_id s →
  rep (alter f (s_id s) m) hd (L1 ++ s' :: L2).
Proof.
  intros [Hseg Hhd Hnd Hdom] Hf Hid.
  pose proof (dlseg_middle _ _ _ _ _ _ Hseg) as Hs.
  destruct (NoDup_ids_middle _ _ _ Hnd) as (Hs1 & Hs2 & Hnd1 & Hnd2 & H12).
  apply dlseg_app in Hseg as [Hseg1 Hseg2]. simpl in Hseg1, Hseg2.
  destruct Hseg2 as [_ Hseg2].
  split.
  - apply dlseg_app. simpl. rewrite Hid. split; [|split].
    + eapply dlseg_frame; [|exact Hseg1]. intros h Hh.
      assert (h ≠ s_id s) by (intros ->; done). by lk.
    + lk. rewrite Hs. simpl. by rewrite Hf.
    + eapply dlseg_frame; [|exact Hseg2]. intros h Hh.
      assert (h ≠ s_id s) by (intros ->; done). by lk.
  - rewrite Hhd. destruct L1; simpl; [by rewrite Hid|done].
  - revert Hnd. rewrite !ids_app. simpl. by rewrite Hid.
  - intros h Hh. apply lookup_alter_is_Some in Hh. apply Hdom in Hh.
    revert Hh. rewrite !ids_app. simpl. by rewrite Hid.
Qed.
End alter_node.

(** * The two lists of a profile *)

(** [Rep st Lo Lm]: the profile [st] holds the list [Lo] of original
    segments and the list [Lm] of mutated segments. *)
Record Rep (st : ChrmProf) (Lo : list (Seg OrgX)) (Lm : list (Seg MutX)) : Prop := mkRepP {
  Rep_org : rep (orgs st) (org st) Lo;
  Rep_mut : rep (muts st) (mut st) Lm;
  Rep_org_next : ∀ h, is_Some (orgs st !! h) → (h < org_next st)%nat;
  Rep_mut_next : ∀ h, is_Some (muts st !! h) → (h < mut_next st)%nat
}.

(** ** Splitting, on sequences *)

Definition kid_right (o2 new : nat) (k : Z) (s : Seg MutX) : Seg MutX :=
  mkSeg new (s_bgn s + k) (s_end s) (mkMutX (Some o2) (is_inv (s_ext s))).

(** One turn of the loop of [_split]: the child [c] is cut in two. *)
Definition asplit1 (k : Z) (o2 new c : nat) (L : list (Seg MutX)) : list (Seg MutX) :=
  s ← L; if bool_decide (s_id s = c) then [seg_left k s; kid_right o2 new k s] else [s].

Fixpoint asplit_kids (k : Z) (o2 next : nat) (cs : list nat) (L : list (Seg MutX))
  : list (Seg MutX) :=
  match cs with
  | [] => L
  | c :: cs' => asplit_kids k o2 (S next) cs' (asplit1 k o2 next c L)
  end.

Definition add_kids (l : list nat) (o : Seg OrgX) : Seg OrgX :=
  mkSeg (s_id o) (s_bgn o) (s_end o) (mkOrgX (children (s_ext o) ++ l)).

Lemma asplit1_notin k o2 new c L :
  c ∉ ids L → asplit1 k o2 new c L = L.
Proof.
  unfold asplit1. induction L as [|s L IH]; [done|]. simpl.
  intros Hn. apply not_elem_of_cons in Hn as [Hc Hn].
  rewrite bool_decide_eq_false_2 by done. simpl. f_equal. by apply IH.
Qed.

Lemma asplit1_middle k o2 new L1 s L2 :
  NoDup (ids (L1 ++ s :: L2)) →
  asplit1 k o2 new (s_id s) (L1 ++ s :: L2)
  = L1 ++ seg_left k s :: kid_right o2 new k s :: L2.
Proof.
  intros Hnd. destruct (NoDup_ids_middle _ _ _ Hnd) as (Hs1 & Hs2 & _).
  pose proof (asplit1_notin k o2 new _ _ Hs1) as H1.
  pose proof (asplit1_notin k o2 new _ _ Hs2) as H2.
  unfold asplit1 in *. rewrite bind_app, bind_cons, H1, H2.
  by rewrite bool_decide_eq_true_2 by done.
Qed.

Lemma ids_asplit1 k o2 new c L h :
  h ∈ ids L → h ∈ ids (asplit1 k o2 new c L).
Proof.
  unfold asplit1. induction L as [|s L IH]; [done|]. simpl.
  intros Hin. rewrite ids_app. apply elem_of_app.
  apply elem_of_cons in Hin as [->|Hin]; [left|right; by apply IH].
  case_bool_decide; simpl; left.
Qed.

Lemma split_children_Rep k o2 cs : ∀ st Lo1 o2s Lo2 Lm,
  Rep st (Lo1 ++ o2s :: Lo2) Lm →
  s_id o2s = o2 →
  (∀ c, c ∈ cs → c ∈ ids Lm) →
  ∃ st', split_children k o2 cs st = Ok st' ∧
    Rep st' (Lo1 ++ add_kids (seq (mut_next st) (length cs)) o2s :: Lo2)
            (asplit_kids k o2 (mut_next st) cs Lm) ∧
    chrm st' = chrm st ∧ org_next st' = org_next st.
Proof.
  induction cs as [|c cs IH]; intros st Lo1 o2s Lo2 Lm HR Ho2 Hcs.
  - exists st. simpl. split; [done|]. split; [|done].
    unfold add_kids. rewrite app_nil_r. by destruct o2s as [? ? ? []].
  - destruct HR as [HRo HRm Hon Hmn].
    destruct (ids_split Lm c) as (L1 & s & L2 & -> & Hc); [apply Hcs; left|].
    subst c.
    destruct (Node_split_rep (λ x : MutX, mkMutX None (is_inv x)) k _ _ _ _ _ _ HRm Hmn)
      as (m' & Hsp & HRm' & Hmn').
    simpl. unfold MutNode_split. rewrite Hsp. simpl.
    set (st1 := mkChrmProf _ _ _ _ _ _ _).
    assert (Rep st1 (Lo1 ++ add_kids [mut_next st] o2s :: Lo2)
              (asplit1 k o2 (mut_next st) (s_id s) (L1 ++ s :: L2))) as HR1.
    { split; simpl.
      - rewrite <- Ho2. apply rep_alter; [done| |done]. by intros p n.
      - rewrite asplit1_middle by apply HRm.
        change (L1 ++ seg_left k s :: ?x :: L2) with (L1 ++ [seg_left k s] ++ x :: L2) in HRm' |- *.
        rewrite app_assoc in HRm' |- *.
        apply (rep_alter _ _ _ _ _ (set_parent (Some o2)) (kid_right o2 (mut_next st) k s)) in HRm';
          [done| by intros p n | done].
      - intros h Hh. apply lookup_alter_is_Some in Hh. by apply Hon.
      - intros h Hh. apply lookup_alter_is_Some in Hh. by apply Hmn'. }
    destruct (IH st1 Lo1 (add_kids [mut_next st] o2s) Lo2 _ HR1) as (st' & Hst' & HR' & Hch & Hnx).
    { done. }
    { intros c' Hc'. apply ids_asplit1. apply Hcs. by right. }
    exists st'. split; [done|]. split; [|done].
    simpl in HR'.
    replace (add_kids (mut_next st :: seq (S (mut_next st)) (length cs)) o2s)
      with (add_kids (seq (S (mut_next st)) (length cs)) (add_kids [mut_next st] o2s)); [done|].
    unfold add_kids. simpl. by rewrite <- app_assoc.
Qed.

Lemma bind_Ok {A B} (a : A) (f : A → res B) : (Ok a ≫= f) = f a.
Proof. done. Qed.

Lemma rd_Some {X} (m : gmap nat (Node X)) h n : m !! h = Some n → rd m h = Ok n.
Proof. unfold rd. by intros ->. Qed.

(** The test of the loop at the head of [_split]. *)
Definition holds (k : Z) (s : Seg MutX) : bool :=
  bool_decide (s_bgn s <= k) && bool_decide (k <= s_end s).

Lemma _split_scan st Lo Lm k L1 s L2 :
  Rep st Lo Lm → Lm = L1 ++ s :: L2 →
  Forall (λ x, holds k x = false) L1 → holds k s = true →
  scan_r (size (muts st)) (muts st)
    (λ n, bool_decide (n_bgn n <= k) && bool_decide (k <= n_end n)) (mut st)
  = Ok (Some (s_id s)).
Proof.
  intros HR -> H1 Hs. destruct HR as [_ HRm _ _].
  rewrite (rep_hd _ _ _ HRm).
  eapply (scan_r_found _ (holds k)); [done|apply HRm|done|done|].
  rewrite (rep_size _ _ _ HRm), length_app. lia.
Qed.

(** [_split] leaves the profile as it is when [k] is the first or the last
    position of the segment that holds it. *)
Lemma _split_Rep_same st Lo Lm k L1 s L2 :
  Rep st Lo Lm → Lm = L1 ++ s :: L2 →
  Forall (λ x, holds k x = false) L1 → holds k s = true →
  s_bgn s = k ∨ s_end s = k →
  _split k st = Ok st.
Proof.
  intros HR HL H1 Hs Hk. unfold _split.
  destruct (bool_decide (k = 0) || bool_decide (k >= len st)); [done|].
  rewrite (_split_scan _ _ _ _ _ _ _ HR HL H1 Hs). simpl.
  subst Lm.
  rewrite (rd_Some _ _ _ (dlseg_middle _ _ _ _ _ _ (rep_seg _ _ _ (Rep_mut _ _ _ HR)))). simpl.
  destruct Hk as [Hk|Hk]; rewrite (bool_decide_eq_true_2 _ Hk); [done|].
  by rewrite orb_true_r.
Qed.

(** Otherwise the original segment and all its children are cut. *)
Lemma _split_Rep_cut st Lo Lm k L1 s L2 A o B :
  Rep st Lo Lm → Lm = L1 ++ s :: L2 →
  Forall (λ x, holds k x = false) L1 →
  s_bgn s < k < s_end s →
  0 < k < len st →
  parent (s_ext s) = Some (s_id o) → Lo = A ++ o :: B →
  (∀ c, c ∈ children (s_ext o) → c ∈ ids Lm) →
  let k' := k - s_bgn s in
  ∃ st', _split k st = Ok st' ∧
    Rep st'
      (A ++ seg_left k' o
         :: add_kids (seq (mut_next st) (length (children (s_ext o))))
              (seg_right (λ _, mkOrgX []) (org_next st) k' o) :: B)
      (asplit_kids k' (org_next st) (mut_next st) (children (s_ext o)) Lm) ∧
    chrm st' = chrm st.
Proof.
  intros HR HL H1 Hk Hlen Hpar HLo Hkids k'.
  assert (holds k s = true) as Hs.
  { unfold holds. rewrite !bool_decide_eq_true_2 by lia. done. }
  unfold _split.
  rewrite (bool_decide_eq_false_2 (k = 0)), (bool_decide_eq_false_2 (k >= len st)) by lia.
  simpl.
  rewrite (_split_scan _ _ _ _ _ _ _ HR HL H1 Hs). simpl.
  pose proof HR as [HRo HRm Hon Hmn].
  subst Lm Lo.
  rewrite (rd_Some _ _ _ (dlseg_middle _ _ _ _ _ _ (rep_seg _ _ _ HRm))). simpl.
  rewrite !bool_decide_eq_false_2 by lia. simpl. rewrite Hpar.
  destruct (Node_split_rep (λ _ : OrgX, mkOrgX []) k' _ _ _ _ _ _ HRo Hon)
    as (m' & Hsp & HRo' & Hon').
  unfold OrgNode_split. fold k'. rewrite Hsp. simpl.
  pose proof (rd_Some _ _ _ (dlseg_middle _ _ _ _ _ _ (rep_seg _ _ _ HRo'))) as Hrd.
  simpl in Hrd. rewrite Hrd. simpl.
  set (st1 := mkChrmProf _ _ _ _ _ _ _).
  assert (Rep st1 ((A ++ [seg_left k' o]) ++ seg_right (λ _, mkOrgX []) (org_next st) k' o :: B)
            (L1 ++ s :: L2)) as HR1.
  { split; simpl; [|done|done|done]. by rewrite <- app_assoc. }
  destruct (split_children_Rep k' (org_next st) (children (s_ext o)) st1 _ _ _ _ HR1)
    as (st' & Hst' & HR' & Hch & _); [done|done|].
  exists st'. split; [done|]. split; [|done].
  by rewrite <- app_assoc in HR'.
Qed.

(** * The invariant of a profile *)

(** [tiling z L z']: the segments of [L] are not empty and follow one
    another without gap from position [z] to position [z' - 1]. *)
Fixpoint tiling {X} (z : Z) (L : list (Seg X)) (z' : Z) : Prop :=
  match L with
  | [] => z = z'
  | s :: t => s_bgn s = z ∧ s_bgn s <= s_end s ∧ tiling (s_end s + 1) t z'
  end.

(** Parents and children agree, and a child is as long as its parent. *)
Record kin (Lo : list (Seg OrgX)) (Lm : list (Seg MutX)) : Prop := mkKin {
  kin_parent : ∀ s, s ∈ Lm →
    ∃ o, o ∈ Lo ∧ parent (s_ext s) = Some (s_id o) ∧ s_id s ∈ children (s_ext o) ∧
         s_end s - s_bgn s = s_end o - s_bgn o;
  kin_children : ∀ o, o ∈ Lo →
    NoDup (children (s_ext o)) ∧
    ∀ c, c ∈ children (s_ext o) →
      ∃ s, s ∈ Lm ∧ s_id s = c ∧ parent (s_ext s) = Some (s_id o)
}.

Section tiling.
Context {X : Type}.
Implicit Types (L : list (Seg X)) (s : Seg X).

Lemma tiling_app z L1 L2 z' :
  tiling z (L1 ++ L2) z' ↔ ∃ w, tiling z L1 w ∧ tiling w L2 z'.
Proof.
  revert z. induction L1 as [|s L1 IH]; intros z; simpl.
  - split; [eauto|]. by intros (w & -> & ?).
  - rewrite IH. split.
    + intros (? & ? & w & ? & ?). eauto 10.
    + intros (w & (? & ? & ?) & ?). eauto 10.
Qed.

Lemma tiling_le z L z' : tiling z L z' → z <= z'.
Proof.
  revert z. induction L as [|s L IH]; intros z; simpl; [lia|].
  intros (<- & ? & Ht). apply IH in Ht. lia.
Qed.

Lemma tiling_fun z L z1 z2 : tiling z L z1 → tiling z L z2 → z1 = z2.
Proof.
  revert z. induction L as [|s L IH]; intros z; simpl; [congruence|].
  intros (_ & _ & H1) (_ & _ & H2). eauto.
Qed.

Lemma tiling_elem z L z' s :
  tiling z L z' → s ∈ L → z <= s_bgn s ∧ s_bgn s <= s_end s ∧ s_end s < z'.
Proof.
  revert z. induction L as [|x L IH]; intros z; simpl.
  - intros _ Hin. by apply elem_of_nil in Hin.
  - intros (<- & Hx & Ht) Hin. apply elem_of_cons in Hin as [->|Hin].
    + apply tiling_le in Ht. lia.
    + destruct (IH _ Ht Hin). lia.
Qed.

(** The segments before a position end before it. *)
Lemma tiling_middle z L1 s L2 z' x :
  tiling z (L1 ++ s :: L2) z' → x ∈ L1 → s_end x < s_bgn s.
Proof.
  rewrite tiling_app. intros (w & H1 & H2) Hx. simpl in H2.
  destruct (tiling_elem _ _ _ _ H1 Hx). lia.
Qed.

Lemma tiling_middle_r z L1 s L2 z' x :
  tiling z (L1 ++ s :: L2) z' → x ∈ L2 → s_end s < s_bgn x.
Proof.
  rewrite tiling_app. intros (w & H1 & H2) Hx. simpl in H2.
  destruct H2 as (_ & _ & H2).
  destruct (tiling_elem _ _ _ _ H2 Hx). lia.
Qed.

(** The segment that holds a position. *)
Lemma tiling_locate z L z' k :
  tiling z L z' → z <= k < z' →
  ∃ L1 s L2, L = L1 ++ s :: L2 ∧ s_bgn s <= k <= s_end s ∧
             Forall (λ x, s_end x < k) L1.
Proof.
  revert z. induction L as [|x L IH]; intros z; simpl.
  - lia.
  - intros (<- & Hx & Ht) Hk.
    destruct (decide (k <= s_end x)) as [Hle|Hgt].
    + exists [], x, L. repeat split; [lia|lia|constructor].
    + destruct (IH _ Ht) as (L1 & s & L2 & -> & Hs & H1); [lia|].
      exists (x :: L1), s, L2. repeat split; [lia|lia|].
      constructor; [lia|done].
Qed.

(** Cutting a segment in two keeps a tiling. *)
Lemma tiling_cut z L1 s L2 z' k s1 s2 :
  tiling z (L1 ++ s :: L2) z' →
  1 <= k <= s_end s - s_bgn s →
  s_bgn s1 = s_bgn s → s_end s1 = s_bgn s + k - 1 →
  s_bgn s2 = s_bgn s + k → s_end s2 = s_end s →
  tiling z (L1 ++ s1 :: s2 :: L2) z'.
Proof.
  rewrite !tiling_app. intros (w & H1 & H2) Hk Hb1 He1 Hb2 He2.
  exists w. split; [done|]. simpl in *.
  rewrite Hb1, He1, Hb2, He2. destruct H2 as (? & ? & ?).
  repeat split; try lia. by replace (s_bgn s + k - 1 + 1) with (s_bgn s + k) by lia.
Qed.
End tiling.

(** ** The cut of the children keeps the invariant *)

Lemma elem_of_asplit1 k o2 new c L x :
  x ∈ asplit1 k o2 new c L ↔
  (x ∈ L ∧ s_id x ≠ c) ∨
  (∃ s, s ∈ L ∧ s_id s = c ∧ (x = seg_left k s ∨ x = kid_right o2 new k s)).
Proof.
  unfold asplit1. rewrite list_elem_of_bind. split.
  - intros (s & Hx & Hs). case_bool_decide as Hc.
    + right. exists s. repeat split; [done..|].
      apply elem_of_cons in Hx as [->|Hx]; [by left|].
      apply list_elem_of_singleton in Hx as ->. by right.
    + left. apply list_elem_of_singleton in Hx as ->. done.
  - intros [[Hx Hc]|(s & Hs & Hc & Hx)].
    + exists x. split; [|done]. rewrite bool_decide_eq_false_2 by done. left.
    + exists s. split; [|done]. rewrite bool_decide_eq_true_2 by done.
      destruct Hx as [->| ->]; [left|right; left].
Qed.

Lemma tiling_asplit1 k o2 new c z L z' :
  tiling z L z' →
  (∀ s, s ∈ L → s_id s = c → 1 <= k <= s_end s - s_bgn s) →
  tiling z (asplit1 k o2 new c L) z'.
Proof.
  unfold asplit1. revert z. induction L as [|s L IH]; intros z; [done|].
  intros Ht Hk. rewrite bind_cons. simpl in Ht. destruct Ht as (Hb & He & Ht).
  assert (tiling (s_end s + 1) (L ≫= λ s, if bool_decide (s_id s = c)
            then [seg_left k s; kid_right o2 new k s] else [s]) z') as IH'.
  { apply IH; [done|]. intros s' Hs'. apply Hk. by right. }
  case_bool_decide as Hc; simpl.
  - specialize (Hk s (list_elem_of_here _ _) Hc).
    repeat split; try lia. by replace (s_bgn s + k - 1 + 1) with (s_bgn s + k) by lia.
  - done.
Qed.

Lemma tiling_asplit_kids k o2 cs : ∀ next z L z',
  tiling z L z' →
  NoDup cs → (∀ c, c ∈ cs → (c < next)%nat) →
  (∀ s, s ∈ L → s_id s ∈ cs → 1 <= k <= s_end s - s_bgn s) →
  tiling z (asplit_kids k o2 next cs L) z'.
Proof.
  induction cs as [|c cs IH]; intros next z L z' Ht Hnd Hlt Hk; [done|].
  simpl. apply NoDup_cons in Hnd as [Hc Hnd].
  apply IH; [|done| |].
  - apply tiling_asplit1; [done|]. intros s Hs Hid. apply Hk; [done|]. rewrite Hid. left.
  - intros c' Hc'. assert (c' < next)%nat; [|lia]. apply Hlt. by right.
  - intros s Hs Hin. apply elem_of_asplit1 in Hs as [[Hs Hne]|(s0 & Hs0 & Hid & [->| ->])].
    + apply Hk; [done|]. by right.
    + simpl in Hin. by rewrite Hid in Hin.
    + simpl in Hin. assert (next < next)%nat; [|lia]. apply Hlt. by right.
Qed.

Lemma elem_of_asplit_kids k o2 cs : ∀ next L x,
  NoDup cs → (∀ c, c ∈ cs → (c < next)%nat) →
  x ∈ asplit_kids k o2 next cs L ↔
  (x ∈ L ∧ s_id x ∉ cs) ∨
  (∃ s i, s ∈ L ∧ cs !! i = Some (s_id s) ∧
          (x = seg_left k s ∨ x = kid_right o2 (next + i) k s)).
Proof.
  induction cs as [|c cs IH]; intros next L x Hnd Hlt.
  - simpl. split.
    + intros Hx. left. split; [done|]. apply not_elem_of_nil.
    + intros [[Hx _]|(s & i & _ & Hi & _)]; [done|]. by rewrite lookup_nil in Hi.
  - apply NoDup_cons in Hnd as [Hc Hnd]. simpl.
    assert (∀ c', c' ∈ cs → (c' < S next)%nat) as Hlt'.
    { intros c' Hc'. assert (c' < next)%nat; [|lia]. apply Hlt. by right. }
    assert (next ∉ cs) as Hnext.
    { intros Hin. assert (next < next)%nat; [|lia]. apply Hlt. by right. }
    rewrite (IH (S next) _ x Hnd Hlt'). split.
    + intros [[Hx Hn]|(s & i & Hs & Hi & Hx)].
      * apply elem_of_asplit1 in Hx as [[Hx Hne]|(s0 & Hs0 & Hid & Hx)].
        -- left. split; [done|]. by apply not_elem_of_cons.
        -- right. exists s0, 0%nat. rewrite Nat.add_0_r. simpl. by rewrite Hid.
      * assert (s_id s ∈ cs) as Hin by (eapply list_elem_of_lookup_2; done).
        apply elem_of_asplit1 in Hs as [[Hs Hne]|(s0 & Hs0 & Hid & [->| ->])].
        -- right. exists s, (S i). simpl. by rewrite Nat.add_succ_r.
        -- simpl in Hin. by rewrite Hid in Hin.
        -- done.
    + intros [[Hx Hn]|(s & i & Hs & Hi & Hx)].
      * apply not_elem_of_cons in Hn as [Hne Hn]. left. split; [|done].
        apply elem_of_asplit1. by left.
      * destruct i as [|i]; simpl in Hi.
        -- injection Hi as Hi. rewrite Nat.add_0_r in Hx.
           left. split.
           ++ apply elem_of_asplit1. right. by exists s.
           ++ destruct Hx as [->| ->]; simpl; [by rewrite <- Hi|done].
        -- right. exists s, i. rewrite Nat.add_succ_r in Hx. split; [|done].
           apply elem_of_asplit1. left. split; [done|].
           intros Heq. apply Hc. rewrite <- Heq. eapply list_elem_of_lookup_2; done.
Qed.

Lemma kin_parent_unique Lo Lm s o :
  NoDup (ids Lo) → kin Lo Lm → s ∈ Lm → o ∈ Lo →
  parent (s_ext s) = Some (s_id o) →
  s_id s ∈ children (s_ext o) ∧ s_end s - s_bgn s = s_end o - s_bgn o.
Proof.
  intros Hnd [K1 _] Hs Ho Hp.
  destruct (K1 s Hs) as (o' & Ho' & Hp' & Hc & Hl).
  assert (o' = o) as ->; [|done].
  eapply seg_inj_id; [done..|congruence].
Qed.

Lemma kin_child_unique Lo Lm s o :
  NoDup (ids Lm) → kin Lo Lm → s ∈ Lm → o ∈ Lo →
  s_id s ∈ children (s_ext o) → parent (s_ext s) = Some (s_id o).
Proof.
  intros Hnd [_ K2] Hs Ho Hc.
  destruct (K2 o Ho) as (_ & Hk). destruct (Hk _ Hc) as (s' & Hs' & Hid & Hp).
  assert (s' = s) as ->; [|done].
  eapply seg_inj_id; done.
Qed.

Lemma kin_split A o B Lm k next onext :
  let Lo := A ++ o :: B in
  let cs := children (s_ext o) in
  NoDup (ids Lo) → NoDup (ids Lm) → kin Lo Lm →
  (∀ c, c ∈ cs → (c < next)%nat) →
  kin (A ++ seg_left k o
         :: add_kids (seq next (length cs)) (seg_right (λ _, mkOrgX []) onext k o) :: B)
      (asplit_kids k onext next cs Lm).
Proof.
  intros Lo cs HndO HndM HK Hlt.
  assert (o ∈ Lo) as Ho by (apply elem_of_app; right; left).
  pose proof HK as [K1 K2].
  destruct (K2 o Ho) as [Hndcs Hcs]. fold cs in Hndcs, Hcs.
  assert (∀ o', o' ∈ Lo → o' ≠ o → o' ∈ A ∨ o' ∈ B) as HAB.
  { intros o' Ho' Hne. apply elem_of_app in Ho' as [?|Ho']; [by left|].
    apply elem_of_cons in Ho' as [?|?]; [done|by right]. }
  assert (∀ o', o' ∈ A ∨ o' ∈ B → o' ∈ Lo ∧ o' ≠ o) as HAB'.
  { intros o' Ho'. destruct (NoDup_ids_middle _ _ _ HndO) as (H1 & H2 & _).
    split.
    - apply elem_of_app. destruct Ho'; [by left|right; by right].
    - intros ->. destruct Ho' as [Ho'|Ho']; apply elem_of_ids in Ho'; done. }
  split.
  - intros x Hx. apply elem_of_asplit_kids in Hx; [|done..].
    destruct Hx as [[Hx Hn]|(s & i & Hs & Hi & Hx)].
    + destruct (K1 x Hx) as (o' & Ho' & Hp & Hc & Hl).
      exists o'. split; [|done].
      destruct (HAB o' Ho') as [?|?].
      * intros ->. done.
      * apply elem_of_app. by left.
      * apply elem_of_app. right. by do 2 right.
    + assert (s_id s ∈ cs) as Hin by (eapply list_elem_of_lookup_2; done).
      pose proof (kin_child_unique _ _ _ _ HndM HK Hs Ho Hin) as Hp.
      destruct (kin_parent_unique _ _ _ _ HndO HK Hs Ho Hp) as [_ Hl].
      destruct Hx as [->| ->].
      * exists (seg_left k o). split; [apply elem_of_app; right; left|].
        simpl. repeat split; [done..|lia].
      * eexists. split; [apply elem_of_app; right; right; left|].
        simpl. repeat split; [|lia].
        apply elem_of_seq. apply lookup_lt_Some in Hi. fold cs. lia.
  - intros o' Ho'. apply elem_of_app in Ho' as [Ho'|Ho'];
      [|apply elem_of_cons in Ho' as [->|Ho']; [|apply elem_of_cons in Ho' as [->|Ho']]].
    + destruct (HAB' o' (or_introl Ho')) as [HoL Hne].
      destruct (K2 o' HoL) as [Hnd' Hk']. split; [done|].
      intros c Hc. destruct (Hk' c Hc) as (s & Hs & Hid & Hp).
      exists s. split; [|done]. apply elem_of_asplit_kids; [done..|]. left. split; [done|].
      intros Hin. rewrite Hid in Hin.
      destruct (Hcs c Hin) as (s' & Hs' & Hid' & Hp').
      assert (s' = s) as -> by (eapply seg_inj_id; [done..|congruence]).
      apply Hne. eapply seg_inj_id; [done..|congruence].
    + simpl. split; [done|]. intros c Hc.
      destruct (Hcs c Hc) as (s & Hs & Hid & Hp).
      apply list_elem_of_lookup_1 in Hc as [i Hi].
      exists (seg_left k s). split; [|done].
      apply elem_of_asplit_kids; [done..|]. right. exists s, i. rewrite Hid. by split; [|split; [|left]].
    + simpl. split; [apply NoDup_seq|]. intros c Hc.
      apply elem_of_seq in Hc.
      destruct (lookup_lt_is_Some_2 cs (c - next)%nat) as [c0 Hi]; [lia|].
      destruct (Hcs c0 (list_elem_of_lookup_2 _ _ _ Hi)) as (s & Hs & Hid & Hp).
      exists (kid_right onext c k s). split; [|done].
      apply elem_of_asplit_kids; [done..|]. right. exists s, (c - next)%nat.
      rewrite Hid. split; [done|]. split; [done|]. right. f_equal. lia.
    + destruct (HAB' o' (or_intror Ho')) as [HoL Hne].
      destruct (K2 o' HoL) as [Hnd' Hk']. split; [done|].
      intros c Hc. destruct (Hk' c Hc) as (s & Hs & Hid & Hp).
      exists s. split; [|done]. apply elem_of_asplit_kids; [done..|]. left. split; [done|].
      intros Hin. rewrite Hid in Hin.
      destruct (Hcs c Hin) as (s' & Hs' & Hid' & Hp').
      assert (s' = s) as -> by (eapply seg_inj_id; [done..|congruence]).
      apply Hne. eapply seg_inj_id; [done..|congruence].
Qed.

(** The abstract invariant: both lists tile their range ([0..N-1] for the
    original list, [0..M-1] for the mutated one) and the family links are
    consistent. *)
Record AInv (N M : Z) (Lo : list (Seg OrgX)) (Lm : list (Seg MutX)) : Prop := mkAInv {
  AI_org : tiling 0 Lo N;
  AI_mut : tiling 0 Lm M;
  AI_kin : kin Lo Lm
}.

(** Every segment of [L] is still in [L'], with the same start and the same
    parent and orientation. *)
Definition keeps (L L' : list (Seg MutX)) : Prop :=
  ∀ s, s ∈ L → ∃ s', s' ∈ L' ∧ s_id s' = s_id s ∧ s_bgn s' = s_bgn s ∧ s_ext s' = s_ext s.

Lemma keeps_refl L : keeps L L.
Proof. intros s Hs. by exists s. Qed.

Lemma keeps_trans L1 L2 L3 : keeps L1 L2 → keeps L2 L3 → keeps L1 L3.
Proof.
  intros H12 H23 s Hs. destruct (H12 s Hs) as (s' & Hs' & ? & ? & ?).
  destruct (H23 s' Hs') as (s'' & Hs'' & ? & ? & ?).
  exists s''. repeat split; [done|congruence..].
Qed.

Lemma Rep_mut_lt st Lo Lm s : Rep st Lo Lm → s ∈ Lm → (s_id s < mut_next st)%nat.
Proof.
  intros HR Hs. apply (Rep_mut_next _ _ _ HR).
  destruct (rep_lookup_seg _ _ _ _ (Rep_mut _ _ _ HR) Hs) as (n & Hn & _). eauto.
Qed.

Lemma holds_false_before k (L : list (Seg MutX)) :
  Forall (λ x, s_end x < k) L → Forall (λ x, holds k x = false) L.
Proof.
  intros H. eapply Forall_impl; [exact H|]. intros x Hx. unfold holds. simpl in Hx.
  rewrite (bool_decide_eq_false_2 (k <= s_end x)) by lia. apply andb_false_r.
Qed.

(** [_split] returns on every good profile, and keeps it good. *)
Lemma _split_good N st Lo Lm k :
  Rep st Lo Lm → AInv N (len st) Lo Lm → 0 <= k →
  ∃ st' Lo' Lm', _split k st = Ok st' ∧ Rep st' Lo' Lm' ∧
    AInv N (len st') Lo' Lm' ∧ chrm st' = chrm st ∧ keeps Lm Lm'.
Proof.
  intros HR [HtO HtM HK] Hk0.
  destruct (decide (k = 0 ∨ k >= len st)) as [Hout|Hin].
  { exists st, Lo, Lm. split; [|split; [done|split; [by split|split; [done|apply keeps_refl]]]].
    unfold _split. destruct Hout as [Hout|Hout].
    - by rewrite (bool_decide_eq_true_2 _ Hout).
    - rewrite (bool_decide_eq_true_2 _ Hout). by rewrite orb_true_r. }
  assert (0 < k < len st) as Hk by lia.
  destruct (tiling_locate _ _ _ k HtM) as (L1 & s & L2 & HL & Hs & H1); [lia|].
  apply holds_false_before in H1.
  destruct (decide (s_bgn s = k ∨ s_end s = k)) as [Hedge|Hmid].
  { exists st, Lo, Lm. split; [|split; [done|split; [by split|split; [done|apply keeps_refl]]]].
    eapply _split_Rep_same; [done..| |done].
    unfold holds. by rewrite !bool_decide_eq_true_2 by lia. }
  assert (s ∈ Lm) as HsL by (rewrite HL; apply elem_of_app; right; left).
  pose proof (rep_nodup _ _ _ (Rep_org _ _ _ HR)) as HndO.
  pose proof (rep_nodup _ _ _ (Rep_mut _ _ _ HR)) as HndM.
  destruct (kin_parent _ _ HK s HsL) as (o & Ho & Hp & Hc & Hl).
  destruct (list_elem_of_split _ _ Ho) as (A & B & HLo).
  destruct (kin_children _ _ HK o Ho) as [Hndcs Hcs].
  assert (∀ c, c ∈ children (s_ext o) → c ∈ ids Lm) as Hkids.
  { intros c Hc'. destruct (Hcs c Hc') as (s' & Hs' & <- & _). by apply elem_of_ids. }
  assert (∀ c, c ∈ children (s_ext o) → (c < mut_next st)%nat) as Hlt.
  { intros c Hc'. destruct (Hcs c Hc') as (s' & Hs' & <- & _). by eapply Rep_mut_lt. }
  destruct (_split_Rep_cut st Lo Lm k L1 s L2 A o B) as (st' & Hst' & HR' & Hch);
    [done|done|done|lia|done|done|done|done|].
  eexists st', _, _. split; [done|]. split; [done|]. split; [|split; [done|]].
  - unfold len. rewrite Hch. fold (len st). split.
    + subst Lo. eapply tiling_cut; [done| |done..]. lia.
    + apply tiling_asplit_kids; [done|done|done|].
      intros s' Hs' Hin'.
      pose proof (kin_child_unique _ _ _ _ HndM HK Hs' Ho Hin') as Hp'.
      destruct (kin_parent_unique _ _ _ _ HndO HK Hs' Ho Hp') as [_ Hl']. lia.
    + subst Lo. by apply kin_split.
  - intros s' Hs'.
    destruct (decide (s_id s' ∈ children (s_ext o))) as [Hin'|Hnin].
    + apply list_elem_of_lookup_1 in Hin' as [i Hi].
      exists (seg_left (k - s_bgn s) s'). split; [|done].
      apply elem_of_asplit_kids; [done..|]. right. exists s', i. by split; [|split; [|left]].
    + exists s'. split; [|done]. apply elem_of_asplit_kids; [done..|]. by left.
Qed.

(** [_2split] returns on every good profile, and keeps it good. *)
Lemma _2split_good N st Lo Lm bgn end_ :
  Rep st Lo Lm → AInv N (len st) Lo Lm → 0 <= bgn <= end_ →
  ∃ st' Lo' Lm', _2split bgn end_ st = Ok st' ∧ Rep st' Lo' Lm' ∧
    AInv N (len st') Lo' Lm' ∧ chrm st' = chrm st ∧ keeps Lm Lm'.
Proof.
  intros HR HA Hb. unfold _2split.
  assert (∃ st1 Lo1 Lm1,
    (if bool_decide (bgn > 0) then _split bgn st else Ok st) = Ok st1 ∧
    Rep st1 Lo1 Lm1 ∧ AInv N (len st1) Lo1 Lm1 ∧ chrm st1 = chrm st ∧ keeps Lm Lm1)
    as (st1 & Lo1 & Lm1 & -> & HR1 & HA1 & Hch1 & Hk1).
  { case_bool_decide.
    - apply (_split_good N st Lo Lm); [done|done|lia].
    - exists st, Lo, Lm. split; [done|]. split; [done|]. split; [done|]. split; [done|apply keeps_refl]. }
  simpl.
  assert (∃ st2 Lo2 Lm2,
    (if bool_decide (end_ + 1 < len st) then _split (end_ + 1) st1 else Ok st1) = Ok st2 ∧
    Rep st2 Lo2 Lm2 ∧ AInv N (len st2) Lo2 Lm2 ∧ chrm st2 = chrm st1 ∧ keeps Lm1 Lm2)
    as (st2 & Lo2 & Lm2 & -> & HR2 & HA2 & Hch2 & Hk2).
  { case_bool_decide.
    - apply (_split_good N st1 Lo1 Lm1); [done|done|lia].
    - exists st1, Lo1, Lm1. split; [done|]. split; [done|]. split; [done|]. split; [done|apply keeps_refl]. }
  exists st2, Lo2, Lm2. split; [done|]. split; [done|]. split; [done|].
  split; [congruence|by eapply keeps_trans].
Qed.

(** * The region of an operation *)

(** [region bgn end_ L A mid D]: [mid] is the run of [L] from the first
    segment that starts at [bgn] to the first segment from there on that
    ends at [end_]. *)
Record region {X} (bgn end_ : Z) (L A mid D : list (Seg X)) (sih sit : Seg X) : Prop := mkRegion {
  rg_L : L = A ++ mid ++ D;
  rg_A : Forall (λ s, s_bgn s ≠ bgn) A;
  rg_mid : ∃ C, mid = C ++ [sit] ∧ Forall (λ s, s_end s ≠ end_) C;
  rg_first : head mid = Some sih;
  rg_bgn : s_bgn sih = bgn;
  rg_end : s_end sit = end_
}.

Section region.
Context {X : Type}.
Implicit Types (m : gmap nat (Node X)) (L : list (Seg X)) (s : Seg X).

Lemma Forall_bool_decide_ne {A B} `{EqDecision B} (f : A → B) (b : B) (l : list A) :
  Forall (λ x, bool_decide (f x = b) = false) l ↔ Forall (λ x, f x ≠ b) l.
Proof.
  apply Forall_proper; [|done]. intros x. by rewrite bool_decide_eq_false.
Qed.

(** The two scans that look for the ends of the region. *)
Lemma scan_bgn m hd L bgn :
  rep m hd L →
  (Forall (λ s, s_bgn s ≠ bgn) L ∧
   scan_r (size m) m (λ n, bool_decide (n_bgn n = bgn)) hd = Ok None) ∨
  (∃ A s R, L = A ++ s :: R ∧ Forall (λ s, s_bgn s ≠ bgn) A ∧ s_bgn s = bgn ∧
   scan_r (size m) m (λ n, bool_decide (n_bgn n = bgn)) hd = Ok (Some (s_id s))).
Proof.
  intros Hrep. pose proof (rep_size _ _ _ Hrep) as Hsz.
  destruct Hrep as [Hseg -> Hnd Hdom].
  destruct (first_split (λ s, bool_decide (s_bgn s = bgn)) L)
    as [Hall|(A & s & R & -> & HA & Hs)].
  - left. split; [by apply Forall_bool_decide_ne|].
    eapply (scan_r_none _ (λ s, bool_decide (s_bgn s = bgn))); [done|done|done|lia].
  - right. exists A, s, R. apply bool_decide_eq_true in Hs.
    split; [done|]. split; [by apply Forall_bool_decide_ne|]. split; [done|].
    eapply (scan_r_found _ (λ s, bool_decide (s_bgn s = bgn))); [done|done|done| |].
    + by apply bool_decide_eq_true.
    + rewrite Hsz, length_app. lia.
Qed.

Lemma scan_end m hd A s R end_ :
  rep m hd (A ++ s :: R) →
  (Forall (λ s, s_end s ≠ end_) (s :: R) ∧
   scan_r (size m) m (λ n, bool_decide (n_end n = end_)) (Some (s_id s)) = Ok None) ∨
  (∃ C sit D, s :: R = C ++ sit :: D ∧ Forall (λ s, s_end s ≠ end_) C ∧ s_end sit = end_ ∧
   scan_r (size m) m (λ n, bool_decide (n_end n = end_)) (Some (s_id s))
     = Ok (Some (s_id sit))).
Proof.
  intros Hrep. pose proof (rep_size _ _ _ Hrep) as Hsz.
  destruct Hrep as [Hseg _ Hnd Hdom].
  apply dlseg_app in Hseg as [_ Hseg].
  rewrite length_app in Hsz. simpl in Hsz.
  change (Some (s_id s)) with (first_id (s :: R) None).
  destruct (first_split (λ s, bool_decide (s_end s = end_)) (s :: R))
    as [Hall|(C & sit & D & HR & HC & Hs)].
  - left. split; [by apply Forall_bool_decide_ne|].
    eapply (scan_r_none _ (λ s, bool_decide (s_end s = end_))); [done|done|done|].
    simpl. lia.
  - right. exists C, sit, D. apply bool_decide_eq_true in Hs.
    split; [done|]. split; [by apply Forall_bool_decide_ne|]. split; [done|].
    rewrite HR in Hseg |- *.
    eapply (scan_r_found _ (λ s, bool_decide (s_end s = end_))); [done|done|done| |].
    + by apply bool_decide_eq_true.
    + assert (length (s :: R) = length (C ++ sit :: D)) as Hl by (by rewrite HR).
      rewrite length_app in Hl. simpl in Hl. lia.
Qed.

Lemma region_intro bgn end_ A s R C sit D :
  Forall (λ s, s_bgn s ≠ bgn) A → s_bgn s = bgn →
  s :: R = C ++ sit :: D → Forall (λ s, s_end s ≠ end_) C → s_end sit = end_ →
  region bgn end_ (A ++ s :: R) A (C ++ [sit]) D s sit.
Proof.
  intros HA Hs HR HC Hsit. split; try done.
  - rewrite HR. by rewrite <- app_assoc.
  - by exists C.
  - destruct C as [|c C]; simpl in *; congruence.
Qed.

Lemma region_nodup bgn end_ L A mid D sih sit :
  region bgn end_ L A mid D sih sit → NoDup (ids L) →
  NoDup (ids A) ∧ NoDup (ids mid) ∧ NoDup (ids D) ∧
  (∀ h, h ∈ ids A → h ∉ ids mid) ∧ (∀ h, h ∈ ids A → h ∉ ids D) ∧
  (∀ h, h ∈ ids mid → h ∉ ids D).
Proof.
  intros [-> _ _ _ _ _]. rewrite !ids_app.
  intros (HA & HAmD & HmD)%NoDup_app. apply NoDup_app in HmD as (Hm & HmD & HD).
  repeat split; try done.
  - intros h Hh Hm'. apply (HAmD h Hh). apply elem_of_app. by left.
  - intros h Hh HD'. apply (HAmD h Hh). apply elem_of_app. by right.
Qed.

Lemma region_ends bgn end_ L A mid D sih sit :
  region bgn end_ L A mid D sih sit →
  first_id mid None = Some (s_id sih) ∧ last_id mid None = Some (s_id sit) ∧
  sih ∈ mid ∧ sit ∈ mid.
Proof.
  intros [_ _ (C & -> & _) Hf _ _]. repeat split.
  - destruct C; simpl in *; congruence.
  - apply last_id_snoc.
  - destruct C; simpl in *; injection Hf as <-; left.
  - apply elem_of_app. right. left.
Qed.
End region.

(** * Relinking *)

Section relink.
Context {X : Type}.
Implicit Types (m : gmap nat (Node X)) (L : list (Seg X)) (s : Seg X).

Lemma first_id_fmap_id (f : Seg X → Seg X) L d :
  (∀ s, s_id (f s) = s_id s) → first_id (f <$> L) d = first_id L d.
Proof. intros Hf. destruct L; simpl; [done|]. by rewrite Hf. Qed.

Lemma ids_fmap_id (f : Seg X → Seg X) L :
  (∀ s, s_id (f s) = s_id s) → ids (f <$> L) = ids L.
Proof.
  intros Hf. unfold ids. rewrite <- list_fmap_compose.
  apply list_fmap_ext. intros _ s _. apply Hf.
Qed.

Lemma ids_reverse L : ids (reverse L) = reverse (ids L).
Proof. apply fmap_reverse. Qed.

(** [first.l = p'] *)
Lemma dlseg_set_first m p p' s t n :
  dlseg m p (s :: t) n → s_id s ∉ ids t →
  dlseg (alter (set_l p') (s_id s) m) p' (s :: t) n.
Proof.
  simpl. intros [Hs Ht] Hn. split.
  - lk. by rewrite Hs.
  - eapply dlseg_frame; [|done]. intros h Hh.
    assert (h ≠ s_id s) by (intros ->; done). by lk.
Qed.

(** [last.r = n'] *)
Lemma dlseg_set_last m p t s n n' :
  dlseg m p (t ++ [s]) n → s_id s ∉ ids t →
  dlseg (alter (set_r n') (s_id s) m) p (t ++ [s]) n'.
Proof.
  rewrite !dlseg_app. simpl. intros (Ht & Hs & _) Hn. split; [|split; [|done]].
  - eapply dlseg_frame; [|done]. intros h Hh.
    assert (h ≠ s_id s) by (intros ->; done). by lk.
  - lk. by rewrite Hs.
Qed.

(** The same, when the list may be empty: [if x != None: x.l = p']. *)
Lemma dlseg_set_first_opt m p p' L n :
  dlseg m p L n → NoDup (ids L) →
  dlseg (match first_id L None with
         | Some x => alter (set_l p') x m
         | None => m
         end) p' L n.
Proof.
  destruct L as [|s t]; [done|]. intros Hseg Hnd. simpl first_id. cbv iota.
  apply (dlseg_set_first m p); [done|]. by apply NoDup_cons in Hnd as [? _].
Qed.

Lemma dlseg_set_last_opt m p L n n' :
  dlseg m p L n → NoDup (ids L) →
  dlseg (match last_id L None with
         | Some x => alter (set_r n') x m
         | None => m
         end) p L n'.
Proof.
  destruct L as [|s t _] using rev_ind; [done|]. intros Hseg Hnd.
  rewrite last_id_snoc. apply (dlseg_set_last m p _ _ n); [done|].
  rewrite ids_app in Hnd. apply NoDup_app in Hnd as (_ & Hd & _).
  intros Hin. apply (Hd _ Hin). left.
Qed.
End relink.

(** ** Shifting and flipping a run of segments *)

Definition shift_seg {X} (d : Z) (s : Seg X) : Seg X :=
  mkSeg (s_id s) (s_bgn s + d) (s_end s + d) (s_ext s).

(** The segment after the inversion of the region [[rgbgn, rgend]]. *)
Definition flip_seg (rgbgn rgend : Z) (s : Seg MutX) : Seg MutX :=
  let d := _get_inv_pos_diff rgbgn rgend (s_bgn s) (s_end s) in
  mkSeg (s_id s) (s_bgn s + d) (s_end s + d)
    (mkMutX (parent (s_ext s)) (negb (is_inv (s_ext s)))).

Lemma shift_loop_spec d L : ∀ fuel m p,
  dlseg m p L None → NoDup (ids L) → (length L ≤ fuel)%nat →
  ∃ m', shift_loop fuel d (first_id L None) m = Ok m' ∧
        dlseg m' p (shift_seg d <$> L) None ∧
        (∀ h, h ∉ ids L → m' !! h = m !! h).
Proof.
  induction L as [|s t IH]; intros fuel m p Hseg Hnd Hf.
  - exists m. by destruct fuel.
  - simpl in Hseg. destruct Hseg as [Hs Ht].
    apply NoDup_cons in Hnd as [Hn Hnd].
    destruct fuel as [|fuel]; [simpl in Hf; lia|].
    simpl. rewrite (rd_Some _ _ _ Hs). simpl.
    destruct (IH fuel (<[s_id s := shift d (cell p (first_id t None) s)]> m) (Some (s_id s)))
      as (m' & Hm' & Hseg' & Hout); [|done|simpl in Hf; lia|].
    { eapply dlseg_frame; [|done]. intros h Hh.
      assert (h ≠ s_id s) by (intros ->; done). by lk. }
    exists m'. split; [done|]. split; [split; [|done]|].
    + rewrite Hout by done. lk.
      by rewrite (first_id_fmap_id (shift_seg d)).
    + intros h Hh. apply not_elem_of_cons in Hh as [Hne Hh].
      rewrite Hout by done. by lk.
Qed.

Lemma rev_loop_spec rb re ot L : ∀ fuel m p,
  dlseg m p L ot → NoDup (ids L) → (∀ h, ot = Some h → h ∉ ids L) →
  (length L ≤ fuel)%nat →
  ∃ m', rev_loop fuel rb re ot (first_id L ot) m = Ok m' ∧
        dlseg m' ot (reverse (flip_seg rb re <$> L)) p ∧
        (∀ h, h ∉ ids L → m' !! h = m !! h).
Proof.
  induction L as [|s t IH]; intros fuel m p Hseg Hnd Hot Hf.
  - exists m. simpl. destruct fuel; simpl; by rewrite bool_decide_eq_true_2.
  - simpl in Hseg. destruct Hseg as [Hs Ht].
    apply NoDup_cons in Hnd as [Hn Hnd].
    destruct fuel as [|fuel]; [simpl in Hf; lia|].
    simpl. rewrite bool_decide_eq_false_2.
    2:{ intros Heq. symmetry in Heq. apply (Hot _ Heq). left. }
    rewrite (rd_Some _ _ _ Hs). simpl.
    destruct (IH fuel (<[s_id s := flip rb re (cell p (first_id t ot) s)]> m) (Some (s_id s)))
      as (m' & Hm' & Hseg' & Hout); [|done| |simpl in Hf; lia|].
    { eapply dlseg_frame; [|done]. intros h Hh.
      assert (h ≠ s_id s) by (intros ->; done). by lk. }
    { intros h Hh Hin. apply (Hot _ Hh). by right. }
    exists m'. split; [done|]. split.
    + rewrite reverse_cons. apply dlseg_app. split; [done|]. simpl. split; [|done].
      rewrite Hout by done. lk. f_equal.
      rewrite last_id_reverse. by rewrite (first_id_fmap_id (flip_seg rb re)).
    + intros h Hh. apply not_elem_of_cons in Hh as [Hne Hh].
      rewrite Hout by done. by lk.
Qed.

(** No region: no segment starts at [bgn], or none ends at [end_] from the
    first one that starts at [bgn] on. *)
Definition no_region {X} (bgn end_ : Z) (L : list (Seg X)) : Prop :=
  Forall (λ s, s_bgn s ≠ bgn) L ∨
  ∃ A s R, L = A ++ s :: R ∧ Forall (λ s, s_bgn s ≠ bgn) A ∧ s_bgn s = bgn ∧
           Forall (λ s, s_end s ≠ end_) (s :: R).

Section find_region.
Context {X : Type}.
Implicit Types (m : gmap nat (Node X)) (L : list (Seg X)) (s : Seg X).

Lemma region_cells m hd bgn end_ L A mid D sih sit :
  rep m hd L → region bgn end_ L A mid D sih sit →
  (∃ n, m !! s_id sih = Some (cell (last_id A None) n sih)) ∧
  (∃ p, m !! s_id sit = Some (cell p (first_id D None) sit)) ∧
  dlseg m None A (Some (s_id sih)) ∧
  dlseg m (last_id A None) mid (first_id D None) ∧
  dlseg m (Some (s_id sit)) D None.
Proof.
  intros [Hseg _ _ _] Hrg.
  destruct (region_ends _ _ _ _ _ _ _ _ Hrg) as (Hf & Hl & _ & _).
  destruct Hrg as [-> _ (C & Hmid & _) Hh _ _].
  apply dlseg_app in Hseg as [HA Hseg]. apply dlseg_app in Hseg as [Hm HD].
  rewrite first_id_app, (first_id_Some _ _ _ Hf) in HA.
  rewrite (last_id_Some _ _ _ Hl) in HD.
  repeat split; try done.
  - destruct mid as [|x t]; [done|]. simpl in Hh. injection Hh as ->.
    simpl in Hm. destruct Hm as [Hx _]. eauto.
  - rewrite Hmid in Hm. apply dlseg_app in Hm as [_ Hm]. simpl in Hm.
    destruct Hm as [Hx _]. eauto.
Qed.

Lemma scan_region m hd L bgn end_ :
  rep m hd L →
  let r1 := scan_r (size m) m (λ n, bool_decide (n_bgn n = bgn)) hd in
  let r2 := λ h, scan_r (size m) m (λ n, bool_decide (n_end n = end_)) (Some h) in
  (no_region bgn end_ L ∧
   (r1 = Ok None ∨
    ∃ s, r1 = Ok (Some (s_id s)) ∧ (∃ p n, m !! s_id s = Some (cell p n s)) ∧
         r2 (s_id s) = Ok None)) ∨
  (∃ A mid D sih sit, region bgn end_ L A mid D sih sit ∧
     r1 = Ok (Some (s_id sih)) ∧ r2 (s_id sih) = Ok (Some (s_id sit))).
Proof.
  intros Hrep r1 r2.
  destruct (scan_bgn m hd L bgn Hrep) as [[Hall H1]|(A & s & R & -> & HA & Hs & H1)].
  { left. split; [by left|by left]. }
  destruct (scan_end m hd A s R end_ Hrep) as [[Hall H2]|(C & sit & D & HR & HC & Hsit & H2)].
  - left. split; [right; by exists A, s, R|]. right. exists s. split; [done|]. split; [|done].
    pose proof (dlseg_middle _ _ _ _ _ _ (rep_seg _ _ _ Hrep)). eauto.
  - right. exists A, (C ++ [sit]), D, s, sit. split; [|done].
    by apply region_intro.
Qed.
End find_region.

(** [if o != None: o.f = v] away from the cell that is read. *)
Lemma lookup_alter_opt {X} (o : option nat) (f : Node X → Node X) (m : gmap nat (Node X)) h :
  (∀ x, o = Some x → x ≠ h) →
  match o with Some x => alter f x m | None => m end !! h = m !! h.
Proof. destruct o as [x|]; [|done]. intros Hne. apply lookup_alter_ne. by apply Hne. Qed.

Lemma is_Some_alter_opt {X} (o : option nat) (f : Node X → Node X) (m : gmap nat (Node X)) h :
  is_Some (match o with Some x => alter f x m | None => m end !! h) ↔ is_Some (m !! h).
Proof. destruct o as [x|]; [|done]. apply lookup_alter_is_Some. Qed.

(** ** [_rev_mut] on sequences *)

Lemma _rev_mut_Rep st Lo Lm bgn end_ :
  Rep st Lo Lm →
  (no_region bgn end_ Lm ∧ _rev_mut bgn end_ st = Raise AttributeError) ∨
  (∃ A mid D sih sit st',
     region bgn end_ Lm A mid D sih sit ∧
     _rev_mut bgn end_ st = Ok st' ∧
     Rep st' Lo (A ++ reverse (flip_seg bgn end_ <$> mid) ++ D) ∧
     chrm st' = chrm st ∧ orgs st' = orgs st ∧ org st' = org st ∧
     org_next st' = org_next st ∧ mut_next st' = mut_next st).
Proof.
  intros HR. pose proof HR as [HRo HRm Hon Hmn].
  unfold _rev_mut.
  destruct (scan_region _ _ _ bgn end_ HRm) as [[Hno Hsc]|(A & mid & D & sih & sit & Hrg & H1 & H2)].
  { left. split; [done|].
    destruct Hsc as [-> |(s & -> & (p & n & Hs) & H2)]; [done|].
    simpl. rewrite (rd_Some _ _ _ Hs). simpl. by rewrite H2. }
  right. exists A, mid, D, sih, sit.
  destruct (region_cells _ _ _ _ _ _ _ _ _ _ HRm Hrg) as ((n & Hih) & (p & Hit) & HsA & Hsm & HsD).
  destruct (region_ends _ _ _ _ _ _ _ _ Hrg) as (Hf & Hl & Hihm & Hitm).
  destruct (region_nodup _ _ _ _ _ _ _ _ Hrg (rep_nodup _ _ _ HRm))
    as (HndA & Hndm & HndD & HAm & HAD & HmD).
  pose proof (rg_bgn _ _ _ _ _ _ _ _ Hrg) as Hbgn.
  pose proof (rg_end _ _ _ _ _ _ _ _ Hrg) as Hend.
  pose proof (rg_L _ _ _ _ _ _ _ _ Hrg) as HL.
  rewrite H1. simpl. rewrite (rd_Some _ _ _ Hih). simpl. rewrite H2. simpl.
  rewrite (rd_Some _ _ _ Hit). simpl. rewrite Hbgn, Hend.
  set (oh := last_id A None) in *. set (ot := first_id D None) in *.
  assert (∀ x, oh = Some x → x ∈ ids A) as Hoh by (intros x; apply last_id_in).
  assert (∀ x, ot = Some x → x ∈ ids D) as Hot by (intros x; apply first_id_in).
  destruct (rev_loop_spec bgn end_ ot mid (size (muts st)) (muts st) oh)
    as (m1 & Hm1 & Hseg1 & Hout1); [done|done| | |].
  { intros h Hh Hin. apply (HmD _ Hin). by apply Hot. }
  { rewrite (rep_size _ _ _ HRm), HL, !length_app. lia. }
  rewrite (first_id_Some _ ot _ Hf) in Hm1. rewrite Hm1. simpl.
  set (mid' := reverse (flip_seg bgn end_ <$> mid)) in *.
  assert (ids mid' = reverse (ids mid)) as Hids'.
  { unfold mid'. by rewrite ids_reverse, (ids_fmap_id (flip_seg bgn end_)). }
  assert (∀ h, h ∈ ids mid' ↔ h ∈ ids mid) as Hin'.
  { intros h. rewrite Hids'. apply elem_of_reverse. }
  assert (NoDup (ids mid')) as Hndm' by (by rewrite Hids', reverse_Permutation).
  assert (first_id mid' None = Some (s_id sit)) as Hf1.
  { unfold mid'. by rewrite first_id_reverse, <- Hl, (last_id_fmap_id (flip_seg bgn end_)). }
  assert (last_id mid' None = Some (s_id sih)) as Hl1.
  { unfold mid'. by rewrite last_id_reverse, <- Hf, (first_id_fmap_id (flip_seg bgn end_)). }
  assert (s_id sih ∈ ids mid) as Hihi by (by apply elem_of_ids).
  assert (s_id sit ∈ ids mid) as Hiti by (by apply elem_of_ids).
  set (m2 := alter (set_l oh) (s_id sit) m1).
  set (m3 := alter (set_r ot) (s_id sih) m2).
  set (m4 := match oh with Some x => alter (set_r (Some (s_id sit))) x m3 | None => m3 end).
  set (m5 := match ot with Some x => alter (set_l (Some (s_id sih))) x m4 | None => m4 end).
  assert (∀ h, h ∉ ids mid → m3 !! h = muts st !! h) as F3.
  { intros h Hh. unfold m3, m2.
    assert (h ≠ s_id sih) by (intros ->; done).
    assert (h ≠ s_id sit) by (intros ->; done).
    lk. by apply Hout1. }
  assert (∀ h, h ∉ ids A → m4 !! h = m3 !! h) as F4.
  { intros h Hh. apply lookup_alter_opt. intros x Hx ->. apply Hh. by apply Hoh. }
  assert (∀ h, h ∉ ids D → m5 !! h = m4 !! h) as F5.
  { intros h Hh. apply lookup_alter_opt. intros x Hx ->. apply Hh. by apply Hot. }
  assert (dlseg m3 oh mid' ot) as Hmid3.
  { pose proof (dlseg_set_first_opt _ _ oh _ _ Hseg1 Hndm') as HS2.
    rewrite Hf1 in HS2.
    pose proof (dlseg_set_last_opt _ _ _ _ ot HS2 Hndm') as HS3.
    by rewrite Hl1 in HS3. }
  assert (dlseg m5 oh mid' ot) as Hmid5.
  { eapply dlseg_frame; [|exact Hmid3]. intros h Hh. apply Hin' in Hh.
    rewrite F5, F4; [done| |].
    - intros HA'. by apply (HAm _ HA').
    - by apply HmD. }
  assert (dlseg m5 None A (Some (s_id sit))) as HA5.
  { assert (dlseg m3 None A (Some (s_id sih))) as HA3.
    { eapply dlseg_frame; [|exact HsA]. intros h Hh. apply F3. by apply HAm. }
    pose proof (dlseg_set_last_opt _ _ _ _ (Some (s_id sit)) HA3 HndA) as HA4.
    eapply dlseg_frame; [|exact HA4]. intros h Hh. apply F5. by apply HAD. }
  assert (dlseg m5 (Some (s_id sih)) D None) as HD5.
  { assert (dlseg m4 (Some (s_id sit)) D None) as HD4.
    { eapply dlseg_frame; [|exact HsD]. intros h Hh.
      rewrite F4, F3; [done| |].
      - intros Hm. by apply (HmD _ Hm).
      - intros HA'. by apply (HAD _ HA'). }
    exact (dlseg_set_first_opt _ _ (Some (s_id sih)) _ _ HD4 HndD). }
  eexists. split; [done|]. split; [reflexivity|]. split; [|by case_bool_decide].
  assert (rep m5 (if bool_decide (oh = None) then Some (s_id sit) else mut st)
            (A ++ mid' ++ D)) as Hrep5.
  { split.
    - apply dlseg_app. split.
      + by rewrite first_id_app, (first_id_Some _ _ _ Hf1).
      + apply dlseg_app. split; [done|]. by rewrite (last_id_Some _ _ _ Hl1).
    - rewrite (rep_hd _ _ _ HRm), HL. unfold oh. destruct A as [|a A] using rev_ind.
      + simpl. by rewrite first_id_app, (first_id_Some _ _ _ Hf1).
      + rewrite last_id_snoc. rewrite bool_decide_eq_false_2 by done.
        rewrite <- !app_assoc. by destruct A.
    - pose proof (rep_nodup _ _ _ HRm) as Hnd. rewrite HL in Hnd.
      revert Hnd. rewrite !ids_app, Hids'. by rewrite reverse_Permutation.
    - intros h Hh. rewrite !ids_app, !elem_of_app, Hin'.
      destruct (decide (h ∈ ids mid)) as [?|Hn]; [by right; left|].
      assert (is_Some (muts st !! h)) as Hm.
      { rewrite <- (F3 h Hn). unfold m5, m4 in Hh.
        by rewrite !is_Some_alter_opt in Hh. }
      apply (rep_dom _ _ _ HRm) in Hm. rewrite HL, !ids_app, !elem_of_app in Hm. done. }
  assert (∀ h, is_Some (m5 !! h) → (h < mut_next st)%nat) as Hmn5.
  { intros h Hh. destruct (decide (h ∈ ids mid)) as [Hm|Hn].
    - apply list_elem_of_fmap in Hm as (s & -> & Hs). eapply Rep_mut_lt; [done|].
      rewrite HL. apply elem_of_app. right. apply elem_of_app. by left.
    - apply Hmn. rewrite <- (F3 h Hn). unfold m5, m4 in Hh.
      by rewrite !is_Some_alter_opt in Hh. }
  case_bool_decide; by split.
Qed.

(** * Positions under an inversion *)

(** The change of position computed by [_get_inv_pos_diff] mirrors the
    segment in the region, whatever the parities of the two lengths. *)
Lemma _get_inv_pos_diff_mirror rgbgn rgend sgbgn sgend :
  _get_inv_pos_diff rgbgn rgend sgbgn sgend = rgbgn + rgend - sgend - sgbgn.
Proof.
  unfold _get_inv_pos_diff.
  set (rglen := rgend - rgbgn + 1).
  pose proof (Z.div_mod rglen 2 ltac:(lia)) as Hdm.
  pose proof (Z.mod_pos_bound rglen 2 ltac:(lia)) as Hmb.
  case_bool_decide as Hpar.
  - assert ((rglen + 1) `div` 2 = rglen `div` 2) as ->.
    { symmetry. apply (Z.div_unique (rglen + 1) 2 _ 1); lia. }
    lia.
  - assert ((rglen + 1) `div` 2 = rglen `div` 2 + 1) as ->.
    { symmetry. apply (Z.div_unique (rglen + 1) 2 _ 0); lia. }
    lia.
Qed.

Lemma flip_seg_id rb re s : s_id (flip_seg rb re s) = s_id s.
Proof. done. Qed.

Lemma flip_seg_parent rb re s : parent (s_ext (flip_seg rb re s)) = parent (s_ext s).
Proof. done. Qed.

Lemma flip_seg_is_inv rb re s : is_inv (s_ext (flip_seg rb re s)) = negb (is_inv (s_ext s)).
Proof. done. Qed.

Lemma flip_seg_bgn rb re s : s_bgn (flip_seg rb re s) = rb + re - s_end s.
Proof. unfold flip_seg. simpl. rewrite _get_inv_pos_diff_mirror. lia. Qed.

Lemma flip_seg_end rb re s : s_end (flip_seg rb re s) = rb + re - s_bgn s.
Proof. unfold flip_seg. simpl. rewrite _get_inv_pos_diff_mirror. lia. Qed.

#[local] Arguments flip_seg : simpl never.

Lemma tiling_flip rb re (L : list (Seg MutX)) : ∀ z z',
  tiling z L z' →
  tiling (rb + re - z' + 1) (reverse (flip_seg rb re <$> L)) (rb + re - z + 1).
Proof.
  induction L as [|s L IH]; intros z z'; simpl.
  - intros ->. done.
  - intros (Hb & He & Ht). rewrite reverse_cons. apply tiling_app.
    exists (rb + re - (s_end s + 1) + 1). split; [by apply IH|].
    cbv [tiling]. rewrite flip_seg_bgn, flip_seg_end. lia.
Qed.

(** The region of a tiled list is tiled from [bgn] to [end_]. *)
Lemma region_tiling {X} bgn end_ z (L A mid D : list (Seg X)) sih sit z' :
  region bgn end_ L A mid D sih sit → tiling z L z' →
  tiling z A bgn ∧ tiling bgn mid (end_ + 1) ∧ tiling (end_ + 1) D z'.
Proof.
  intros [-> _ (C & Hmid & _) Hh Hb He] Ht.
  apply tiling_app in Ht as (w & HA & Ht). apply tiling_app in Ht as (w' & Hm & HD).
  assert (w = bgn) as ->.
  { destruct mid as [|x t]; [done|]. simpl in *. injection Hh as ->. lia. }
  assert (w' = end_ + 1) as ->.
  { rewrite Hmid in Hm. apply tiling_app in Hm as (v & _ & Hm). simpl in Hm. lia. }
  done.
Qed.

(** ** Families under a change of the mutated list *)

Lemma kin_similar Lo Lm Lm' :
  kin Lo Lm →
  (∀ s', s' ∈ Lm' → ∃ s, s ∈ Lm ∧ s_id s' = s_id s ∧
     parent (s_ext s') = parent (s_ext s) ∧ s_end s' - s_bgn s' = s_end s - s_bgn s) →
  (∀ s, s ∈ Lm → ∃ s', s' ∈ Lm' ∧ s_id s' = s_id s ∧
     parent (s_ext s') = parent (s_ext s)) →
  kin Lo Lm'.
Proof.
  intros [K1 K2] Hback Hforth. split.
  - intros s' Hs'. destruct (Hback s' Hs') as (s & Hs & Hid & Hp & Hl).
    destruct (K1 s Hs) as (o & Ho & Hpo & Hc & Hlo).
    exists o. rewrite Hid, Hp, Hl. done.
  - intros o Ho. destruct (K2 o Ho) as [Hnd Hk]. split; [done|].
    intros c Hc. destruct (Hk c Hc) as (s & Hs & Hid & Hp).
    destruct (Hforth s Hs) as (s' & Hs' & Hid' & Hp').
    exists s'. split; [done|]. split; congruence.
Qed.

Lemma inv_AInv N M Lo bgn end_ (Lm A mid D : list (Seg MutX)) sih sit :
  region bgn end_ Lm A mid D sih sit → AInv N M Lo Lm →
  AInv N M Lo (A ++ reverse (flip_seg bgn end_ <$> mid) ++ D).
Proof.
  intros Hrg [HtO HtM HK].
  destruct (region_tiling _ _ _ _ _ _ _ _ _ _ Hrg HtM) as (HtA & Htm & HtD).
  pose proof (rg_L _ _ _ _ _ _ _ _ Hrg) as HL.
  split; [done| |].
  - apply tiling_app. exists bgn. split; [done|].
    apply tiling_app. exists (end_ + 1). split; [|done].
    apply (tiling_flip bgn end_) in Htm.
    by replace (bgn + end_ - (end_ + 1) + 1) with bgn in Htm by lia;
       replace (bgn + end_ - bgn + 1) with (end_ + 1) in Htm by lia.
  - eapply kin_similar; [done| |]; subst Lm.
    + intros s' Hs'. rewrite !elem_of_app, elem_of_reverse, list_elem_of_fmap in Hs'.
      destruct Hs' as [?|[(s & -> & ?)|?]].
      * exists s'. rewrite !elem_of_app. tauto.
      * exists s. rewrite !elem_of_app, flip_seg_bgn, flip_seg_end.
        split; [tauto|]. repeat split. lia.
      * exists s'. rewrite !elem_of_app. tauto.
    + intros s. rewrite !elem_of_app. intros [?|[?|?]].
      * exists s. rewrite !elem_of_app. tauto.
      * exists (flip_seg bgn end_ s).
        rewrite !elem_of_app, elem_of_reverse, list_elem_of_fmap. split; [|done].
        right. left. by exists s.
      * exists s. rewrite !elem_of_app. tauto.
Qed.

(** * The guards *)

Lemma scan_first {X} (m : gmap nat (Node X)) hd L stop (g : Seg X → bool) :
  rep m hd L → (∀ p n s, stop (cell p n s) = g s) →
  ∃ r, scan_r (size m) m stop hd = Ok r ∧
       (is_Some r ↔ ∃ s, s ∈ L ∧ g s = true).
Proof.
  intros Hrep Hstop. pose proof (rep_size _ _ _ Hrep) as Hsz.
  destruct Hrep as [Hseg -> Hnd Hdom].
  destruct (first_split g L) as [Hall|(A & s & R & -> & HA & Hs)].
  - exists None. split.
    + eapply scan_r_none; [done|done|done|lia].
    + split; [by intros [? ?]|]. intros (s & Hs & Hg).
      rewrite Forall_forall in Hall. rewrite (Hall _ Hs) in Hg. done.
  - exists (Some (s_id s)). split.
    + eapply scan_r_found; [done|done|done|done|]. rewrite Hsz, length_app. lia.
    + split; [|eauto]. intros _. exists s. split; [|done]. apply elem_of_app. right. left.
Qed.

(** The bounds of the region are new: [bgn] starts no segment unless it is
    [0], and [end_] ends none unless it is the last position. *)
Definition splitable (bgn end_ M : Z) (Lm : list (Seg MutX)) : Prop :=
  (bgn = 0 ∨ ∀ s, s ∈ Lm → s_bgn s ≠ bgn) ∧
  (¬ end_ + 1 < M ∨ ∀ s, s ∈ Lm → s_end s ≠ end_).

Lemma _is_splitable_spec st Lo Lm bgn end_ :
  Rep st Lo Lm →
  ∃ b, _is_splitable bgn end_ st = Ok b ∧ (b = true ↔ splitable bgn end_ (len st) Lm).
Proof.
  intros HR. pose proof (Rep_mut _ _ _ HR) as HRm. unfold _is_splitable, splitable.
  destruct (scan_first _ _ _ (λ n, bool_decide (bgn = n_bgn n))
              (λ s, bool_decide (bgn = s_bgn s)) HRm) as (r1 & Hr1 & Hi1); [done|].
  destruct (scan_first _ _ _ (λ n, bool_decide (end_ = n_end n))
              (λ s, bool_decide (end_ = s_end s)) HRm) as (r2 & Hr2 & Hi2); [done|].
  unfold _is_already_mut_bgn, _is_already_mut_end. rewrite Hr1, Hr2. simpl.
  assert (match r1 with Some _ => ¬ (∀ s, s ∈ Lm → s_bgn s ≠ bgn) | None => ∀ s, s ∈ Lm → s_bgn s ≠ bgn end) as H1.
  { destruct r1 as [h|].
    - destruct (proj1 Hi1) as (s & Hs & Hg); [by eexists|].
      apply bool_decide_eq_true in Hg. intros Hall. by apply (Hall s).
    - intros s Hs Hg. destruct (proj2 Hi1) as [? ?]; [|done].
      exists s. split; [done|]. by apply bool_decide_eq_true. }
  assert (match r2 with Some _ => ¬ (∀ s, s ∈ Lm → s_end s ≠ end_) | None => ∀ s, s ∈ Lm → s_end s ≠ end_ end) as H2.
  { destruct r2 as [h|].
    - destruct (proj1 Hi2) as (s & Hs & Hg); [by eexists|].
      apply bool_decide_eq_true in Hg. intros Hall. by apply (Hall s).
    - intros s Hs Hg. destruct (proj2 Hi2) as [? ?]; [|done].
      exists s. split; [done|]. by apply bool_decide_eq_true. }
  clear Hi1 Hi2 Hr1 Hr2.
  destruct (decide (bgn = 0)) as [Hb|Hb];
    [rewrite (bool_decide_eq_false_2 (bgn ≠ 0)) by (intros ?; done)
    |rewrite (bool_decide_eq_true_2 (bgn ≠ 0)) by done];
  (destruct (decide (end_ + 1 < len st)) as [He|He];
    [rewrite (bool_decide_eq_true_2 (end_ + 1 < len st)) by done
    |rewrite (bool_decide_eq_false_2 (end_ + 1 < len st)) by done]);
  destruct r1 as [h1|], r2 as [h2|]; simpl;
  (eexists; split; [reflexivity|]); split; (done || tauto).
Qed.

Lemma _is_in_bounds_spec bgn end_ st :
  _is_in_bounds bgn end_ st = true ↔ 0 <= bgn <= end_ ∧ end_ < len st.
Proof.
  unfold _is_in_bounds. repeat case_bool_decide; simpl; split; (done || lia).
Qed.

(** A call is rejected when the bounds are out of the sequence or not new. *)
Lemma rejected_spec st Lo Lm bgn end_ :
  Rep st Lo Lm →
  ∃ b, rejected bgn end_ st = Ok b ∧
       (b = false ↔ (0 <= bgn <= end_ ∧ end_ < len st) ∧ splitable bgn end_ (len st) Lm).
Proof.
  intros HR. unfold rejected.
  destruct (_is_in_bounds bgn end_ st) eqn:Hb; simpl.
  - destruct (_is_splitable_spec _ _ _ bgn end_ HR) as (b & -> & Hs). simpl.
    exists (negb b). split; [done|]. apply _is_in_bounds_spec in Hb.
    rewrite <- Hs. destruct b; simpl; split; (done || tauto || (intros [_ ?]; done)).
  - exists true. split; [done|]. split; [done|]. intros [Hin _].
    apply _is_in_bounds_spec in Hin. congruence.
Qed.

(** ** The string *)

Lemma py_index_in n k : 0 <= k <= n → py_index n k = Z.to_nat k.
Proof.
  intros Hk. unfold py_index. rewrite (proj2 (Z.ltb_ge _ _)) by lia.
  by rewrite Z.min_l by lia.
Qed.

Lemma tri_split_str_in_bounds (s : list ascii) bgn end_ :
  0 <= bgn <= end_ → end_ < Z.of_nat (length s) →
  tri_split_str s bgn end_ =
  (take (Z.to_nat bgn) s,
   take (Z.to_nat (end_ - bgn + 1)) (drop (Z.to_nat bgn) s),
   drop (Z.to_nat (end_ + 1)) s).
Proof.
  intros Hb He. unfold tri_split_str, py_slice.
  rewrite (py_index_in _ 0), (py_index_in _ bgn), (py_index_in _ (end_ + 1)),
    (py_index_in _ (Z.of_nat (length s))) by lia.
  change (Z.to_nat 0) with 0%nat. rewrite drop_0, Nat.sub_0_r.
  rewrite Nat2Z.id.
  replace (Z.to_nat (end_ + 1) - Z.to_nat bgn)%nat with (Z.to_nat (end_ - bgn + 1)) by lia.
  replace (length s - Z.to_nat (end_ + 1))%nat with (length (drop (Z.to_nat (end_ + 1)) s))
    by (rewrite length_drop; lia).
  by rewrite firstn_all.
Qed.

Lemma tri_split_str_parts (s : list ascii) bgn end_ :
  0 <= bgn <= end_ → end_ < Z.of_nat (length s) →
  let '(s1, s2, s3) := tri_split_str s bgn end_ in
  s = s1 ++ s2 ++ s3 ∧
  Z.of_nat (length s1) = bgn ∧ Z.of_nat (length s2) = end_ - bgn + 1.
Proof.
  intros Hb He. rewrite tri_split_str_in_bounds by done.
  split; [|split].
  - rewrite <- (take_drop (Z.to_nat bgn) s) at 1. f_equal.
    rewrite <- (take_drop (Z.to_nat (end_ - bgn + 1)) (drop (Z.to_nat bgn) s)) at 1.
    f_equal. rewrite drop_drop. f_equal. lia.
  - rewrite length_take. lia.
  - rewrite length_take, length_drop. lia.
Qed.

(** * The operations on good profiles *)

#[local] Arguments tri_split_str : simpl never.

Lemma Rep_with_chrm s st Lo Lm : Rep st Lo Lm → Rep (with_chrm s st) Lo Lm.
Proof. intros [? ? ? ?]. by split. Qed.

(** What [inv] does on a good profile: it is rejected, or it splits and
    then either finds no region (and raises) or reverses the region. *)
Lemma inv_spec N st Lo Lm bgn end_ :
  Rep st Lo Lm → AInv N (len st) Lo Lm →
  (rejected bgn end_ st = Ok true ∧ inv bgn end_ st = Ok (false, st)) ∨
  (rejected bgn end_ st = Ok false ∧
   ∃ st1 Lo1 Lm1,
     _2split bgn end_ st = Ok st1 ∧ Rep st1 Lo1 Lm1 ∧ AInv N (len st) Lo1 Lm1 ∧
     chrm st1 = chrm st ∧ keeps Lm Lm1 ∧
     ((no_region bgn end_ Lm1 ∧ inv bgn end_ st = Raise AttributeError) ∨
      (∃ A mid D sih sit st',
         region bgn end_ Lm1 A mid D sih sit ∧
         inv bgn end_ st = Ok (true, st') ∧
         Rep st' Lo1 (A ++ reverse (flip_seg bgn end_ <$> mid) ++ D) ∧
         AInv N (len st') Lo1 (A ++ reverse (flip_seg bgn end_ <$> mid) ++ D) ∧
         chrm st' = take (Z.to_nat bgn) (chrm st)
                    ++ reverse (take (Z.to_nat (end_ - bgn + 1)) (drop (Z.to_nat bgn) (chrm st)))
                    ++ drop (Z.to_nat (end_ + 1)) (chrm st) ∧
         len st' = len st ∧
         orgs st' = orgs st1 ∧ org st' = org st1 ∧
         org_next st' = org_next st1 ∧ mut_next st' = mut_next st1))).
Proof.
  intros HR HA. unfold inv.
  destruct (rejected_spec _ _ _ bgn end_ HR) as ([|] & Hrj & Hb);
    rewrite Hrj, bind_Ok; cbv beta iota.
  { by left. }
  right. split; [done|].
  destruct (proj1 Hb eq_refl) as [[Hbe He] _].
  destruct (_2split_good N st Lo Lm bgn end_ HR HA Hbe)
    as (st1 & Lo1 & Lm1 & Hsp & HR1 & HA1 & Hch & Hk).
  assert (len st1 = len st) as Hlen1 by (unfold len; by rewrite Hch).
  rewrite Hlen1 in HA1.
  exists st1, Lo1, Lm1. rewrite Hsp, bind_Ok. do 5 (split; [done|]).
  destruct (_rev_mut_Rep _ _ _ bgn end_ HR1)
    as [[Hno ->]|(A & mid & D & sih & sit & st2 & Hrg & -> & HR2 & Hch2 & Hf1 & Hf2 & Hf3 & Hf4)];
    [by left|].
  right. rewrite bind_Ok. exists A, mid, D, sih, sit.
  rewrite Hch2, Hch.
  pose proof (tri_split_str_parts (chrm st) bgn end_ Hbe He) as Hparts.
  rewrite (tri_split_str_in_bounds _ _ _ Hbe He) in Hparts |- *.
  destruct Hparts as (Hs & Hl1 & Hl2).
  eexists. split; [done|]. split; [reflexivity|].
  assert (len (with_chrm (take (Z.to_nat bgn) (chrm st)
            ++ reverse (take (Z.to_nat (end_ - bgn + 1)) (drop (Z.to_nat bgn) (chrm st)))
            ++ drop (Z.to_nat (end_ + 1)) (chrm st)) st2) = len st) as Hlen.
  { unfold len. simpl. rewrite Hs at 4. by rewrite !length_app, length_reverse. }
  split; [by apply Rep_with_chrm|]. split; [|done].
  rewrite Hlen. by eapply inv_AInv.
Qed.

(** * Deletion on sequences *)

Lemma rep_insert_ext {X} (m : gmap nat (Node X)) hd L1 s L2 np (x : X) :
  rep m hd (L1 ++ s :: L2) → m !! s_id s = Some np →
  rep (<[s_id s := set_ext x np]> m) hd (L1 ++ mkSeg (s_id s) (s_bgn s) (s_end s) x :: L2).
Proof.
  intros Hrep Hnp.
  replace (<[s_id s := set_ext x np]> m) with (alter (set_ext x) (s_id s) m).
  - apply rep_alter; [done| |done]. by intros p n.
  - apply map_eq. intros h. destruct (decide (h = s_id s)) as [->|Hne].
    + lk. by rewrite Hnp.
    + by lk.
Qed.

Lemma list_remove_first_filter x (l : list nat) :
  NoDup l → x ∈ l → list_remove_first x l = Some (filter (λ c, c ≠ x) l).
Proof.
  induction l as [|y l IH]; intros Hnd Hin; [by apply elem_of_nil in Hin|].
  apply NoDup_cons in Hnd as [Hy Hnd]. simpl. case_bool_decide as Hxy.
  - subst y. rewrite filter_cons_False by (intros ?; done). f_equal.
    symmetry. clear IH Hin Hnd. induction l as [|z l IH]; [done|].
    apply not_elem_of_cons in Hy as [Hz Hy].
    rewrite filter_cons_True by done. f_equal. by apply IH.
  - apply elem_of_cons in Hin as [?|Hin]; [done|].
    rewrite (IH Hnd Hin). simpl. by rewrite filter_cons_True by (intros ?; done).
Qed.

(** The children that are not among the handles [cs]. *)
Definition prune (cs : list nat) (o : Seg OrgX) : Seg OrgX :=
  mkSeg (s_id o) (s_bgn o) (s_end o) (mkOrgX (filter (λ c, c ∉ cs) (children (s_ext o)))).

Lemma filter_all {A} (P : A → Prop) `{∀ x, Decision (P x)} (l : list A) :
  (∀ x, x ∈ l → P x) → filter P l = l.
Proof.
  induction l as [|y l IH]; intros Hall; [done|].
  rewrite filter_cons_True by (apply Hall; left). f_equal. apply IH.
  intros x Hx. apply Hall. by right.
Qed.

Lemma prune_id cs o : (∀ c, c ∈ children (s_ext o) → c ∉ cs) → prune cs o = o.
Proof.
  intros Hn. unfold prune. rewrite filter_all by done. by destruct o as [? ? ? []].
Qed.

Lemma prune_prune l1 l2 o : prune l2 (prune l1 o) = prune (l1 ++ l2) o.
Proof.
  unfold prune. simpl. do 2 f_equal. rewrite list_filter_filter.
  apply list_filter_iff. intros x. rewrite not_elem_of_app. tauto.
Qed.

Lemma drop_loop_spec mid : ∀ fuel st Lo p,
  dlseg (muts st) p mid None → NoDup (ids mid) → rep (orgs st) (org st) Lo →
  (∀ s, s ∈ mid → ∃ o, o ∈ Lo ∧ parent (s_ext s) = Some (s_id o) ∧
                       s_id s ∈ children (s_ext o)) →
  (∀ o, o ∈ Lo → NoDup (children (s_ext o))) →
  (∀ s o, s ∈ mid → o ∈ Lo → s_id s ∈ children (s_ext o) →
          parent (s_ext s) = Some (s_id o)) →
  (length mid ≤ fuel)%nat →
  ∃ st', drop_loop fuel (first_id mid None) st = Ok st' ∧
    rep (orgs st') (org st') (prune (ids mid) <$> Lo) ∧
    (∀ h, muts st' !! h = if decide (h ∈ ids mid) then None else muts st !! h) ∧
    chrm st' = chrm st ∧ mut st' = mut st ∧
    org_next st' = org_next st ∧ mut_next st' = mut_next st ∧
    (∀ h, is_Some (orgs st' !! h) → is_Some (orgs st !! h)).
Proof.
  induction mid as [|s t IH]; intros fuel st Lo p Hseg Hnd HRo Hpar HndC Huniq Hf.
  - exists st. simpl. split; [by destruct fuel|]. split; [|done].
    replace (prune [] <$> Lo) with Lo; [done|].
    rewrite <- (list_fmap_id Lo) at 1. apply list_fmap_ext. intros _ o _.
    symmetry. apply prune_id. intros c _. apply not_elem_of_nil.
  - simpl in Hseg. destruct Hseg as [Hs Ht].
    apply NoDup_cons in Hnd as [Hn Hnd].
    destruct fuel as [|fuel]; [simpl in Hf; lia|].
    destruct (Hpar s) as (o & Ho & Hp & Hc); [left|].
    destruct (list_elem_of_split _ _ Ho) as (A' & B' & ->).
    pose proof (dlseg_middle _ _ _ _ _ _ (rep_seg _ _ _ HRo)) as Hcell.
    simpl. rewrite (rd_Some _ _ _ Hs). simpl. rewrite Hp.
    rewrite (rd_Some _ _ _ Hcell). simpl.
    rewrite (list_remove_first_filter _ _ (HndC o Ho) Hc).
    set (st1 := with_muts _ _).
    assert (rep (orgs st1) (org st1) (prune [s_id s] <$> (A' ++ o :: B'))) as HRo1.
    { simpl.
      pose proof (rep_insert_ext _ _ _ _ _ _
        (mkOrgX (filter (λ c, c ≠ s_id s) (children (s_ext o)))) HRo Hcell) as Hins.
      simpl in Hins.
      replace (prune [s_id s] <$> A' ++ o :: B')
        with (A' ++ mkSeg (s_id o) (s_bgn o) (s_end o)
                      (mkOrgX (filter (λ c, c ≠ s_id s) (children (s_ext o)))) :: B');
        [done|].
      destruct (NoDup_ids_middle _ _ _ (rep_nodup _ _ _ HRo)) as (HoA & HoB & _).
      assert (∀ o', o' ∈ A' ∨ o' ∈ B' → prune [s_id s] o' = o') as Hid.
      { intros o' Ho'. apply prune_id. intros c Hc' Hin.
        apply list_elem_of_singleton in Hin as ->.
        assert (parent (s_ext s) = Some (s_id o')) as Hp'.
        { apply Huniq; [left| |done]. apply elem_of_app.
          destruct Ho'; [by left|right; by right]. }
        assert (s_id o' = s_id o) as Heq by congruence.
        destruct Ho' as [Ho'|Ho']; apply elem_of_ids in Ho'; rewrite Heq in Ho'; done. }
      rewrite fmap_app, fmap_cons. f_equal; [|f_equal].
      - rewrite <- (list_fmap_id A') at 1. apply list_fmap_ext.
        intros i o' Hi. symmetry. apply Hid. left. by eapply list_elem_of_lookup_2.
      - unfold prune. do 2 f_equal. apply list_filter_iff. intros c.
        by rewrite list_elem_of_singleton.
      - rewrite <- (list_fmap_id B') at 1. apply list_fmap_ext.
        intros i o' Hi. symmetry. apply Hid. right. by eapply list_elem_of_lookup_2. }
    destruct (IH fuel st1 (prune [s_id s] <$> (A' ++ o :: B')) (Some (s_id s)))
      as (st' & Hst' & HRo' & Hm' & Hch & Hmu & Hon & Hmn & Hdo); [| done | done | | | | |].
    { simpl. eapply dlseg_frame; [|done]. intros h Hh.
      assert (h ≠ s_id s) by (intros ->; done). by lk. }
    { intros s' Hs'. destruct (Hpar s') as (o' & Ho' & Hp' & Hc'); [by right|].
      exists (prune [s_id s] o'). split; [by apply list_elem_of_fmap_2|]. split; [done|].
      simpl. apply list_elem_of_filter. split; [|done].
      intros Hin. apply list_elem_of_singleton in Hin. apply Hn. rewrite <- Hin.
      by apply elem_of_ids. }
    { intros o1 Ho1. apply list_elem_of_fmap in Ho1 as (o' & -> & Ho'). simpl.
      apply NoDup_filter. by apply HndC. }
    { intros s' o1 Hs' Ho1 Hc1. apply list_elem_of_fmap in Ho1 as (o' & -> & Ho').
      simpl in *. apply list_elem_of_filter in Hc1 as [_ Hc1].
      apply Huniq; [by right|done|done]. }
    { simpl in Hf. lia. }
    exists st'. split; [done|]. split; [|split].
    + rewrite <- list_fmap_compose in HRo'.
      replace (prune (ids (s :: t)) <$> A' ++ o :: B')
        with ((prune (ids t) ∘ prune [s_id s]) <$> A' ++ o :: B'); [done|].
      apply list_fmap_ext. intros _ o' _. simpl. by rewrite prune_prune.
    + intros h. rewrite Hm'. simpl.
      destruct (decide (h ∈ ids t)) as [Hin|Hnin].
      * rewrite decide_True; [done|]. by right.
      * destruct (decide (h = s_id s)) as [->|Hne].
        -- rewrite decide_True by left. by lk.
        -- rewrite decide_False by (by apply not_elem_of_cons). by lk.
    + rewrite Hch, Hmu, Hon, Hmn. repeat split; try done.
      intros h Hh. apply Hdo in Hh. simpl in Hh.
      apply lookup_insert_is_Some' in Hh as [<-|?]; [eauto|done].
Qed.

Lemma scan_r_None {X} fuel (m : gmap nat (Node X)) stop : scan_r fuel m stop None = Ok None.
Proof. by destruct fuel. Qed.

Lemma size_alter {X} (f : X → X) i (m : gmap nat X) : size (alter f i m) = size m.
Proof. by rewrite <- !size_dom, dom_alter_L. Qed.

Lemma size_alter_opt {X} (o : option nat) (f : X → X) (m : gmap nat X) :
  size (match o with Some x => alter f x m | None => m end) = size m.
Proof. destruct o; [apply size_alter|done]. Qed.

Lemma tiling_shift {X} d (L : list (Seg X)) : ∀ z z',
  tiling z L z' → tiling (z + d) (shift_seg d <$> L) (z' + d).
Proof.
  induction L as [|s L IH]; intros z z'; simpl; [lia|].
  intros (Hb & He & Ht). apply IH in Ht.
  repeat split; [lia|lia|]. by replace (s_end s + d + 1) with (s_end s + 1 + d) by lia.
Qed.

Lemma tiling_fmap_same {X} (f : Seg X → Seg X) (L : list (Seg X)) :
  (∀ s, s_bgn (f s) = s_bgn s ∧ s_end (f s) = s_end s) →
  ∀ z z', tiling z L z' → tiling z (f <$> L) z'.
Proof.
  intros Hf. induction L as [|s L IH]; intros z z'; simpl; [done|].
  destruct (Hf s) as [-> ->]. intros (? & ? & ?). eauto.
Qed.

(** [rem] after the guards and the splits. *)
Lemma rem_Rep st st1 Lo Lm bgn end_ :
  rejected bgn end_ st = Ok false → _2split bgn end_ st = Ok st1 →
  Rep st1 Lo Lm → kin Lo Lm →
  (no_region bgn end_ Lm ∧ rem bgn end_ st = Raise AttributeError) ∨
  (∃ A mid D sih sit st',
     region bgn end_ Lm A mid D sih sit ∧
     rem bgn end_ st = Ok (true, st') ∧
     Rep st' (prune (ids mid) <$> Lo) (A ++ (shift_seg (- (end_ - bgn + 1)) <$> D)) ∧
     chrm st' = (tri_split_str (chrm st1) bgn end_).1.1 ++ (tri_split_str (chrm st1) bgn end_).2).
Proof.
  intros Hrj Hsp HR HK. pose proof HR as [HRo HRm Hon Hmn].
  unfold rem. rewrite Hrj, bind_Ok. cbv beta iota. rewrite Hsp, bind_Ok.
  unfold _get_head_tail.
  destruct (scan_region _ _ _ bgn end_ HRm) as [[Hno Hsc]|(A & mid & D & sih & sit & Hrg & H1 & H2)].
  { left. split; [done|].
    destruct Hsc as [-> |(s & -> & (p & n & Hs) & H2)].
    - rewrite bind_Ok, scan_r_None. done.
    - rewrite bind_Ok, H2. simpl. by rewrite (rd_Some _ _ _ Hs). }
  right. exists A, mid, D, sih, sit.
  destruct (region_cells _ _ _ _ _ _ _ _ _ _ HRm Hrg) as ((n & Hih) & (p & Hit) & HsA & Hsm & HsD).
  destruct (region_ends _ _ _ _ _ _ _ _ Hrg) as (Hf & Hl & Hihm & Hitm).
  destruct (region_nodup _ _ _ _ _ _ _ _ Hrg (rep_nodup _ _ _ HRm))
    as (HndA & Hndm & HndD & HAm & HAD & HmD).
  pose proof (rg_L _ _ _ _ _ _ _ _ Hrg) as HL.
  rewrite H1, bind_Ok, H2, !bind_Ok. cbv beta iota.
  rewrite (rd_Some _ _ _ Hih), bind_Ok, (rd_Some _ _ _ Hit), bind_Ok.
  cbn [n_l n_r cell].
  set (oh := last_id A None) in *. set (ot := first_id D None) in *.
  assert (∀ x, oh = Some x → x ∈ ids A) as Hoh by (intros x; apply last_id_in).
  assert (∀ x, ot = Some x → x ∈ ids D) as Hot by (intros x; apply first_id_in).
  assert (s_id sih ∈ ids mid) as Hihi by (by apply elem_of_ids).
  assert (s_id sit ∈ ids mid) as Hiti by (by apply elem_of_ids).
  set (st1' := if bool_decide (oh = None) then with_mut ot st1 else st1).
  assert (muts st1' = muts st1) as Hmu1 by (unfold st1'; by case_bool_decide).
  rewrite Hmu1.
  set (m := muts st1) in *.
  set (m1 := match oh with Some x => alter (set_r ot) x m | None => m end).
  set (m2 := match ot with Some x => alter (set_l oh) x m1 | None => m1 end).
  set (m3 := alter (set_l None) (s_id sih) m2).
  set (m4 := alter (set_r None) (s_id sit) m3).
  assert (∀ h, h ∉ ids A → m1 !! h = m !! h) as F1.
  { intros h Hh. apply lookup_alter_opt. intros x Hx ->. apply Hh. by apply Hoh. }
  assert (∀ h, h ∉ ids D → m2 !! h = m1 !! h) as F2.
  { intros h Hh. apply lookup_alter_opt. intros x Hx ->. apply Hh. by apply Hot. }
  assert (∀ h, h ∉ ids mid → m4 !! h = m2 !! h) as F4.
  { intros h Hh. unfold m4, m3.
    assert (h ≠ s_id sih) by (intros ->; done).
    assert (h ≠ s_id sit) by (intros ->; done). by lk. }
  assert (size m4 = size m) as Hsz.
  { unfold m4, m3, m2, m1. by rewrite !size_alter, !size_alter_opt. }
  assert (dlseg m4 None mid None) as Hmid4.
  { assert (dlseg m2 oh mid ot) as Hmid2.
    { eapply dlseg_frame; [|exact Hsm]. intros h Hh. rewrite F2, F1; [done| |].
      - intros HA'. by apply (HAm _ HA').
      - by apply HmD. }
    pose proof (dlseg_set_first_opt _ _ None _ _ Hmid2 Hndm) as H3. rewrite Hf in H3.
    pose proof (dlseg_set_last_opt _ _ _ _ None H3 Hndm) as H4. by rewrite Hl in H4. }
  assert (dlseg m4 None A ot) as HA4.
  { pose proof (dlseg_set_last_opt _ _ _ _ ot HsA HndA) as HA1.
    eapply dlseg_frame; [|exact HA1]. intros h Hh. rewrite F4, F2; [done| |].
    - by apply HAD.
    - by apply HAm. }
  assert (dlseg m4 oh D None) as HD4.
  { assert (dlseg m1 (Some (s_id sit)) D None) as HD1.
    { eapply dlseg_frame; [|exact HsD]. intros h Hh. apply F1.
      intros HA'. by apply (HAD _ HA'). }
    pose proof (dlseg_set_first_opt _ _ oh _ _ HD1 HndD) as HD2.
    eapply dlseg_frame; [|exact HD2]. intros h Hh. apply F4.
    intros Hm. by apply (HmD _ Hm). }
  assert (∀ s, s ∈ mid → s ∈ Lm) as HmidL.
  { intros s Hs. rewrite HL, !elem_of_app. tauto. }
  destruct (drop_loop_spec mid (size m4) (with_muts m4 st1') Lo None)
    as (st2 & Hst2 & HRo2 & Hm2 & Hch2 & Hmut2 & Hon2 & Hmn2 & Hdo2).
  { done. }
  { done. }
  { unfold st1'. by case_bool_decide. }
  { intros s Hs. destruct (kin_parent _ _ HK s (HmidL s Hs)) as (o & ? & ? & ? & ?). eauto. }
  { intros o Ho. by destruct (kin_children _ _ HK o Ho). }
  { intros s o Hs Ho Hc. eapply kin_child_unique; [apply HRm|done|by apply HmidL|done|done]. }
  { rewrite Hsz, (rep_size _ _ _ HRm), HL, !length_app. lia. }
  rewrite (first_id_Some _ _ _ Hf) in Hst2. rewrite Hst2, bind_Ok.
  destruct (shift_loop_spec (- (end_ - bgn + 1)) D (size m4) (muts st2) oh)
    as (m5 & Hm5 & HD5 & Hout5); [|done| |].
  { eapply dlseg_frame; [|exact HD4]. intros h Hh. rewrite Hm2. simpl.
    rewrite decide_False; [done|]. intros Hm. by apply (HmD _ Hm). }
  { rewrite Hsz, (rep_size _ _ _ HRm), HL, !length_app. lia. }
  fold ot in Hm5. rewrite Hm5, bind_Ok.
  assert (chrm (with_muts m5 st2) = chrm st1) as Hc.
  { simpl. rewrite Hch2. simpl. unfold st1'. by case_bool_decide. }
  rewrite Hc.
  destruct (tri_split_str (chrm st1) bgn end_) as [[s1 s2] s3].
  eexists. split; [done|]. split; [reflexivity|]. split; [|done].
  apply (Rep_with_chrm _ (with_muts m5 st2)).
  assert (∀ h, h ∉ ids D → m5 !! h = if decide (h ∈ ids mid) then None else m4 !! h) as F5.
  { intros h Hh. rewrite Hout5 by done. by rewrite Hm2. }
  split; simpl.
  - done.
  - split.
    + apply dlseg_app. split.
      * rewrite (first_id_fmap_id (shift_seg _)) by done.
        eapply dlseg_frame; [|exact HA4]. intros h Hh.
        rewrite F5 by (by apply HAD). rewrite decide_False; [done|by apply HAm].
      * done.
    + rewrite Hmut2. simpl. unfold st1', oh.
      destruct A as [|a A _] using rev_ind.
      * change (last_id [] None) with (@None nat).
        rewrite bool_decide_eq_true_2 by done. simpl.
        by rewrite (first_id_fmap_id (shift_seg _)).
      * rewrite last_id_snoc, bool_decide_eq_false_2 by done.
        rewrite (rep_hd _ _ _ HRm), HL.
        rewrite <- !app_assoc. by destruct A.
    + pose proof (rep_nodup _ _ _ HRm) as Hnd. rewrite HL in Hnd.
      revert Hnd. rewrite !ids_app, (ids_fmap_id (shift_seg _)) by done.
      intros (? & HAmD & (? & ? & ?)%NoDup_app)%NoDup_app.
      apply NoDup_app. split; [done|]. split; [|done].
      intros h Hh. by apply HAD.
    + intros h Hh. rewrite ids_app, (ids_fmap_id (shift_seg _)), elem_of_app by done.
      destruct (decide (h ∈ ids D)) as [?|HnD]; [by right|]. left.
      rewrite F5 in Hh by done.
      destruct (decide (h ∈ ids mid)) as [?|Hnm]; [by destruct Hh|].
      rewrite F4, F2 in Hh by done.
      assert (is_Some (m !! h)) as Hm'.
      { unfold m1 in Hh. by rewrite is_Some_alter_opt in Hh. }
      apply (rep_dom _ _ _ HRm) in Hm'. rewrite HL, !ids_app, !elem_of_app in Hm'. tauto.
  - intros h Hh. rewrite Hon2. simpl.
    assert (org_next st1' = org_next st1) as -> by (unfold st1'; by case_bool_decide).
    apply Hon. apply Hdo2 in Hh. simpl in Hh.
    assert (orgs st1' = orgs st1) as Ho1 by (unfold st1'; by case_bool_decide).
    by rewrite Ho1 in Hh.
  - intros h Hh. rewrite Hmn2. simpl.
    assert (mut_next st1' = mut_next st1) as -> by (unfold st1'; by case_bool_decide).
    destruct (decide (h ∈ ids D)) as [HD|HnD].
    + apply list_elem_of_fmap in HD as (s & -> & Hs). eapply Rep_mut_lt; [done|].
      rewrite HL, !elem_of_app. tauto.
    + rewrite F5 in Hh by done.
      destruct (decide (h ∈ ids mid)) as [?|Hnm]; [by destruct Hh|].
      rewrite F4, F2 in Hh by done. apply Hmn.
      unfold m1 in Hh. by rewrite is_Some_alter_opt in Hh.
Qed.

Lemma rem_kin Lo bgn end_ d (Lm A mid D : list (Seg MutX)) sih sit :
  region bgn end_ Lm A mid D sih sit → NoDup (ids Lm) → kin Lo Lm →
  kin (prune (ids mid) <$> Lo) (A ++ (shift_seg d <$> D)).
Proof.
  intros Hrg Hnd HK.
  destruct (region_nodup _ _ _ _ _ _ _ _ Hrg Hnd) as (HndA & Hndm & HndD & HAm & HAD & HmD).
  pose proof (rg_L _ _ _ _ _ _ _ _ Hrg) as HL. pose proof HK as [K1 K2].
  assert (∀ x, x ∈ A ++ (shift_seg d <$> D) →
            ∃ s, s ∈ Lm ∧ (s_id s ∉ ids mid) ∧ s_id x = s_id s ∧
                 s_ext x = s_ext s ∧ s_end x - s_bgn x = s_end s - s_bgn s) as Hback.
  { intros x Hx. rewrite elem_of_app, list_elem_of_fmap in Hx.
    destruct Hx as [Hx|(s & -> & Hs)].
    - exists x. rewrite HL, !elem_of_app. repeat split; [tauto|].
      apply HAm. by apply elem_of_ids.
    - exists s. rewrite HL, !elem_of_app. simpl. repeat split; [tauto| |lia].
      intros Hm. apply (HmD _ Hm). by apply elem_of_ids. }
  split.
  - intros x Hx. destruct (Hback x Hx) as (s & Hs & Hn & Hid & Hext & Hlen).
    destruct (K1 s Hs) as (o & Ho & Hp & Hc & Hl).
    exists (prune (ids mid) o). split; [by apply list_elem_of_fmap_2|].
    rewrite Hext, Hid, Hlen. simpl. repeat split; [done| |done].
    apply list_elem_of_filter. done.
  - intros o' Ho'. apply list_elem_of_fmap in Ho' as (o & -> & Ho).
    destruct (K2 o Ho) as [HndC Hk]. simpl. split; [by apply NoDup_filter|].
    intros c Hc. apply list_elem_of_filter in Hc as [Hn Hc].
    destruct (Hk c Hc) as (s & Hs & Hid & Hp).
    rewrite HL, !elem_of_app in Hs. destruct Hs as [Hs|[Hs|Hs]].
    + exists s. rewrite elem_of_app. eauto.
    + exfalso. apply Hn. rewrite <- Hid. by apply elem_of_ids.
    + exists (shift_seg d s). rewrite elem_of_app, list_elem_of_fmap. eauto 6.
Qed.

Lemma rem_AInv N M Lo bgn end_ (Lm A mid D : list (Seg MutX)) sih sit :
  region bgn end_ Lm A mid D sih sit → NoDup (ids Lm) → AInv N M Lo Lm →
  AInv N (M - (end_ - bgn + 1)) (prune (ids mid) <$> Lo)
       (A ++ (shift_seg (- (end_ - bgn + 1)) <$> D)).
Proof.
  intros Hrg Hnd [HtO HtM HK].
  destruct (region_tiling _ _ _ _ _ _ _ _ _ _ Hrg HtM) as (HtA & Htm & HtD).
  split.
  - by apply tiling_fmap_same.
  - apply tiling_app. exists bgn. split; [done|].
    apply (tiling_shift (- (end_ - bgn + 1))) in HtD.
    by replace (end_ + 1 + - (end_ - bgn + 1)) with bgn in HtD by lia.
  - by eapply rem_kin.
Qed.

(** What [rem] does on a good profile. *)
Lemma rem_spec N st Lo Lm bgn end_ :
  Rep st Lo Lm → AInv N (len st) Lo Lm →
  (rejected bgn end_ st = Ok true ∧ rem bgn end_ st = Ok (false, st)) ∨
  (rejected bgn end_ st = Ok false ∧
   ∃ st1 Lo1 Lm1,
     _2split bgn end_ st = Ok st1 ∧ Rep st1 Lo1 Lm1 ∧ AInv N (len st) Lo1 Lm1 ∧
     chrm st1 = chrm st ∧ keeps Lm Lm1 ∧
     ((no_region bgn end_ Lm1 ∧ rem bgn end_ st = Raise AttributeError) ∨
      (∃ A mid D sih sit st',
         region bgn end_ Lm1 A mid D sih sit ∧
         rem bgn end_ st = Ok (true, st') ∧
         Rep st' (prune (ids mid) <$> Lo1) (A ++ (shift_seg (- (end_ - bgn + 1)) <$> D)) ∧
         AInv N (len st') (prune (ids mid) <$> Lo1)
              (A ++ (shift_seg (- (end_ - bgn + 1)) <$> D)) ∧
         chrm st' = take (Z.to_nat bgn) (chrm st) ++ drop (Z.to_nat (end_ + 1)) (chrm st) ∧
         len st' = len st - (end_ - bgn + 1)))).
Proof.
  intros HR HA.
  destruct (rejected_spec _ _ _ bgn end_ HR) as ([|] & Hrj & Hb).
  { left. split; [done|]. unfold rem. by rewrite Hrj. }
  right. split; [done|].
  destruct (proj1 Hb eq_refl) as [[Hbe He] _].
  destruct (_2split_good N st Lo Lm bgn end_ HR HA Hbe)
    as (st1 & Lo1 & Lm1 & Hsp & HR1 & HA1 & Hch & Hk).
  assert (len st1 = len st) as Hlen1 by (unfold len; by rewrite Hch).
  rewrite Hlen1 in HA1.
  exists st1, Lo1, Lm1. do 5 (split; [done|]).
  destruct (rem_Rep st st1 Lo1 Lm1 bgn end_ Hrj Hsp HR1 (AI_kin _ _ _ _ HA1))
    as [?|(A & mid & D & sih & sit & st' & Hrg & Hrem & HR' & Hch')]; [by left|].
  right. exists A, mid, D, sih, sit, st'.
  pose proof (tri_split_str_parts (chrm st) bgn end_ Hbe He) as Hparts.
  rewrite Hch, (tri_split_str_in_bounds _ _ _ Hbe He) in Hch'.
  rewrite (tri_split_str_in_bounds _ _ _ Hbe He) in Hparts.
  simpl in Hch'. destruct Hparts as (Hs & Hl1 & Hl2).
  assert (len st' = len st - (end_ - bgn + 1)) as Hlen.
  { unfold len. rewrite Hch'. rewrite Hs at 3. rewrite !length_app. lia. }
  do 3 (split; [done|]). split; [|done].
  rewrite Hlen. eapply rem_AInv; [done|apply HR1|done].
Qed.

(** * Amplification on sequences *)

(** The copies of a run of segments, with handles from [next] on. *)
Fixpoint copies (next : nat) (L : list (Seg MutX)) : list (Seg MutX) :=
  match L with
  | [] => []
  | s :: t => mkSeg next (s_bgn s) (s_end s) (s_ext s) :: copies (S next) t
  end.

(** [curB.parent.children.append(curB)] *)
Definition adopt (c : nat) (p : option nat) (o : Seg OrgX) : Seg OrgX :=
  if bool_decide (p = Some (s_id o)) then add_kids [c] o else o.

Fixpoint adopt_all (next : nat) (L : list (Seg MutX)) (Lo : list (Seg OrgX))
  : list (Seg OrgX) :=
  match L with
  | [] => Lo
  | s :: t => adopt_all (S next) t (adopt next (parent (s_ext s)) <$> Lo)
  end.

Lemma copies_app next L1 L2 :
  copies next (L1 ++ L2) = copies next L1 ++ copies (next + length L1) L2.
Proof.
  revert next. induction L1 as [|s L1 IH]; intros next; simpl.
  - by rewrite Nat.add_0_r.
  - rewrite IH. by replace (S next + length L1)%nat with (next + S (length L1))%nat by lia.
Qed.

Lemma adopt_all_app next L1 L2 Lo :
  adopt_all next (L1 ++ L2) Lo = adopt_all (next + length L1) L2 (adopt_all next L1 Lo).
Proof.
  revert next Lo. induction L1 as [|s L1 IH]; intros next Lo; simpl.
  - by rewrite Nat.add_0_r.
  - rewrite IH. by replace (S next + length L1)%nat with (next + S (length L1))%nat by lia.
Qed.

Lemma adopt_id c p o : s_id (adopt c p o) = s_id o.
Proof. unfold adopt. by case_bool_decide. Qed.

Lemma ids_adopt c p Lo : ids (adopt c p <$> Lo) = ids Lo.
Proof. apply ids_fmap_id. intros o. apply adopt_id. Qed.

Lemma adopt_middle c A o B :
  NoDup (ids (A ++ o :: B)) →
  adopt c (Some (s_id o)) <$> (A ++ o :: B) = A ++ add_kids [c] o :: B.
Proof.
  intros Hnd. destruct (NoDup_ids_middle _ _ _ Hnd) as (HA & HB & _).
  assert (∀ L, s_id o ∉ ids L → adopt c (Some (s_id o)) <$> L = L) as Hsame.
  { induction L as [|x L IH]; [done|]. intros Hn.
    apply not_elem_of_cons in Hn as [Hx Hn]. rewrite fmap_cons, (IH Hn). f_equal.
    unfold adopt. rewrite bool_decide_eq_false_2; [done|]. congruence. }
  rewrite fmap_app, fmap_cons, (Hsame A HA), (Hsame B HB). do 2 f_equal.
  unfold adopt. by rewrite bool_decide_eq_true_2.
Qed.

(** What the loop of [_copy_from_to] needs, and what it gives. *)
Record copyable (st : ChrmProf) (Lo : list (Seg OrgX)) (PB L : list (Seg MutX))
    (pA nA : option nat) : Prop := mkCopyable {
  cb_src : dlseg (muts st) pA L nA;
  cb_dst : dlseg (muts st) None PB None;
  cb_lt : ∀ h, is_Some (muts st !! h) → (h < mut_next st)%nat;
  cb_disj : ∀ s, s ∈ L → s_id s ∉ ids PB;
  cb_nodup : NoDup (ids PB);
  cb_nodupL : NoDup (ids L);
  cb_org : rep (orgs st) (org st) Lo;
  cb_par : ∀ s, s ∈ L → ∃ o, o ∈ Lo ∧ parent (s_ext s) = Some (s_id o)
}.

Record copied (st st' : ChrmProf) (Lo : list (Seg OrgX)) (PB L : list (Seg MutX)) : Prop := mkCopied {
  cp_seg : dlseg (muts st') None (PB ++ copies (mut_next st) L) None;
  cp_out : ∀ h, h ∉ ids PB → (h < mut_next st)%nat → muts st' !! h = muts st !! h;
  cp_dom : ∀ h, is_Some (muts st' !! h) →
                is_Some (muts st !! h) ∨ (mut_next st ≤ h < mut_next st')%nat;
  cp_next : mut_next st' = (mut_next st + length L)%nat;
  cp_org : rep (orgs st') (org st') (adopt_all (mut_next st) L Lo);
  cp_orgdom : ∀ h, is_Some (orgs st' !! h) → is_Some (orgs st !! h);
  cp_chrm : chrm st' = chrm st;
  cp_mut : mut st' = mut st;
  cp_org_next : org_next st' = org_next st
}.

(** The state after one turn of the loop, on the node [na] of the segment
    [s] whose parent is [p]. *)
Definition copy_state (st : ChrmProf) (na : Node MutX) (p : nat) (prevB : option nat)
  : ChrmProf :=
  let curB := mut_next st in
  let m := <[curB := set_r None (set_l prevB na)]> (muts st) in
  let m := match prevB with Some b => alter (set_r (Some curB)) b m | None => m end in
  mkChrmProf (chrm st) (org st) (mut st) (alter (add_child curB) p (orgs st)) m
    (org_next st) (S curB).

Lemma copy_loop_step fuel to st s pA nA hB pB (o : Seg OrgX) :
  muts st !! s_id s = Some (cell pA nA s) →
  parent (s_ext s) = Some (s_id o) →
  copy_loop (S fuel) to (Some (s_id s)) hB pB st =
  let st1 := copy_state st (cell pA nA s) (s_id o) pB in
  let hB' := match hB with None => Some (mut_next st) | Some _ => hB end in
  if bool_decide (s_end s = to) then
    match hB' with
    | Some hb => Ok (Some (s_id s, hb, mut_next st), st1)
    | None => Stuck
    end
  else copy_loop fuel to nA hB' (Some (mut_next st)) st1.
Proof. intros Hs Hp. simpl. rewrite (rd_Some _ _ _ Hs). simpl. by rewrite Hp. Qed.

Lemma copy_one st Lo PB s t pA nA o :
  copyable st Lo PB (s :: t) pA nA →
  o ∈ Lo → parent (s_ext s) = Some (s_id o) →
  let st1 := copy_state st (cell pA (first_id t nA) s) (s_id o) (last_id PB None) in
  copied st st1 Lo PB [s] ∧
  copyable st1 (adopt_all (mut_next st) [s] Lo) (PB ++ copies (mut_next st) [s]) t
    (Some (s_id s)) nA.
Proof.
  intros [Hsrc Hdst Hlt Hdisj HndP HndL HRo Hpar] Ho Hp st1.
  simpl in Hsrc. destruct Hsrc as [Hs Ht].
  apply NoDup_cons in HndL as [HsL HndL].
  set (curB := mut_next st) in *.
  assert (∀ x, x ∈ PB → s_id x ≠ curB) as HPBlt.
  { intros x Hx Heq.
    destruct (dlseg_lookup _ _ _ _ _ Hdst Hx) as (p' & n' & Hl).
    assert (s_id x < curB)%nat; [|lia]. apply Hlt. eauto. }
  assert (curB ∉ ids PB) as HcP.
  { intros Hin. apply list_elem_of_fmap in Hin as (x & Hx & Hin). by eapply HPBlt. }
  assert (∀ x, last_id PB None = Some x → x ∈ ids PB) as HlastP
    by (intros x; apply last_id_in).
  assert (∀ h, h ∉ ids PB → h ≠ curB → muts st1 !! h = muts st !! h) as Hout.
  { intros h Hh Hne. unfold st1, copy_state. simpl.
    rewrite lookup_alter_opt.
    - fold curB. by lk.
    - intros x Hx ->. apply Hh. by apply HlastP. }
  assert (dlseg (muts st1) None (PB ++ [mkSeg curB (s_bgn s) (s_end s) (s_ext s)]) None) as Hseg1.
  { unfold st1, copy_state. simpl. fold curB. apply dlseg_app. split.
    - simpl. apply (dlseg_set_last_opt _ None PB None (Some curB)); [|done].
      eapply dlseg_frame; [|exact Hdst]. intros h Hh.
      assert (h ≠ curB) by (intros ->; done). by lk.
    - simpl. split; [|done]. rewrite lookup_alter_opt.
      + by lk.
      + intros x Hx ->. apply HcP. by apply HlastP. }
  destruct (list_elem_of_split _ _ Ho) as (A' & B' & ->).
  assert (rep (orgs st1) (org st1) (adopt curB (parent (s_ext s)) <$> A' ++ o :: B')) as HRo1.
  { rewrite Hp, adopt_middle by apply HRo. unfold st1, copy_state. simpl. fold curB.
    apply rep_alter; [done| |done]. by intros p n. }
  split; split; simpl; try done.
  - intros h Hh Hlt'. apply Hout; [done|lia].
  - intros h Hh. destruct (decide (h = curB)) as [->|Hne]; [right; lia|]. left.
    unfold st1, copy_state in Hh. simpl in Hh. rewrite is_Some_alter_opt in Hh.
    fold curB in Hh. apply lookup_insert_is_Some' in Hh as [?|?]; done.
  - lia.
  - intros h Hh. unfold st1, copy_state in Hh. simpl in Hh.
    by apply lookup_alter_is_Some in Hh.
  - eapply dlseg_frame; [|exact Ht]. intros h Hh. apply Hout.
    + apply list_elem_of_fmap in Hh as (x & -> & Hx). apply Hdisj. by right.
    + apply list_elem_of_fmap in Hh as (x & -> & Hx).
      destruct (dlseg_lookup _ _ _ _ _ Ht Hx) as (p' & n' & Hl).
      assert (s_id x < curB)%nat; [|lia]. apply Hlt. eauto.
  - intros h Hh. destruct (decide (h = curB)) as [->|Hne]; [lia|].
    unfold st1, copy_state in Hh. simpl in Hh. rewrite is_Some_alter_opt in Hh.
    fold curB in Hh. apply lookup_insert_is_Some' in Hh as [?|?]; [done|].
    assert (h < curB)%nat; [by apply Hlt|lia].
  - intros x Hx. rewrite ids_app, not_elem_of_app. split; [apply Hdisj; by right|].
    simpl. intros Hin. apply list_elem_of_singleton in Hin.
    destruct (dlseg_lookup _ _ _ _ _ Ht Hx) as (p' & n' & Hl).
    assert (s_id x < curB)%nat; [|lia]. apply Hlt. eauto.
  - rewrite ids_app. apply NoDup_app. split; [done|]. split.
    + intros h Hh Hin. simpl in Hin. apply list_elem_of_singleton in Hin as ->. done.
    + simpl. apply NoDup_singleton.
  - intros x Hx. destruct (Hpar x) as (o' & Ho' & Hp'); [by right|].
    exists (adopt curB (parent (s_ext s)) o'). split; [by apply list_elem_of_fmap_2|].
    by rewrite adopt_id.
Qed.

Lemma ids_copies next L h :
  h ∈ ids (copies next L) ↔ (next ≤ h < next + length L)%nat.
Proof.
  revert next. induction L as [|s L IH]; intros next; simpl.
  - split; [by intros ?%elem_of_nil|lia].
  - rewrite elem_of_cons, IH. lia.
Qed.

Lemma first_id_copies next L d :
  first_id (copies next L) d = match L with [] => d | _ => Some next end.
Proof. by destruct L. Qed.

Lemma copy_loop_None fuel to hB pB st : copy_loop fuel to None hB pB st = Ok (None, st).
Proof. by destruct fuel. Qed.

Lemma copied_refl st Lo PB :
  dlseg (muts st) None PB None → rep (orgs st) (org st) Lo → copied st st Lo PB [].
Proof.
  intros HP HRo. split; simpl; try done.
  - by rewrite app_nil_r.
  - eauto.
Qed.

Lemma copied_trans st st1 st2 Lo PB L1 L2 :
  copied st st1 Lo PB L1 →
  copied st1 st2 (adopt_all (mut_next st) L1 Lo) (PB ++ copies (mut_next st) L1) L2 →
  copied st st2 Lo PB (L1 ++ L2).
Proof.
  intros [Hs1 Ho1 Hd1 Hn1 HR1 Hod1 Hc1 Hm1 Hon1] [Hs2 Ho2 Hd2 Hn2 HR2 Hod2 Hc2 Hm2 Hon2].
  split.
  - rewrite copies_app, app_assoc. by rewrite Hn1 in Hs2.
  - intros h Hh Hlt. rewrite Ho2, Ho1; [done..| |lia].
    rewrite ids_app, not_elem_of_app. split; [done|]. rewrite ids_copies. lia.
  - intros h Hh. destruct (Hd2 h Hh) as [H1|H1].
    + destruct (Hd1 h H1) as [?|?]; [by left|right; lia].
    + right. lia.
  - rewrite Hn2, Hn1, length_app. lia.
  - rewrite adopt_all_app. by rewrite Hn1 in HR2.
  - eauto.
  - congruence.
  - congruence.
  - congruence.
Qed.

(** The loop over segments that do not end at [to]. *)
Lemma copy_loop_run to C : ∀ fuel st Lo PB pA R nA,
  copyable st Lo PB (C ++ R) pA nA → Forall (λ s, s_end s ≠ to) C →
  let PB' := PB ++ copies (mut_next st) C in
  ∃ st',
    copy_loop (length C + fuel) to (first_id (C ++ R) nA)
      (first_id PB None) (last_id PB None) st
    = copy_loop fuel to (first_id R nA) (first_id PB' None) (last_id PB' None) st' ∧
    copied st st' Lo PB C ∧
    copyable st' (adopt_all (mut_next st) C Lo) PB' R (last_id C pA) nA.
Proof.
  induction C as [|c C IH]; intros fuel st Lo PB pA R nA Hcb Hall PB'.
  - exists st. unfold PB'. simpl. rewrite app_nil_r. split; [done|]. split; [|done].
    apply copied_refl; apply Hcb.
  - apply Forall_cons in Hall as [Hc Hall].
    destruct (cb_par _ _ _ _ _ _ Hcb c) as (o & Ho & Hp); [left|].
    pose proof (cb_src _ _ _ _ _ _ Hcb) as Hsrc. simpl in Hsrc. destruct Hsrc as [Hcell _].
    destruct (copy_one st Lo PB c (C ++ R) pA nA o Hcb Ho Hp) as [Hcp1 Hcb1].
    set (st1 := copy_state st _ _ _) in *.
    destruct (IH fuel st1 _ _ _ R nA Hcb1 Hall) as (st' & Heq & Hcp & Hcb').
    exists st'.
    assert (mut_next st1 = S (mut_next st)) as Hn1 by done.
    rewrite Hn1 in Heq, Hcb'.
    simpl length. simpl first_id at 1.
    change (S (length C) + fuel)%nat with (S (length C + fuel)).
    rewrite (copy_loop_step _ _ _ _ _ _ _ _ _ Hcell Hp). cbv zeta.
    rewrite bool_decide_eq_false_2 by done. fold st1.
    split; [|split].
    + unfold PB'. simpl copies.
      replace (PB ++ mkSeg (mut_next st) (s_bgn c) (s_end c) (s_ext c)
                 :: copies (S (mut_next st)) C)
        with ((PB ++ copies (mut_next st) [c]) ++ copies (S (mut_next st)) C)
        by (by rewrite <- app_assoc).
      rewrite <- Heq. f_equal.
      * rewrite first_id_app. by destruct PB.
      * simpl copies. by rewrite last_id_snoc.
    + apply (copied_trans st st1 st' Lo PB [c] C Hcp1). exact Hcp.
    + unfold PB'. simpl copies. rewrite last_id_cons.
      by replace (PB ++ mkSeg (mut_next st) (s_bgn c) (s_end c) (s_ext c)
                 :: copies (S (mut_next st)) C)
        with ((PB ++ copies (mut_next st) [c]) ++ copies (S (mut_next st)) C)
        by (by rewrite <- app_assoc).
Qed.

(** The loop to the first segment that ends at [to]. *)
Lemma copy_loop_found to C sit fuel st Lo pA nA :
  copyable st Lo [] (C ++ [sit]) pA nA → Forall (λ s, s_end s ≠ to) C → s_end sit = to →
  (length C < fuel)%nat →
  ∃ st' hb tb,
    copy_loop fuel to (first_id (C ++ [sit]) nA) None None st
      = Ok (Some (s_id sit, hb, tb), st') ∧
    first_id (copies (mut_next st) (C ++ [sit])) None = Some hb ∧
    last_id (copies (mut_next st) (C ++ [sit])) None = Some tb ∧
    copied st st' Lo [] (C ++ [sit]).
Proof.
  intros Hcb HC Hsit Hf.
  destruct (copy_loop_run to C (fuel - length C) st Lo [] pA [sit] nA Hcb HC)
    as (st1 & Heq & Hcp & Hcb1).
  replace (length C + (fuel - length C))%nat with fuel in Heq by lia.
  change (first_id [] None) with (@None nat) in Heq.
  change (last_id [] None) with (@None nat) in Heq.
  rewrite Heq. clear Heq. simpl app in *.
  destruct (cb_par _ _ _ _ _ _ Hcb1 sit) as (o & Ho & Hp); [left|].
  pose proof (cb_src _ _ _ _ _ _ Hcb1) as Hsrc. simpl in Hsrc. destruct Hsrc as [Hcell _].
  destruct (copy_one st1 _ _ sit [] _ nA o Hcb1 Ho Hp) as [Hcp2 _].
  set (st2 := copy_state st1 _ _ _) in *.
  destruct (fuel - length C)%nat as [|f] eqn:Hfuel; [lia|].
  simpl first_id at 1.
  rewrite (copy_loop_step _ _ _ _ _ _ _ _ _ Hcell Hp). cbv zeta.
  rewrite bool_decide_eq_true_2 by done. fold st2.
  pose proof (cp_next _ _ _ _ _ Hcp) as Hn1.
  assert (copied st st2 Lo [] (C ++ [sit])) as Hcp'.
  { apply (copied_trans st st1 st2 Lo [] C [sit] Hcp). exact Hcp2. }
  rewrite copies_app. simpl copies.
  destruct (first_id (copies (mut_next st) C) None) as [hb|] eqn:Hfirst.
  - exists st2, hb, (mut_next st1). split; [done|]. split; [|split; [|done]].
    + rewrite first_id_app. by rewrite (first_id_Some _ _ _ Hfirst).
    + by rewrite last_id_snoc, Hn1.
  - exists st2, (mut_next st1), (mut_next st1). split; [done|]. split; [|split; [|done]].
    + destruct C as [|c C']; [|by simpl in Hfirst]. simpl. by rewrite Hn1.
    + by rewrite last_id_snoc, Hn1.
Qed.

(** The loop when no segment ends at [to]: it falls off the list. *)
Lemma copy_loop_missed to C fuel st Lo pA :
  copyable st Lo [] C pA None → Forall (λ s, s_end s ≠ to) C →
  (length C ≤ fuel)%nat →
  ∃ st', copy_loop fuel to (first_id C None) None None st = Ok (None, st').
Proof.
  intros Hcb HC Hf.
  rewrite <- (app_nil_r C) in Hcb.
  destruct (copy_loop_run to C (fuel - length C) st Lo [] pA [] None Hcb HC)
    as (st1 & Heq & _ & _).
  replace (length C + (fuel - length C))%nat with fuel in Heq by lia.
  rewrite app_nil_r in Heq.
  change (first_id [] None) with (@None nat) in Heq.
  change (last_id [] None) with (@None nat) in Heq.
  rewrite Heq, copy_loop_None. eauto.
Qed.

Lemma dlseg_length_le_size {X} (m : gmap nat (Node X)) p L n :
  dlseg m p L n → NoDup (ids L) → (length L ≤ size m)%nat.
Proof.
  intros Hseg Hnd.
  assert (list_to_set (ids L) ⊆ dom m) as Hsub.
  { intros h Hh. apply elem_of_list_to_set in Hh.
    apply list_elem_of_fmap in Hh as (s & -> & Hs).
    destruct (dlseg_lookup _ _ _ _ _ Hseg Hs) as (p' & n' & Hl).
    apply elem_of_dom. eauto. }
  apply subseteq_size in Hsub.
  rewrite size_list_to_set, size_dom in Hsub by done.
  unfold ids in Hsub. by rewrite length_fmap in Hsub.
Qed.

Lemma kin_copyable st Lo Lm A R :
  Rep st Lo Lm → kin Lo Lm → Lm = A ++ R →
  ∀ L nA, dlseg (muts st) (last_id A None) L nA → (∀ s, s ∈ L → s ∈ R) →
          NoDup (ids L) →
          copyable st Lo [] L (last_id A None) nA.
Proof.
  intros HR HK HL L nA Hseg Hsub Hnd. split; try done.
  - apply HR.
  - intros s _. apply not_elem_of_nil.
  - apply NoDup_nil_2.
  - apply HR.
  - intros s Hs. destruct (kin_parent _ _ HK s) as (o & ? & ? & _); [|eauto].
    rewrite HL. apply elem_of_app. right. by apply Hsub.
Qed.

(** [amp] after the guards and the splits. *)
Lemma amp_Rep st st1 Lo Lm bgn end_ :
  rejected bgn end_ st = Ok false → _2split bgn end_ st = Ok st1 →
  Rep st1 Lo Lm → kin Lo Lm →
  (no_region bgn end_ Lm ∧ amp bgn end_ st = Raise TypeError) ∨
  (∃ A mid D sih sit st',
     region bgn end_ Lm A mid D sih sit ∧
     amp bgn end_ st = Ok (true, st') ∧
     Rep st' (adopt_all (mut_next st1) mid Lo)
       (A ++ mid ++ (shift_seg (end_ - bgn + 1) <$> (copies (mut_next st1) mid ++ D))) ∧
     chrm st' = (tri_split_str (chrm st1) bgn end_).1.1
                ++ (tri_split_str (chrm st1) bgn end_).1.2
                ++ (tri_split_str (chrm st1) bgn end_).1.2
                ++ (tri_split_str (chrm st1) bgn end_).2).
Proof.
  intros Hrj Hsp HR HK. pose proof HR as [HRo HRm Hon Hmn].
  pose proof (rep_size _ _ _ HRm) as Hsize.
  unfold amp. rewrite Hrj, bind_Ok. cbv beta iota. rewrite Hsp, bind_Ok.
  unfold _copy_from_to.
  destruct (scan_bgn _ _ _ bgn HRm) as [[Hall H1]|(A & s & R & HL & HA & Hs & H1)].
  { left. split; [by left|]. by rewrite H1, bind_Ok, copy_loop_None. }
  rewrite H1, bind_Ok.
  pose proof (rep_seg _ _ _ HRm) as Hseg. rewrite HL in Hseg.
  apply dlseg_app in Hseg as [HsA HsR].
  pose proof (rep_nodup _ _ _ HRm) as Hnd. rewrite HL, ids_app in Hnd.
  apply NoDup_app in Hnd as (HndA & HAR & HndR).
  destruct (first_split (λ s, bool_decide (s_end s = end_)) (s :: R))
    as [Hall|(C & sit & D & HR' & HC & Hsit)].
  { left. apply Forall_bool_decide_ne in Hall. split; [right; by exists A, s, R|].
    destruct (copy_loop_missed end_ (s :: R) (size (muts st1)) st1 Lo (last_id A None))
      as (st' & Hst'); [|done| |].
    - by apply (kin_copyable st1 Lo Lm A (s :: R)).
    - rewrite Hsize, HL, length_app. lia.
    - simpl first_id in Hst'. by rewrite Hst'. }
  apply Forall_bool_decide_ne in HC. apply bool_decide_eq_true in Hsit.
  right. exists A, (C ++ [sit]), D, s, sit.
  pose proof (region_intro bgn end_ A s R C sit D HA Hs HR' HC Hsit) as Hrg.
  rewrite <- HL in Hrg.
  destruct (region_cells _ _ _ _ _ _ _ _ _ _ HRm Hrg) as ((n & Hih) & (p & Hit) & _ & Hsm & HsD).
  destruct (region_ends _ _ _ _ _ _ _ _ Hrg) as (Hf & Hl & Hihm & Hitm).
  destruct (region_nodup _ _ _ _ _ _ _ _ Hrg (rep_nodup _ _ _ HRm))
    as (_ & Hndm & HndD & HAm & HAD & HmD).
  pose proof (rg_L _ _ _ _ _ _ _ _ Hrg) as HL'.
  set (mid := C ++ [sit]) in *.
  set (oh := last_id A None) in *. set (ot := first_id D None) in *.
  assert (∀ x, ot = Some x → x ∈ ids D) as Hot by (intros x; apply first_id_in).
  destruct (copy_loop_found end_ C sit (size (muts st1)) st1 Lo oh ot)
    as (st2 & hb & tb & Hcl & Hhb & Htb & Hcp); [|done|done| |].
  { apply (kin_copyable st1 Lo Lm A (s :: R)); [done..| |done].
    intros x Hx. rewrite HR'. fold mid in Hx.
    change (C ++ sit :: D) with (C ++ [sit] ++ D). rewrite app_assoc.
    apply elem_of_app. by left. }
  { rewrite Hsize, HL', !length_app. unfold mid. rewrite length_app. simpl. lia. }
  fold mid in Hcl, Hhb, Htb, Hcp.
  rewrite (first_id_Some _ ot _ Hf) in Hcl. rewrite Hcl, bind_Ok. cbv beta iota.
  destruct Hcp as [HB2 Hout2 Hdom2 Hnext2 HRo2 Hodom2 Hch2 Hmut2 Hon2].
  simpl in HB2.
  set (nx := mut_next st1) in *. set (midB := copies nx mid) in *.
  assert (∀ x, x ∈ Lm → (s_id x < nx)%nat) as Hold by (intros x; by eapply Rep_mut_lt).
  assert (∀ h, h ∈ ids Lm → (h < nx)%nat) as Hold'.
  { intros h Hh. apply list_elem_of_fmap in Hh as (x & -> & Hx). by apply Hold. }
  assert (∀ h, h ∈ ids midB → (nx ≤ h)%nat) as Hnew.
  { intros h Hh. apply ids_copies in Hh. lia. }
  assert (∀ h, h ∈ ids A → h ∈ ids Lm) as HAL by (intros h; rewrite HL', !ids_app, !elem_of_app; tauto).
  assert (∀ h, h ∈ ids mid → h ∈ ids Lm) as HmL by (intros h; rewrite HL', !ids_app, !elem_of_app; tauto).
  assert (∀ h, h ∈ ids D → h ∈ ids Lm) as HDL by (intros h; rewrite HL', !ids_app, !elem_of_app; tauto).
  assert (∀ h, h ∈ ids Lm → muts st2 !! h = muts st1 !! h) as Hsame2.
  { intros h Hh. apply Hout2; [apply not_elem_of_nil|by apply Hold']. }
  assert (hb ∈ ids midB) as Hhbi by (by apply first_id_in).
  assert (tb ∈ ids midB) as Htbi by (by apply last_id_in).
  assert (s_id sit ∈ ids mid) as Hiti by (by apply elem_of_ids).
  assert (NoDup (ids midB)) as HndB.
  { clear -nx. unfold midB. generalize nx. induction mid as [|x t IH]; intros k; simpl.
    - apply NoDup_nil_2.
    - apply NoDup_cons. split; [|apply IH]. rewrite ids_copies. lia. }
  rewrite (rd_Some _ _ (cell p ot sit)), bind_Ok by (rewrite Hsame2; [done|by apply HmL]).
  cbn [n_r cell].
  set (m1 := alter (set_r (Some hb)) (s_id sit) (muts st2)).
  set (m2 := alter (set_l (Some (s_id sit))) hb m1).
  set (m3 := alter (set_r ot) tb m2).
  set (m4 := match ot with Some x => alter (set_l (Some tb)) x m3 | None => m3 end).
  assert (∀ h, h ≠ s_id sit → m1 !! h = muts st2 !! h) as F1
    by (intros h Hh; unfold m1; by lk).
  assert (∀ h, h ≠ hb → h ≠ tb → m3 !! h = m1 !! h) as F3
    by (intros h Hh1 Hh2; unfold m3, m2; by lk).
  assert (∀ h, h ∉ ids D → m4 !! h = m3 !! h) as F4.
  { intros h Hh. apply lookup_alter_opt. intros x Hx ->. apply Hh. by apply Hot. }
  assert (∀ h, h ∈ ids Lm → h ∉ ids midB) as Hdisj.
  { intros h Hh Hb. apply Hold' in Hh. apply Hnew in Hb. lia. }
  assert (∀ h, h ∈ ids Lm → h ≠ hb ∧ h ≠ tb) as Hnb.
  { intros h Hh. split; intros ->; by eapply Hdisj. }
  assert (dlseg m4 None A (Some (s_id s))) as HA4.
  { eapply dlseg_frame; [|exact HsA]. intros h Hh.
    destruct (Hnb h (HAL h Hh)).
    rewrite F4, F3, F1, Hsame2; [done|by apply HAL| |done|done|by apply HAD].
    intros ->. by apply (HAm _ Hh). }
  assert (dlseg m4 oh mid (Some hb)) as Hmid4.
  { assert (dlseg (muts st2) oh mid ot) as Hmid2.
    { eapply dlseg_frame; [|exact Hsm]. intros h Hh. apply Hsame2. by apply HmL. }
    pose proof (dlseg_set_last_opt _ _ _ _ (Some hb) Hmid2 Hndm) as Hm1. rewrite Hl in Hm1.
    eapply dlseg_frame; [|exact Hm1]. intros h Hh.
    destruct (Hnb h (HmL h Hh)).
    rewrite F4, F3; [done..|by apply HmD]. }
  assert (dlseg m4 (Some (s_id sit)) midB ot) as HB4.
  { assert (dlseg m1 None midB None) as HB1.
    { eapply dlseg_frame; [|exact HB2]. intros h Hh. apply F1.
      intros ->. by apply (Hdisj _ (HmL _ Hiti)). }
    pose proof (dlseg_set_first_opt _ _ (Some (s_id sit)) _ _ HB1 HndB) as HB2'.
    rewrite Hhb in HB2'.
    pose proof (dlseg_set_last_opt _ _ _ _ ot HB2' HndB) as HB3. rewrite Htb in HB3.
    eapply dlseg_frame; [|exact HB3]. intros h Hh. apply F4.
    intros HD'. by apply (Hdisj _ (HDL _ HD')). }
  assert (dlseg m4 (Some tb) D None) as HD4.
  { assert (dlseg m3 (Some (s_id sit)) D None) as HD3.
    { eapply dlseg_frame; [|exact HsD]. intros h Hh.
      destruct (Hnb h (HDL h Hh)).
      rewrite F3, F1, Hsame2; [done|by apply HDL| |done|done].
      intros ->. by apply (HmD _ Hiti). }
    exact (dlseg_set_first_opt _ _ (Some tb) _ _ HD3 HndD). }
  assert (dlseg m4 (Some (s_id sit)) (midB ++ D) None) as HBD4.
  { apply dlseg_app. split; [done|]. by rewrite (last_id_Some _ _ _ Htb). }
  assert (NoDup (ids (midB ++ D))) as HndBD.
  { rewrite ids_app. apply NoDup_app. split; [done|]. split; [|done].
    intros h Hh HD'. by apply (Hdisj _ (HDL _ HD')). }
  destruct (shift_loop_spec (end_ - bgn + 1) (midB ++ D) (size m4) m4 (Some (s_id sit)))
    as (m5 & Hm5 & HBD5 & Hout5); [done|done|by eapply dlseg_length_le_size|].
  rewrite first_id_app, (first_id_Some _ _ _ Hhb) in Hm5. rewrite Hm5, bind_Ok.
  assert (chrm (with_muts m5 st2) = chrm st1) as Hc by done.
  rewrite Hc.
  destruct (tri_split_str (chrm st1) bgn end_) as [[s1 s2] s3].
  eexists. split; [done|]. split; [reflexivity|]. split; [|done].
  apply (Rep_with_chrm _ (with_muts m5 st2)).
  assert (∀ h, h ∈ ids Lm → h ∉ ids D → m5 !! h = m4 !! h) as F5.
  { intros h Hh HD'. apply Hout5. rewrite ids_app, not_elem_of_app. split; [|done].
    by apply Hdisj. }
  split; simpl.
  - done.
  - split.
    + apply dlseg_app. split.
      * rewrite first_id_app, (first_id_Some _ _ _ Hf).
        eapply dlseg_frame; [|exact HA4]. intros h Hh.
        apply F5; [by apply HAL|by apply HAD].
      * apply dlseg_app. split.
        -- rewrite (first_id_fmap_id (shift_seg _)), first_id_app, (first_id_Some _ _ _ Hhb)
             by done.
           eapply dlseg_frame; [|exact Hmid4]. intros h Hh.
           apply F5; [by apply HmL|by apply HmD].
        -- by rewrite (last_id_Some _ _ _ Hl).
    + rewrite Hmut2, (rep_hd _ _ _ HRm), HL'.
      rewrite !first_id_app. by rewrite !(first_id_Some mid _ _ Hf).
    + rewrite !ids_app, (ids_fmap_id (shift_seg _)), ids_app by done.
      apply NoDup_app. split; [done|]. split.
      * intros h Hh. rewrite !elem_of_app. intros [Hm|[Hb|HD']].
        -- by apply (HAm _ Hh).
        -- by apply (Hdisj _ (HAL _ Hh)).
        -- by apply (HAD _ Hh).
      * apply NoDup_app. split; [done|]. split; [|by rewrite <- ids_app].
        intros h Hh. rewrite !elem_of_app. intros [Hb|HD'].
        -- by apply (Hdisj _ (HmL _ Hh)).
        -- by apply (HmD _ Hh).
    + intros h Hh. rewrite !ids_app, (ids_fmap_id (shift_seg _)), ids_app, !elem_of_app by done.
      destruct (decide (h ∈ ids (midB ++ D))) as [Hin|Hnin].
      { rewrite ids_app, elem_of_app in Hin. tauto. }
      rewrite Hout5 in Hh by done.
      assert (is_Some (muts st2 !! h)) as Hh2.
      { unfold m4 in Hh. rewrite is_Some_alter_opt in Hh. unfold m3, m2, m1 in Hh.
        by rewrite !lookup_alter_is_Some in Hh. }
      destruct (Hdom2 h Hh2) as [Hh1|Hrange].
      * apply (rep_dom _ _ _ HRm) in Hh1.
        rewrite HL', !ids_app, !elem_of_app in Hh1. tauto.
      * exfalso. apply Hnin. rewrite ids_app, elem_of_app. left.
        apply ids_copies. rewrite Hnext2 in Hrange. done.
  - intros h Hh. rewrite Hon2. apply Hon. by apply Hodom2.
  - intros h Hh.
    assert (is_Some (muts st2 !! h) ∨ h ∈ ids (midB ++ D)) as [Hh2|Hin].
    { destruct (decide (h ∈ ids (midB ++ D))) as [?|Hnin]; [by right|left].
      rewrite Hout5 in Hh by done.
      unfold m4 in Hh. rewrite is_Some_alter_opt in Hh. unfold m3, m2, m1 in Hh.
      by rewrite !lookup_alter_is_Some in Hh. }
    + destruct (Hdom2 h Hh2) as [Hh1|?]; [|lia].
      apply Hmn in Hh1. fold nx in Hh1. lia.
    + rewrite ids_app, elem_of_app in Hin. destruct Hin as [Hb|HD'].
      * apply ids_copies in Hb. lia.
      * apply HDL, Hold' in HD'. lia.
Qed.

(** The handles of the copies whose parent is [oid]. *)
Definition kids_of (next : nat) (L : list (Seg MutX)) (oid : nat) : list nat :=
  ids (filter (λ x, parent (s_ext x) = Some oid) (copies next L)).

Lemma add_kids_nil o : add_kids [] o = o.
Proof. unfold add_kids. rewrite app_nil_r. by destruct o as [? ? ? []]. Qed.

Lemma add_kids_add_kids l1 l2 o : add_kids l2 (add_kids l1 o) = add_kids (l1 ++ l2) o.
Proof. unfold add_kids. simpl. by rewrite app_assoc. Qed.

Lemma adopt_all_fmap L : ∀ next Lo,
  adopt_all next L Lo = (λ o, add_kids (kids_of next L (s_id o)) o) <$> Lo.
Proof.
  induction L as [|s t IH]; intros next Lo; simpl.
  - rewrite <- (list_fmap_id Lo) at 1. apply list_fmap_ext. intros _ o _.
    unfold kids_of. simpl. by rewrite add_kids_nil.
  - rewrite IH, <- list_fmap_compose. apply list_fmap_ext. intros _ o _. simpl.
    rewrite adopt_id. unfold kids_of, adopt. simpl copies. rewrite filter_cons. simpl.
    case_bool_decide as Hp.
    + rewrite decide_True by done. by rewrite add_kids_add_kids.
    + by rewrite decide_False by done.
Qed.

Lemma copies_elem next L x :
  x ∈ copies next L →
  ∃ s, s ∈ L ∧ s_bgn x = s_bgn s ∧ s_end x = s_end s ∧ s_ext x = s_ext s.
Proof.
  revert next. induction L as [|s t IH]; intros next; simpl.
  - by intros ?%elem_of_nil.
  - intros [->|Hx]%elem_of_cons.
    + exists s. split; [left|done].
    + destruct (IH _ Hx) as (s' & ? & ?). exists s'. split; [by right|done].
Qed.

Lemma tiling_copies next (L : list (Seg MutX)) : ∀ z z',
  tiling z L z' → tiling z (copies next L) z'.
Proof.
  revert next. induction L as [|s t IH]; intros next z z'; simpl; [done|].
  intros (? & ? & ?). eauto.
Qed.

Lemma NoDup_ids_filter {X} (P : Seg X → Prop) `{∀ x, Decision (P x)} (L : list (Seg X)) :
  NoDup (ids L) → NoDup (ids (filter P L)).
Proof.
  induction L as [|s t IH]; [done|]. simpl. intros [Hs Hnd]%NoDup_cons.
  rewrite filter_cons. destruct (decide (P s)); [|by apply IH].
  simpl. apply NoDup_cons. split; [|by apply IH].
  intros Hin. apply Hs. apply list_elem_of_fmap in Hin as (x & -> & Hx).
  apply list_elem_of_filter in Hx as [_ Hx]. by apply elem_of_ids.
Qed.

Lemma amp_kin Lo bgn end_ d nx (Lm A mid D : list (Seg MutX)) sih sit :
  region bgn end_ Lm A mid D sih sit → NoDup (ids (copies nx mid)) →
  (∀ s, s ∈ Lm → (s_id s < nx)%nat) → kin Lo Lm →
  kin (adopt_all nx mid Lo) (A ++ mid ++ (shift_seg d <$> (copies nx mid ++ D))).
Proof.
  intros Hrg HndB Hold HK. rewrite adopt_all_fmap.
  pose proof (rg_L _ _ _ _ _ _ _ _ Hrg) as HL. pose proof HK as [K1 K2].
  set (F := λ o : Seg OrgX, add_kids (kids_of nx mid (s_id o)) o).
  split.
  - intros x Hx. rewrite !elem_of_app, list_elem_of_fmap in Hx.
    assert (∀ s, s ∈ Lm → ∃ o, o ∈ F <$> Lo ∧ parent (s_ext s) = Some (s_id o) ∧
              s_id s ∈ children (s_ext o) ∧ s_end s - s_bgn s = s_end o - s_bgn o) as Hold1.
    { intros s Hs. destruct (K1 s Hs) as (o & Ho & Hp & Hc & Hlen).
      exists (F o). split; [by apply list_elem_of_fmap_2|]. simpl.
      repeat split; [done| |done]. apply elem_of_app. by left. }
    destruct Hx as [Hx|[Hx|(s' & -> & Hs')]].
    + apply Hold1. rewrite HL, !elem_of_app. tauto.
    + apply Hold1. rewrite HL, !elem_of_app. tauto.
    + apply elem_of_app in Hs' as [Hb|HD'].
      * destruct (copies_elem _ _ _ Hb) as (s & Hs & Hbg & Hen & Hex).
        destruct (K1 s) as (o & Ho & Hp & Hc & Hlen); [rewrite HL, !elem_of_app; tauto|].
        exists (F o). split; [by apply list_elem_of_fmap_2|]. simpl.
        rewrite Hex, Hbg, Hen. repeat split; [done| |lia].
        apply elem_of_app. right. unfold kids_of. apply elem_of_ids.
        apply list_elem_of_filter. split; [|done]. by rewrite Hex.
      * destruct (Hold1 s') as (o & ? & ? & ? & ?); [rewrite HL, !elem_of_app; tauto|].
        exists o. simpl. repeat split; [done..|lia].
  - intros o' Ho'. apply list_elem_of_fmap in Ho' as (o & -> & Ho).
    destruct (K2 o Ho) as [HndC Hk]. simpl. split.
    + apply NoDup_app. split; [done|]. split; [|by apply NoDup_ids_filter].
      intros c Hc Hkid. destruct (Hk c Hc) as (s & Hs & <- & _).
      apply Hold in Hs. unfold kids_of in Hkid.
      apply list_elem_of_fmap in Hkid as (x & Hid & Hx).
      apply list_elem_of_filter in Hx as [_ Hx]. apply elem_of_ids, ids_copies in Hx. lia.
    + intros c [Hc|Hc]%elem_of_app.
      * destruct (Hk c Hc) as (s & Hs & Hid & Hp).
        rewrite HL, !elem_of_app in Hs. destruct Hs as [Hs|[Hs|Hs]].
        -- exists s. rewrite !elem_of_app. tauto.
        -- exists s. rewrite !elem_of_app. tauto.
        -- exists (shift_seg d s). rewrite !elem_of_app, list_elem_of_fmap.
           split; [|done]. right. right. exists s. rewrite elem_of_app. tauto.
      * unfold kids_of in Hc. apply list_elem_of_fmap in Hc as (x & -> & Hx).
        apply list_elem_of_filter in Hx as [Hp Hx].
        exists (shift_seg d x). rewrite !elem_of_app, list_elem_of_fmap.
        split; [|done]. right. right. exists x. rewrite elem_of_app. tauto.
Qed.

Lemma NoDup_ids_copies nx (L : list (Seg MutX)) : NoDup (ids (copies nx L)).
Proof.
  revert nx. induction L as [|x t IH]; intros k; simpl.
  - apply NoDup_nil_2.
  - apply NoDup_cons. split; [|apply IH]. rewrite ids_copies. lia.
Qed.

Lemma amp_AInv N M Lo bgn end_ nx (Lm A mid D : list (Seg MutX)) sih sit :
  region bgn end_ Lm A mid D sih sit →
  (∀ s, s ∈ Lm → (s_id s < nx)%nat) → AInv N M Lo Lm →
  AInv N (M + (end_ - bgn + 1)) (adopt_all nx mid Lo)
       (A ++ mid ++ (shift_seg (end_ - bgn + 1) <$> (copies nx mid ++ D))).
Proof.
  intros Hrg Hold [HtO HtM HK].
  destruct (region_tiling _ _ _ _ _ _ _ _ _ _ Hrg HtM) as (HtA & Htm & HtD).
  split.
  - rewrite adopt_all_fmap. by apply tiling_fmap_same.
  - apply tiling_app. exists bgn. split; [done|].
    apply tiling_app. exists (end_ + 1). split; [done|].
    rewrite fmap_app. apply tiling_app. exists (end_ + 1 + (end_ - bgn + 1)). split.
    + apply (tiling_copies nx), (tiling_shift (end_ - bgn + 1)) in Htm.
      by replace (bgn + (end_ - bgn + 1)) with (end_ + 1) in Htm by lia.
    + by apply tiling_shift.
  - eapply amp_kin; [done|apply NoDup_ids_copies|done|done].
Qed.

(** What [amp] does on a good profile. *)
Lemma amp_spec N st Lo Lm bgn end_ :
  Rep st Lo Lm → AInv N (len st) Lo Lm →
  (rejected bgn end_ st = Ok true ∧ amp bgn end_ st = Ok (false, st)) ∨
  (rejected bgn end_ st = Ok false ∧
   ∃ st1 Lo1 Lm1,
     _2split bgn end_ st = Ok st1 ∧ Rep st1 Lo1 Lm1 ∧ AInv N (len st) Lo1 Lm1 ∧
     chrm st1 = chrm st ∧ keeps Lm Lm1 ∧
     ((no_region bgn end_ Lm1 ∧ amp bgn end_ st = Raise TypeError) ∨
      (∃ A mid D sih sit st',
         let Lo' := adopt_all (mut_next st1) mid Lo1 in
         let Lm' := A ++ mid ++ (shift_seg (end_ - bgn + 1) <$>
                                   (copies (mut_next st1) mid ++ D)) in
         region bgn end_ Lm1 A mid D sih sit ∧
         amp bgn end_ st = Ok (true, st') ∧
         Rep st' Lo' Lm' ∧ AInv N (len st') Lo' Lm' ∧
         chrm st' = take (Z.to_nat bgn) (chrm st)
                    ++ take (Z.to_nat (end_ - bgn + 1)) (drop (Z.to_nat bgn) (chrm st))
                    ++ take (Z.to_nat (end_ - bgn + 1)) (drop (Z.to_nat bgn) (chrm st))
                    ++ drop (Z.to_nat (end_ + 1)) (chrm st) ∧
         len st' = len st + (end_ - bgn + 1)))).
Proof.
  intros HR HA.
  destruct (rejected_spec _ _ _ bgn end_ HR) as ([|] & Hrj & Hb).
  { left. split; [done|]. unfold amp. by rewrite Hrj. }
  right. split; [done|].
  destruct (proj1 Hb eq_refl) as [[Hbe He] _].
  destruct (_2split_good N st Lo Lm bgn end_ HR HA Hbe)
    as (st1 & Lo1 & Lm1 & Hsp & HR1 & HA1 & Hch & Hk).
  assert (len st1 = len st) as Hlen1 by (unfold len; by rewrite Hch).
  rewrite Hlen1 in HA1.
  exists st1, Lo1, Lm1. do 5 (split; [done|]).
  destruct (amp_Rep st st1 Lo1 Lm1 bgn end_ Hrj Hsp HR1 (AI_kin _ _ _ _ HA1))
    as [?|(A & mid & D & sih & sit & st' & Hrg & Hamp & HR' & Hch')]; [by left|].
  right. exists A, mid, D, sih, sit, st'.
  pose proof (tri_split_str_parts (chrm st) bgn end_ Hbe He) as Hparts.
  rewrite Hch, (tri_split_str_in_bounds _ _ _ Hbe He) in Hch'.
  rewrite (tri_split_str_in_bounds _ _ _ Hbe He) in Hparts.
  simpl in Hch'. destruct Hparts as (Hs & Hl1 & Hl2).
  assert (len st' = len st + (end_ - bgn + 1)) as Hlen.
  { unfold len. rewrite Hch'. rewrite Hs at 5. rewrite !length_app. lia. }
  cbv zeta. do 3 (split; [done|]). split; [|done].
  rewrite Hlen. eapply amp_AInv; [done| |done].
  intros s Hs'. by eapply Rep_mut_lt.
Qed.

(** * Profiles are determined by their sequences *)

Lemma rep_inj {X} (m m' : gmap nat (Node X)) hd hd' L :
  rep m hd L → rep m' hd' L → m = m' ∧ hd = hd'.
Proof.
  intros [Hs Hh Hn Hd] [Hs' Hh' Hn' Hd']. split; [|congruence].
  apply map_eq. intros h. destruct (decide (h ∈ ids L)) as [Hin|Hnin].
  - apply ids_split in Hin as (L1 & s & L2 & -> & <-).
    by rewrite (dlseg_middle _ _ _ _ _ _ Hs), (dlseg_middle _ _ _ _ _ _ Hs').
  - destruct (m !! h) eqn:E1; [exfalso; apply Hnin, Hd; eauto|].
    destruct (m' !! h) eqn:E2; [exfalso; apply Hnin, Hd'; eauto|]. done.
Qed.

Lemma rep_fun {X} (m : gmap nat (Node X)) hd L L' :
  rep m hd L → rep m hd L' → L = L'.
Proof.
  intros [Hs Hh Hn Hd] [Hs' Hh' Hn' Hd']. rewrite Hh in Hh'. clear Hh Hd Hd' Hn Hn'.
  revert Hs Hs' Hh'. generalize (@None nat) at 1 3 as p. revert L'.
  induction L as [|s L IH]; intros [|s' L'] p; simpl; try done.
  intros [Hc Hs] [Hc' Hs'] [= Hid]. rewrite Hid in Hc. rewrite Hc in Hc'.
  injection Hc' as Hf Hb He Hx.
  assert (s = s') as -> by (destruct s, s'; simpl in *; congruence).
  f_equal. eapply IH; done.
Qed.

Lemma ChrmProf_eq st st' :
  chrm st = chrm st' → org st = org st' → mut st = mut st' →
  orgs st = orgs st' → muts st = muts st' →
  org_next st = org_next st' → mut_next st = mut_next st' → st = st'.
Proof. destruct st, st'. simpl. by intros -> -> -> -> -> -> ->. Qed.

(** ** The whole sequence as a region *)

Lemma tiling_last {X} z (L : list (Seg X)) s z' :
  tiling z (L ++ [s]) z' → s_end s = z' - 1.
Proof. rewrite tiling_app. intros (w & _ & Hs). simpl in Hs. lia. Qed.

Lemma whole_region {X} M (L A mid D : list (Seg X)) sih sit :
  tiling 0 L M → region 0 (M - 1) L A mid D sih sit → A = [] ∧ D = [] ∧ mid = L.
Proof.
  intros Ht Hrg. destruct (region_tiling _ _ _ _ _ _ _ _ _ _ Hrg Ht) as (HtA & Htm & HtD).
  pose proof (rg_L _ _ _ _ _ _ _ _ Hrg) as HL.
  assert (A = []) as ->.
  { destruct A as [|a A]; [done|]. simpl in HtA. destruct HtA as (Ha & _ & _).
    pose proof (rg_A _ _ _ _ _ _ _ _ Hrg) as HA. apply Forall_cons in HA as [? _]. done. }
  assert (D = []) as ->.
  { destruct D as [|d D]; [done|]. simpl in HtD. destruct HtD as (Hd & Hde & HtD).
    apply tiling_le in HtD. lia. }
  by rewrite app_nil_r in HL.
Qed.

Lemma whole_region_exists {X} M (L : list (Seg X)) :
  tiling 0 L M → 0 < M → ¬ no_region 0 (M - 1) L.
Proof.
  intros Ht HM [Hall|(A & s & R & -> & HA & Hs & Hall)].
  - destruct L as [|x L]; [simpl in Ht; lia|]. simpl in Ht.
    apply Forall_cons in Hall as [Hx _]. lia.
  - apply tiling_app in Ht as (w & _ & Ht).
    remember (s :: R) as L eqn:HLeq. clear HA Hs.
    destruct L as [|x R' _] using rev_ind; [done|].
    apply tiling_last in Ht. apply Forall_app in Hall as [_ Hx].
    apply Forall_cons in Hx as [Hx _]. lia.
Qed.

(** * Reachable profiles *)

(** The three operations of a profile. *)
Inductive op : Type := Invert | Delete | Amplify.

Definition run (o : op) (bgn end_ : Z) (st : ChrmProf) : res (bool * ChrmProf) :=
  match o with
  | Invert => inv bgn end_ st
  | Delete => rem bgn end_ st
  | Amplify => amp bgn end_ st
  end.

(** The profiles that calls which return build from [create s]. *)
Inductive reachable (s : list ascii) : ChrmProf → Prop :=
| reach_create : reachable s (create s)
| reach_step st o bgn end_ b st' :
    reachable s st → run o bgn end_ st = Ok (b, st') → reachable s st'.

(** A good profile holds two tiled, consistent lists; the profile of the
    empty string holds one empty segment on each side and never changes. *)
Definition Good (N : Z) (st : ChrmProf) : Prop :=
  (0 < N ∧ ∃ Lo Lm, Rep st Lo Lm ∧ AInv N (len st) Lo Lm) ∨
  (N = 0 ∧ st = create []).

Lemma create_Rep s :
  let e := Z.of_nat (length s) - 1 in
  Rep (create s) [mkSeg 0%nat 0 e (mkOrgX [0%nat])]
                 [mkSeg 0%nat 0 e (mkMutX (Some 0%nat) false)].
Proof.
  intros e. split; simpl.
  - split; simpl; [by rewrite lookup_singleton_eq|done|apply NoDup_singleton|].
    intros h [n Hn]. apply lookup_singleton_Some in Hn as [<- _]. left.
  - split; simpl; [by rewrite lookup_singleton_eq|done|apply NoDup_singleton|].
    intros h [n Hn]. apply lookup_singleton_Some in Hn as [<- _]. left.
  - intros h [n Hn]. apply lookup_singleton_Some in Hn as [<- _]. lia.
  - intros h [n Hn]. apply lookup_singleton_Some in Hn as [<- _]. lia.
Qed.

Lemma create_Good s : Good (Z.of_nat (length s)) (create s).
Proof.
  destruct s as [|c s]; [by right|]. left. split; [simpl; lia|].
  eexists _, _. split; [apply create_Rep|]. split.
  - simpl. lia.
  - unfold len. simpl. lia.
  - split.
    + intros x Hx. apply list_elem_of_singleton in Hx as ->.
      eexists. split; [left|]. simpl. repeat split. left.
    + intros o Ho. apply list_elem_of_singleton in Ho as ->. simpl.
      split; [apply NoDup_singleton|]. intros c' Hc'.
      apply list_elem_of_singleton in Hc' as ->.
      eexists. split; [left|]. done.
Qed.

Lemma rejected_empty bgn end_ st : len st = 0 → rejected bgn end_ st = Ok true.
Proof.
  intros Hl. unfold rejected, _is_in_bounds. rewrite Hl.
  destruct (decide (bgn < 0)); [by rewrite (bool_decide_eq_true_2 (bgn < 0))|].
  destruct (decide (bgn > end_)).
  { rewrite (bool_decide_eq_true_2 (bgn > end_)) by done. by rewrite orb_true_r. }
  rewrite (bool_decide_eq_true_2 (end_ >= 0)) by lia. by rewrite !orb_true_r.
Qed.

Lemma run_empty o bgn end_ st : len st = 0 → run o bgn end_ st = Ok (false, st).
Proof.
  intros Hl. pose proof (rejected_empty bgn end_ st Hl) as Hrj.
  destruct o; simpl; unfold inv, rem, amp; by rewrite Hrj.
Qed.

Lemma run_Good N o bgn end_ st b st' :
  Good N st → run o bgn end_ st = Ok (b, st') → Good N st'.
Proof.
  intros [[HN (Lo & Lm & HR & HA)]|[-> ->]] Hrun.
  - left. split; [done|]. destruct o; simpl in Hrun.
    + destruct (inv_spec N st Lo Lm bgn end_ HR HA)
        as [[_ Heq]|(_ & st1 & Lo1 & Lm1 & _ & _ & _ & _ & _ &
             [[_ Heq]|(A & mid & D & sih & sit & st2 & _ & Heq & HR' & HA' & _)])];
        rewrite Heq in Hrun; try done; injection Hrun as <- <-; eauto.
    + destruct (rem_spec N st Lo Lm bgn end_ HR HA)
        as [[_ Heq]|(_ & st1 & Lo1 & Lm1 & _ & _ & _ & _ & _ &
             [[_ Heq]|(A & mid & D & sih & sit & st2 & _ & Heq & HR' & HA' & _)])];
        rewrite Heq in Hrun; try done; injection Hrun as <- <-; eauto.
    + destruct (amp_spec N st Lo Lm bgn end_ HR HA)
        as [[_ Heq]|(_ & st1 & Lo1 & Lm1 & _ & _ & _ & _ & _ &
             [[_ Heq]|(A & mid & D & sih & sit & st2 & _ & Heq & HR' & HA' & _)])];
        rewrite Heq in Hrun; try done; injection Hrun as <- <-; eauto.
  - rewrite run_empty in Hrun by done. injection Hrun as <- <-. by right.
Qed.

Lemma reachable_Good s st : reachable s st → Good (Z.of_nat (length s)) st.
Proof.
  induction 1 as [|st o bgn end_ b st' _ IH Hrun]; [apply create_Good|].
  by eapply run_Good.
Qed.

(** No call on a good profile is stuck: it returns or raises as Python does. *)
Lemma run_not_Stuck N o bgn end_ st : Good N st → run o bgn end_ st ≠ Stuck.
Proof.
  intros [[HN (Lo & Lm & HR & HA)]|[-> ->]].
  - destruct o; simpl.
    + destruct (inv_spec N st Lo Lm bgn end_ HR HA)
        as [[_ Heq]|(_ & st1 & Lo1 & Lm1 & _ & _ & _ & _ & _ &
             [[_ Heq]|(A & mid & D & sih & sit & st2 & _ & Heq & _)])]; by rewrite Heq.
    + destruct (rem_spec N st Lo Lm bgn end_ HR HA)
        as [[_ Heq]|(_ & st1 & Lo1 & Lm1 & _ & _ & _ & _ & _ &
             [[_ Heq]|(A & mid & D & sih & sit & st2 & _ & Heq & _)])]; by rewrite Heq.
    + destruct (amp_spec N st Lo Lm bgn end_ HR HA)
        as [[_ Heq]|(_ & st1 & Lo1 & Lm1 & _ & _ & _ & _ & _ &
             [[_ Heq]|(A & mid & D & sih & sit & st2 & _ & Heq & _)])]; by rewrite Heq.
  - by rewrite run_empty.
Qed.

(** * What a caller observes *)

(** The intervals of the original list, as [get_copy_nums] returns them,
    and those of the mutated list. *)
Definition org_intervals (st : ChrmProf) : res (list (Z * Z)) :=
  '(bgns, ends, _) ← get_copy_nums st; Ok (zip bgns ends).
Definition mut_intervals (st : ChrmProf) : res (list (Z * Z)) :=
  hs ← mut_chain st; Ok (interval <$> nodes_of (muts st) hs).

Definition total_len (l : list (Z * Z)) : Z :=
  foldr (λ i acc, (i.2 - i.1 + 1) + acc) 0 l.

Definition ivl {X} (L : list (Seg X)) : list (Z * Z) := (λ s, (s_bgn s, s_end s)) <$> L.

Section observe.
Context {X : Type}.
Implicit Types (m : gmap nat (Node X)) (L : list (Seg X)).

Lemma nodes_of_fmap {B} (f : Node X → B) (g : Seg X → B) m p L n :
  (∀ p n s, f (cell p n s) = g s) → dlseg m p L n →
  f <$> nodes_of m (ids L) = g <$> L.
Proof.
  intros Hfg. revert p. induction L as [|x L IH]; intros p; simpl; [done|].
  intros [Hl Hseg]. unfold nodes_of in *. simpl. rewrite Hl. simpl.
  rewrite Hfg. f_equal. by eapply IH.
Qed.

Lemma chain_from_rep m hd L : rep m hd L → chain_from (size m) m hd = Ok (ids L).
Proof.
  intros Hrep. rewrite (rep_hd _ _ _ Hrep).
  eapply chain_from_dlseg; [apply Hrep|]. by rewrite (rep_size _ _ _ Hrep).
Qed.

Lemma tiling_total z L z' : tiling z L z' → total_len (ivl L) = z' - z.
Proof.
  revert z. induction L as [|s L IH]; intros z; simpl; [lia|].
  intros (<- & ? & Ht). rewrite (IH _ Ht). lia.
Qed.


End observe.

Lemma get_copy_nums_Rep st Lo Lm :
  Rep st Lo Lm →
  get_copy_nums st = Ok (s_bgn <$> Lo, s_end <$> Lo,
                         (λ o, length (children (s_ext o))) <$> Lo).
Proof.
  intros [HRo _ _ _]. unfold get_copy_nums.
  rewrite (chain_from_rep _ _ _ HRo), bind_Ok.
  pose proof (rep_seg _ _ _ HRo) as Hseg.
  rewrite (nodes_of_fmap n_bgn s_bgn _ _ _ _ ltac:(done) Hseg).
  rewrite (nodes_of_fmap n_end s_end _ _ _ _ ltac:(done) Hseg).
  by rewrite (nodes_of_fmap (λ n, length (children (n_ext n)))
                 (λ o, length (children (s_ext o))) _ _ _ _ ltac:(done) Hseg).
Qed.

Lemma zip_fmap_ivl {X} (L : list (Seg X)) : zip (s_bgn <$> L) (s_end <$> L) = ivl L.
Proof. induction L as [|s L IH]; csimpl; [done|]. by rewrite IH. Qed.


Lemma mut_chain_Rep st Lo Lm : Rep st Lo Lm → mut_chain st = Ok (ids Lm).
Proof. intros [_ HRm _ _]. by apply chain_from_rep. Qed.

Lemma mut_intervals_Rep st Lo Lm : Rep st Lo Lm → mut_intervals st = Ok (ivl Lm).
Proof.
  intros HR. unfold mut_intervals. rewrite (mut_chain_Rep _ _ _ HR), bind_Ok.
  by rewrite (nodes_of_fmap interval (λ s, (s_bgn s, s_end s)) _ _ _ _ ltac:(done)
                (rep_seg _ _ _ (Rep_mut _ _ _ HR))).
Qed.

(** * The claims *)



Lemma filter_none {A} (P : A → Prop) `{∀ x, Decision (P x)} (l : list A) :
  (∀ x, x ∈ l → ¬ P x) → filter P l = [].
Proof.
  induction l as [|y l IH]; intros Hall; [done|].
  rewrite filter_cons_False by (apply Hall; left). apply IH.
  intros x Hx. apply Hall. by right.
Qed.

Lemma rejected_false_iff st Lo Lm bgn end_ :
  Rep st Lo Lm →
  (0 <= bgn <= end_ ∧ end_ < len st) → splitable bgn end_ (len st) Lm →
  rejected bgn end_ st = Ok false.
Proof.
  intros HR Hb Hs. destruct (rejected_spec _ _ _ bgn end_ HR) as (b & Hrj & Hiff).
  rewrite Hrj. f_equal. by apply Hiff.
Qed.

Lemma _2split_whole st : 0 < len st → _2split 0 (len st - 1) st = Ok st.
Proof.
  intros HM. unfold _2split.
  rewrite (bool_decide_eq_false_2 (0 > 0)) by lia. rewrite bind_Ok.
  by rewrite bool_decide_eq_false_2 by lia.
Qed.

(** C10.  On a reachable profile whose sequence is not empty,
    [rem(0, M-1)] returns [True]; afterwards the sequence and the mutated
    list are empty, [get_copy_nums] gives the same original segments as
    before with every copy number [0], and every further call of [inv],
    [rem] or [amp] returns [False] and leaves the profile as it is. *)
Theorem delete_all s st :
  reachable s st → 0 < len st →
  ∃ st' bgns ends cps cps',
    rem 0 (len st - 1) st = Ok (true, st') ∧
    chrm st' = [] ∧ mut st' = None ∧ mut_chain st' = Ok [] ∧
    get_copy_nums st = Ok (bgns, ends, cps) ∧
    get_copy_nums st' = Ok (bgns, ends, cps') ∧
    Forall (λ c, c = 0%nat) cps' ∧
    ∀ o bgn end_, run o bgn end_ st' = Ok (false, st').
Proof.
  intros Hreach HM.
  destruct (reachable_Good _ _ Hreach) as [[HN (Lo & Lm & HR & HA)]|[_ ->]];
    [|by unfold len in HM].
  assert (rejected 0 (len st - 1) st = Ok false) as Hrj.
  { eapply rejected_false_iff; [done|lia|]. split; [by left|left; lia]. }
  destruct (rem_spec _ _ _ _ 0 (len st - 1) HR HA)
    as [[Hrj' _]|(_ & st1 & Lo1 & Lm1 & Hsp & HR1 & HA1 & Hch & Hk & Hcases)];
    [congruence|].
  rewrite _2split_whole in Hsp by done. injection Hsp as Heq. subst st1.
  destruct Hcases as [[Hno _]|(A & mid & D & sih & sit & st' & Hrg & Hrem & HR' & HA' & Hch' & Hlen')].
  { exfalso. exact (whole_region_exists (len st) Lm1 (AI_mut _ _ _ _ HA1) HM Hno). }
  destruct (whole_region _ _ _ _ _ _ _ (AI_mut _ _ _ _ HA1) Hrg) as (-> & -> & ->).
  simpl in HR'.
  exists st', (s_bgn <$> Lo1), (s_end <$> Lo1),
    ((λ o, length (children (s_ext o))) <$> Lo1),
    ((λ o, length (children (s_ext o))) <$> (prune (ids Lm1) <$> Lo1)).
  split; [done|]. split; [|split; [|split; [|split; [|split; [|split]]]]].
  - rewrite Hch'. simpl.
    apply drop_ge. unfold len in *. lia.
  - by rewrite (rep_hd _ _ _ (Rep_mut _ _ _ HR')).
  - by rewrite (mut_chain_Rep _ _ _ HR').
  - by apply (get_copy_nums_Rep _ _ _ HR1).
  - rewrite (get_copy_nums_Rep _ _ _ HR'). by rewrite <- !list_fmap_compose.
  - apply Forall_fmap, Forall_fmap, Forall_forall. intros o Ho. simpl.
    destruct (kin_children _ _ (AI_kin _ _ _ _ HA1) o Ho) as [_ Hkids].
    rewrite filter_none; [done|].
    intros c Hc Hn. destruct (Hkids c Hc) as (x & Hx & <- & _).
    apply Hn. by apply elem_of_ids.
  - intros o bgn end_. apply run_empty. lia.
Qed.

Lemma delete_all_witness :
  ∃ st' bgns ends cps cps',
    rem 0 5 (create (str "ATCCGA")) = Ok (true, st') ∧
    chrm st' = [] ∧ mut st' = None ∧ mut_chain st' = Ok [] ∧
    get_copy_nums (create (str "ATCCGA")) = Ok (bgns, ends, cps) ∧
    get_copy_nums st' = Ok (bgns, ends, cps') ∧
    Forall (λ c, c = 0%nat) cps' ∧
    ∀ o bgn end_, run o bgn end_ st' = Ok (false, st').
Proof.
  apply (delete_all (str "ATCCGA") (create (str "ATCCGA"))).
  - apply reach_create.
  - reflexivity.
Defined.

Lemma flip_seg_flip_seg rb re s : flip_seg rb re (flip_seg rb re s) = s.
Proof.
  destruct s as [h b e [p i]]. unfold flip_seg. simpl.
  rewrite !_get_inv_pos_diff_mirror, negb_involutive. f_equal; lia.
Qed.

Lemma flip_twice rb re (L : list (Seg MutX)) :
  reverse (flip_seg rb re <$> reverse (flip_seg rb re <$> L)) = L.
Proof.
  rewrite fmap_reverse, reverse_involutive, <- list_fmap_compose.
  rewrite <- (list_fmap_id L) at 2. apply list_fmap_ext. intros _ s _.
  apply flip_seg_flip_seg.
Qed.

Lemma rejected_false_inv st Lo Lm bgn end_ :
  Rep st Lo Lm → rejected bgn end_ st = Ok false →
  (0 <= bgn <= end_ ∧ end_ < len st) ∧ splitable bgn end_ (len st) Lm.
Proof.
  intros HR Hrj. destruct (rejected_spec _ _ _ bgn end_ HR) as (b & Hrj' & Hiff).
  apply Hiff. congruence.
Qed.

(** The inversion of the whole sequence of a good profile. *)
Lemma inv_whole N st Lo Lm :
  Rep st Lo Lm → AInv N (len st) Lo Lm → 0 < len st →
  ∃ st',
    inv 0 (len st - 1) st = Ok (true, st') ∧
    Rep st' Lo (reverse (flip_seg 0 (len st - 1) <$> Lm)) ∧
    AInv N (len st') Lo (reverse (flip_seg 0 (len st - 1) <$> Lm)) ∧
    chrm st' = reverse (chrm st) ∧ len st' = len st ∧
    orgs st' = orgs st ∧ org st' = org st ∧
    org_next st' = org_next st ∧ mut_next st' = mut_next st.
Proof.
  intros HR HA HM.
  assert (rejected 0 (len st - 1) st = Ok false) as Hrj.
  { eapply rejected_false_iff; [done|lia|]. split; [by left|left; lia]. }
  destruct (inv_spec _ _ _ _ 0 (len st - 1) HR HA)
    as [[Hrj' _]|(_ & st1 & Lo1 & Lm1 & Hsp & HR1 & HA1 & Hch & Hk & Hcases)];
    [congruence|].
  rewrite _2split_whole in Hsp by done. injection Hsp as Heq. subst st1.
  destruct (rep_fun _ _ _ _ (Rep_org _ _ _ HR) (Rep_org _ _ _ HR1)).
  destruct (rep_fun _ _ _ _ (Rep_mut _ _ _ HR) (Rep_mut _ _ _ HR1)).
  destruct Hcases as [[Hno _]|(A & mid & D & sih & sit & st' & Hrg & Hinv & HR' & HA' &
                                 Hch' & Hlen' & Hf1 & Hf2 & Hf3 & Hf4)].
  { exfalso. exact (whole_region_exists (len st) Lm (AI_mut _ _ _ _ HA) HM Hno). }
  destruct (whole_region _ _ _ _ _ _ _ (AI_mut _ _ _ _ HA) Hrg) as (-> & -> & ->).
  simpl in HR', HA'. rewrite app_nil_r in HR', HA'.
  exists st'. do 3 (split; [done|]). split; [|done].
  rewrite Hch'. simpl. rewrite drop_0.
  replace (Z.to_nat (len st - 1 - 0 + 1)) with (length (chrm st)) by (unfold len; lia).
  replace (Z.to_nat (len st - 1 + 1)) with (length (chrm st)) by (unfold len; lia).
  by rewrite firstn_all, drop_all, app_nil_r.
Qed.

Lemma inv_rejected bgn end_ st :
  rejected bgn end_ st = Ok true → inv bgn end_ st = Ok (false, st).
Proof. intros Hrj. unfold inv. by rewrite Hrj. Qed.

(** C1, as the code has it.  On a reachable profile, inverting the whole
    sequence twice gives back the profile: the order of the mutated list,
    the orientations, the positions and the sequence are as before.  For
    every other region the first call that returns [True] leaves [bgn] or
    [end] as the bounds of segments, so the second call with the same
    bounds is rejected: it returns [False] and leaves the profile as the
    first call left it. *)
Theorem invert_twice s st :
  reachable s st →
  (0 < len st →
   ∃ st1, inv 0 (len st - 1) st = Ok (true, st1) ∧
          inv 0 (len st - 1) st1 = Ok (true, st)) ∧
  (∀ bgn end_ st1,
     inv bgn end_ st = Ok (true, st1) → bgn ≠ 0 ∨ end_ + 1 ≠ len st →
     inv bgn end_ st1 = Ok (false, st1)).
Proof.
  intros Hreach.
  destruct (reachable_Good _ _ Hreach) as [[HN (Lo & Lm & HR & HA)]|[_ ->]].
  2:{ split; [by unfold len|]. intros bgn end_ st1 Hinv.
      change (inv bgn end_ (create [])) with (run Invert bgn end_ (create [])) in Hinv.
      by rewrite run_empty in Hinv. }
  split.
  - intros HM.
    destruct (inv_whole _ _ _ _ HR HA HM)
      as (st1 & Hinv1 & HR1 & HA1 & Hch1 & Hlen1 & Ho1 & Hh1 & Hon1 & Hmn1).
    exists st1. split; [done|].
    assert (0 < len st1) as HM1 by lia.
    destruct (inv_whole _ _ _ _ HR1 HA1 HM1)
      as (st2 & Hinv2 & HR2 & HA2 & Hch2 & Hlen2 & Ho2 & Hh2 & Hon2 & Hmn2).
    rewrite Hlen1 in Hinv2, HR2. rewrite Hinv2. do 2 f_equal.
    rewrite flip_twice in HR2.
    destruct (rep_inj _ _ _ _ _ (Rep_mut _ _ _ HR2) (Rep_mut _ _ _ HR)) as [Hm Hhd].
    apply ChrmProf_eq; try congruence.
    rewrite Hch2, Hch1. apply reverse_involutive.
  - intros bgn end_ st1 Hinv Hpart.
    destruct (inv_spec _ _ _ _ bgn end_ HR HA)
      as [[_ Heq]|(Hrj & st0 & Lo1 & Lm1 & Hsp & HR1 & HA1 & Hch & Hk &
           [[_ Heq]|(A & mid & D & sih & sit & st' & Hrg & Heq & HR' & HA' &
                      Hch' & Hlen' & _)])];
      rewrite Heq in Hinv; try done. injection Hinv as <-.
    destruct (rejected_false_inv _ _ _ _ _ HR Hrj) as [Hb _].
    apply inv_rejected.
    destruct (rejected_spec _ _ _ bgn end_ HR') as ([|] & Hrj' & Hiff); [done|].
    exfalso. destruct (proj1 Hiff eq_refl) as [_ [Hs1 Hs2]].
    destruct (region_ends _ _ _ _ _ _ _ _ Hrg) as (_ & _ & Hihm & Hitm).
    destruct Hpart as [Hb0|He].
    + destruct Hs1 as [?|Hs1]; [done|].
      apply (Hs1 (flip_seg bgn end_ sit)).
      * rewrite !elem_of_app, elem_of_reverse. right. left. by apply list_elem_of_fmap_2.
      * rewrite flip_seg_bgn, (rg_end _ _ _ _ _ _ _ _ Hrg). lia.
    + destruct Hs2 as [Hs2|Hs2]; [lia|].
      apply (Hs2 (flip_seg bgn end_ sih)).
      * rewrite !elem_of_app, elem_of_reverse. right. left. by apply list_elem_of_fmap_2.
      * rewrite flip_seg_end, (rg_bgn _ _ _ _ _ _ _ _ Hrg). lia.
Qed.

(** The profile a call leaves behind, for the examples below. *)
Definition after (r : res (bool * ChrmProf)) : ChrmProf :=
  match r with Ok (_, st) => st | _ => create [] end.

Lemma invert_twice_witness :
  (∃ st1, inv 0 (len (create (str "ATCCGA")) - 1) (create (str "ATCCGA")) = Ok (true, st1) ∧
          inv 0 (len (create (str "ATCCGA")) - 1) st1 = Ok (true, create (str "ATCCGA"))) ∧
  inv 1 3 (after (inv 1 3 (create (str "ATCCGA")))) =
    Ok (false, after (inv 1 3 (create (str "ATCCGA")))).
Proof.
  pose proof (invert_twice (str "ATCCGA") (create (str "ATCCGA")) (reach_create _)) as [H1 H2].
  split.
  - apply H1. reflexivity.
  - apply (H2 1 3).
    + vm_compute. reflexivity.
    + left. lia.
Defined.

(** C1 as stated fails on "ATCCGA" with the region [1, 3]: the first call
    returns [True] and leaves "ACCTGA" in three segments; the second call
    with the same bounds returns [False] and changes nothing, so neither
    the sequence nor the mutated list is as at the start. *)
Lemma invert_twice_counterexample :
  ∃ st1 st2,
    inv 1 3 (create (str "ATCCGA")) = Ok (true, st1) ∧
    inv 1 3 st1 = Ok (false, st2) ∧
    chrm (create (str "ATCCGA")) = str "ATCCGA" ∧
    chrm st2 = str "ACCTGA" ∧
    mut_intervals (create (str "ATCCGA")) = Ok [(0, 5)] ∧
    mut_intervals st2 = Ok [(0, 0); (1, 3); (4, 5)] ∧
    chrm st2 ≠ chrm (create (str "ATCCGA")).
Proof.
  exists (after (inv 1 3 (create (str "ATCCGA")))),
         (after (inv 1 3 (create (str "ATCCGA")))).
  repeat split; try (vm_compute; reflexivity). vm_compute. discriminate.
Qed.

(** ** Where a segment lies with respect to a region *)
Lemma region_where {X} bgn end_ z (L A mid D : list (Seg X)) sih sit z' s :
  region bgn end_ L A mid D sih sit → tiling z L z' → s ∈ L →
  s_bgn s <= s_end s ∧
  ((s ∈ A ∧ s_end s < bgn) ∨
   (s ∈ mid ∧ bgn <= s_bgn s ∧ s_end s <= end_) ∨
   (s ∈ D ∧ end_ < s_bgn s)).
Proof.
  intros Hrg Ht Hs.
  destruct (region_tiling _ _ _ _ _ _ _ _ _ _ Hrg Ht) as (HA & Hm & HD).
  split; [destruct (tiling_elem _ _ _ _ Ht Hs); lia|].
  rewrite (rg_L _ _ _ _ _ _ _ _ Hrg), !elem_of_app in Hs.
  destruct Hs as [Hs|[Hs|Hs]].
  - left. split; [done|]. destruct (tiling_elem _ _ _ _ HA Hs). lia.
  - right. left. split; [done|]. destruct (tiling_elem _ _ _ _ Hm Hs). lia.
  - right. right. split; [done|]. destruct (tiling_elem _ _ _ _ HD Hs). lia.
Qed.



(** ** The guard of the three operators *)

(** On a reachable profile a call returns [False] exactly when the guard
    rejects it, and it then changes nothing; a call that the guard lets
    through returns [True] or raises. *)
Lemma run_guard s st o bgn end_ :
  reachable s st →
  ∃ b, rejected bgn end_ st = Ok b ∧
       (b = true → run o bgn end_ st = Ok (false, st)) ∧
       (b = false →
        (∃ st', run o bgn end_ st = Ok (true, st')) ∨
        (∃ e, run o bgn end_ st = Raise e)).
Proof.
  intros Hreach.
  destruct (reachable_Good _ _ Hreach) as [[HN (Lo & Lm & HR & HA)]|[_ ->]].
  2:{ exists true. split; [by apply rejected_empty|]. split; [|done].
      intros _. by apply run_empty. }
  destruct o; simpl.
  - destruct (inv_spec _ _ _ _ bgn end_ HR HA)
      as [[Hrj Heq]|(Hrj & st1 & Lo1 & Lm1 & _ & _ & _ & _ & _ &
           [[_ Heq]|(A & mid & D & sih & sit & st2 & _ & Heq & _)])];
      rewrite Hrj, Heq; [exists true|exists false|exists false];
      (split; [reflexivity|]); split; intros; try done; eauto.
  - destruct (rem_spec _ _ _ _ bgn end_ HR HA)
      as [[Hrj Heq]|(Hrj & st1 & Lo1 & Lm1 & _ & _ & _ & _ & _ &
           [[_ Heq]|(A & mid & D & sih & sit & st2 & _ & Heq & _)])];
      rewrite Hrj, Heq; [exists true|exists false|exists false];
      (split; [reflexivity|]); split; intros; try done; eauto.
  - destruct (amp_spec _ _ _ _ bgn end_ HR HA)
      as [[Hrj Heq]|(Hrj & st1 & Lo1 & Lm1 & _ & _ & _ & _ & _ &
           [[_ Heq]|(A & mid & D & sih & sit & st2 & _ & Heq & _)])];
      rewrite Hrj, Heq; [exists true|exists false|exists false];
      (split; [reflexivity|]); split; intros; try done; eauto.
Qed.

(** C5.  On "ATCCGA" the bounds [(1, 4)] are in bounds and meet no boundary
    of the mutated list, so the guard lets the call through.  [_2split]
    then splits at 1, and at 5 [_split] returns early because the segment
    [[1, 5]] ends at 5: no segment ends at 4.  [inv] and [rem] raise
    [AttributeError] and [amp] raises [TypeError]; none returns [True]. *)
Theorem guard_passed_then_raise :
  _is_in_bounds 1 4 (create (str "ATCCGA")) = true ∧
  _is_splitable 1 4 (create (str "ATCCGA")) = Ok true ∧
  rejected 1 4 (create (str "ATCCGA")) = Ok false ∧
  (∃ st1, _2split 1 4 (create (str "ATCCGA")) = Ok st1 ∧
          mut_intervals st1 = Ok [(0, 0); (1, 5)]) ∧
  inv 1 4 (create (str "ATCCGA")) = Raise AttributeError ∧
  rem 1 4 (create (str "ATCCGA")) = Raise AttributeError ∧
  amp 1 4 (create (str "ATCCGA")) = Raise TypeError.
Proof.
  repeat split; try (vm_compute; reflexivity).
  eexists. split; vm_compute; reflexivity.
Qed.

(** ** Orientation *)

(** [_MutNode.split]: both halves carry the flag of the node that is split. *)
Lemma MutNode_split_is_inv self k m next new m' next' n :
  MutNode_split self k m next = Ok (new, m', next') →
  m !! self = Some n → m !! next = None →
  ∃ n1 n2, m' !! self = Some n1 ∧ m' !! new = Some n2 ∧ new ≠ self ∧
    is_inv (n_ext n1) = is_inv (n_ext n) ∧ is_inv (n_ext n2) = is_inv (n_ext n) ∧
    interval n1 = (n_bgn n, n_bgn n + k - 1) ∧
    interval n2 = (n_bgn n + k, n_end n).
Proof.
  intros Hsp Hl Hnew. unfold MutNode_split, Node_split in Hsp.
  rewrite (rd_Some _ _ _ Hl), bind_Ok in Hsp. cbv zeta in Hsp.
  injection Hsp as <- <- <-.
  assert (next ≠ self) as Hne by congruence.
  destruct (n_r n) as [r'|].
  - destruct (decide (r' = self)) as [Hrs|Hrs]; destruct (decide (r' = next)) as [Hrn|Hrn];
      subst; try done; lk; rewrite ?Hl; simpl; eexists _, _; done.
  - lk. rewrite Hl. simpl. eexists _, _. done.
Qed.

Lemma copies_source next (L : list (Seg MutX)) s :
  s ∈ L →
  ∃ x, x ∈ copies next L ∧ s_bgn x = s_bgn s ∧ s_end x = s_end s ∧ s_ext x = s_ext s.
Proof.
  revert next. induction L as [|y t IH]; intros next; simpl.
  - by intros ?%elem_of_nil.
  - intros [->|Hs]%elem_of_cons.
    + eexists. split; [left|done].
    + destruct (IH (S next) Hs) as (x & Hx & ?). exists x. split; [by right|done].
Qed.

Lemma rep_fresh st Lo Lm h : Rep st Lo Lm → (mut_next st ≤ h)%nat → muts st !! h = None.
Proof.
  intros HR Hh. destruct (muts st !! h) eqn:E; [|done].
  pose proof (Rep_mut_next _ _ _ HR h ltac:(eauto)). lia.
Qed.

Lemma rep_same_ext {X} (m : gmap nat (Node X)) hd L s x :
  rep m hd L → s ∈ L → x ∈ L → s_id x = s_id s → x = s.
Proof. intros HR Hs Hx Hid. by apply (seg_inj_id L); [apply HR|..]. Qed.

(** The nodes that [amp] adds are the copies of the nodes of the region. *)
Lemma amp_copies s st bgn end_ st' :
  reachable s st → amp bgn end_ st = Ok (true, st') →
  ∃ st1, _2split bgn end_ st = Ok st1 ∧
    (∀ h' n', muts st' !! h' = Some n' → muts st1 !! h' = None →
       ∃ h n, muts st1 !! h = Some n ∧ bgn <= n_bgn n ∧ n_end n <= end_ ∧
              is_inv (n_ext n') = is_inv (n_ext n) ∧
              parent (n_ext n') = parent (n_ext n) ∧
              n_bgn n' = n_bgn n + (end_ - bgn + 1) ∧
              n_end n' = n_end n + (end_ - bgn + 1)) ∧
    (∀ h n, muts st1 !! h = Some n → bgn <= n_bgn n → n_end n <= end_ →
       ∃ h' n', muts st1 !! h' = None ∧ muts st' !! h' = Some n' ∧
              is_inv (n_ext n') = is_inv (n_ext n) ∧
              parent (n_ext n') = parent (n_ext n) ∧
              n_bgn n' = n_bgn n + (end_ - bgn + 1) ∧
              n_end n' = n_end n + (end_ - bgn + 1)).
Proof.
  intros Hreach Hamp.
  destruct (reachable_Good _ _ Hreach) as [[HN (Lo & Lm & HR & HA)]|[_ ->]].
  2:{ change (amp bgn end_ (create [])) with (run Amplify bgn end_ (create [])) in Hamp.
      by rewrite run_empty in Hamp. }
  destruct (amp_spec _ _ _ _ bgn end_ HR HA)
    as [[_ Heq]|(Hrj & st1 & Lo1 & Lm1 & Hsp & HR1 & HA1 & Hch & Hk &
         [[_ Heq]|(A & mid & D & sih & sit & st2 & Hrg & Heq & HR' & HA' & _)])];
    rewrite Heq in Hamp; try done. injection Hamp as <-.
  exists st1. split; [done|].
  pose proof (rg_L _ _ _ _ _ _ _ _ Hrg) as HL.
  assert (∀ x, x ∈ mid → ∃ n, muts st1 !! s_id x = Some n ∧ seg_of (s_id x) n = x ∧
                          bgn <= s_bgn x ∧ s_end x <= end_) as Hmid.
  { intros x Hx.
    assert (x ∈ Lm1) as Hx1 by (rewrite HL, !elem_of_app; tauto).
    destruct (rep_lookup_seg _ _ _ _ (Rep_mut _ _ _ HR1) Hx1) as (n & Hn & Hsn).
    exists n. do 2 (split; [done|]).
    destruct (region_tiling _ _ _ _ _ _ _ _ _ _ Hrg (AI_mut _ _ _ _ HA1)) as (_ & Hm & _).
    destruct (tiling_elem _ _ _ _ Hm Hx). lia. }
  split.
  - intros h' n' Hl' Hnone.
    pose proof (rep_lookup _ _ _ _ _ (Rep_mut _ _ _ HR') Hl') as Hin.
    assert (∀ x, x ∈ Lm1 → s_id x ≠ h') as Hold.
    { intros x Hx <-.
      destruct (rep_lookup_seg _ _ _ _ (Rep_mut _ _ _ HR1) Hx) as (n & Hn & _). congruence. }
    rewrite !elem_of_app in Hin. destruct Hin as [Hin|[Hin|Hin]].
    { exfalso. apply (Hold _ ltac:(rewrite HL, !elem_of_app; eauto)). done. }
    { exfalso. apply (Hold _ ltac:(rewrite HL, !elem_of_app; eauto)). done. }
    apply list_elem_of_fmap in Hin as (x & Hx & Hin).
    apply elem_of_app in Hin as [Hin|Hin].
    2:{ exfalso. apply (Hold x); [rewrite HL, !elem_of_app; eauto|].
        exact (eq_sym (f_equal s_id Hx)). }
    destruct (copies_elem _ _ _ Hin) as (s0 & Hs0 & Hb & He & Hx0).
    destruct (Hmid _ Hs0) as (n & Hn & Hsn & Hlo & Hhi).
    exists (s_id s0), n. split; [done|].
    pose proof (f_equal s_bgn Hx) as H1. pose proof (f_equal s_end Hx) as H2.
    pose proof (f_equal s_ext Hx) as H3. simpl in H1, H2, H3.
    pose proof (f_equal s_bgn Hsn) as H4. pose proof (f_equal s_end Hsn) as H5.
    pose proof (f_equal s_ext Hsn) as H6. simpl in H4, H5, H6.
    rewrite H3, Hx0, <- H6. repeat split; lia.
  - intros h n Hl Hb He.
    pose proof (rep_lookup _ _ _ _ _ (Rep_mut _ _ _ HR1) Hl) as Hin.
    destruct (region_where _ _ _ _ _ _ _ _ _ _ _ Hrg (AI_mut _ _ _ _ HA1) Hin)
      as (Hle & [[_ Hlt]|[[Hm _]|[_ Hlt]]]); simpl in *; try lia.
    destruct (copies_source (mut_next st1) _ _ Hm) as (x & Hx & Hxb & Hxe & Hxx).
    assert (shift_seg (end_ - bgn + 1) x ∈
              A ++ mid ++ (shift_seg (end_ - bgn + 1) <$> (copies (mut_next st1) mid ++ D)))
      as Hin'.
    { rewrite !elem_of_app. right. right. apply list_elem_of_fmap_2.
      apply elem_of_app. by left. }
    destruct (rep_lookup_seg _ _ _ _ (Rep_mut _ _ _ HR') Hin') as (n' & Hn' & Hsn').
    exists (s_id x), n'. simpl in Hn'. split.
    { apply (rep_fresh _ _ _ _ HR1).
      apply elem_of_ids in Hx. apply ids_copies in Hx. lia. }
    split; [done|].
    pose proof (f_equal s_bgn Hsn') as H1. pose proof (f_equal s_end Hsn') as H2.
    pose proof (f_equal s_ext Hsn') as H3. simpl in H1, H2, H3, Hxb, Hxe, Hxx.
    rewrite H3, Hxx. repeat split; lia.
Qed.

(** A node that is there before and after [rem] or [amp] keeps its flag and
    its parent. *)
Lemma run_keeps_ext s st o bgn end_ b st' h n n' :
  reachable s st → o ≠ Invert → run o bgn end_ st = Ok (b, st') →
  muts st !! h = Some n → muts st' !! h = Some n' →
  n_ext n' = n_ext n.
Proof.
  intros Hreach Ho Hrun Hl Hl'.
  destruct (reachable_Good _ _ Hreach) as [[HN (Lo & Lm & HR & HA)]|[_ ->]].
  2:{ rewrite run_empty in Hrun by done. injection Hrun as <- <-. congruence. }
  pose proof (rep_lookup _ _ _ _ _ (Rep_mut _ _ _ HR) Hl) as Hin.
  destruct o; [done| |]; simpl in Hrun.
  - destruct (rem_spec _ _ _ _ bgn end_ HR HA)
      as [[_ Heq]|(Hrj & st1 & Lo1 & Lm1 & Hsp & HR1 & HA1 & Hch & Hk &
           [[_ Heq]|(A & mid & D & sih & sit & st2 & Hrg & Heq & HR' & HA' & _)])];
      rewrite Heq in Hrun; try done; injection Hrun as <- <-; [congruence|].
    destruct (Hk _ Hin) as (s1 & Hs1 & Hid & _ & Hext). simpl in Hid, Hext.
    pose proof (rg_L _ _ _ _ _ _ _ _ Hrg) as HL.
    pose proof (rep_lookup _ _ _ _ _ (Rep_mut _ _ _ HR') Hl') as Hin'.
    apply elem_of_app in Hin' as [Hin'|Hin'].
    + assert (seg_of h n' = s1) as <-; [|by rewrite <- Hext].
      apply (rep_same_ext _ _ _ _ _ (Rep_mut _ _ _ HR1)); [done| |by rewrite Hid].
      rewrite HL, !elem_of_app. by left.
    + apply list_elem_of_fmap in Hin' as (x & Hx & Hin').
      assert (x = s1) as ->.
      { apply (rep_same_ext _ _ _ _ _ (Rep_mut _ _ _ HR1)); [done| |].
        - rewrite HL, !elem_of_app. by right; right.
        - rewrite Hid. exact (eq_sym (f_equal s_id Hx)). }
      rewrite <- Hext. exact (f_equal s_ext Hx).
  - destruct (amp_spec _ _ _ _ bgn end_ HR HA)
      as [[_ Heq]|(Hrj & st1 & Lo1 & Lm1 & Hsp & HR1 & HA1 & Hch & Hk &
           [[_ Heq]|(A & mid & D & sih & sit & st2 & Hrg & Heq & HR' & HA' & _)])];
      rewrite Heq in Hrun; try done; injection Hrun as <- <-; [congruence|].
    destruct (Hk _ Hin) as (s1 & Hs1 & Hid & _ & Hext). simpl in Hid, Hext.
    pose proof (rg_L _ _ _ _ _ _ _ _ Hrg) as HL.
    pose proof (rep_lookup _ _ _ _ _ (Rep_mut _ _ _ HR') Hl') as Hin'.
    rewrite !elem_of_app in Hin'. destruct Hin' as [Hin'|[Hin'|Hin']].
    + assert (seg_of h n' = s1) as <-; [|by rewrite <- Hext].
      apply (rep_same_ext _ _ _ _ _ (Rep_mut _ _ _ HR1)); [done| |by rewrite Hid].
      rewrite HL, !elem_of_app. by left.
    + assert (seg_of h n' = s1) as <-; [|by rewrite <- Hext].
      apply (rep_same_ext _ _ _ _ _ (Rep_mut _ _ _ HR1)); [done| |by rewrite Hid].
      rewrite HL, !elem_of_app. by right; left.
    + apply list_elem_of_fmap in Hin' as (x & Hx & Hin').
      pose proof (f_equal s_id Hx) as Hxid. simpl in Hxid.
      apply elem_of_app in Hin' as [Hin'|Hin'].
      { exfalso. apply elem_of_ids, ids_copies in Hin'.
        pose proof (Rep_mut_lt _ _ _ _ HR1 Hs1). lia. }
      assert (x = s1) as ->.
      { apply (rep_same_ext _ _ _ _ _ (Rep_mut _ _ _ HR1)); [done| |congruence].
        rewrite HL, !elem_of_app. by right; right. }
      rewrite <- Hext. exact (f_equal s_ext Hx).
Qed.

(** X3 (C9).  [_MutNode.split] gives both halves the flag of the node it splits.
    When [amp] returns [True], every node it adds is the copy of a node of
    the region (after [_2split]) with the same flag and the same parent,
    and every node of the region has such a copy.  A node that is there
    before and after a call of [rem] or [amp] keeps its flag and parent:
    only [inv] changes an orientation. *)
Theorem orientation_kept :
  (∀ self k m next new m' next' n,
     MutNode_split self k m next = Ok (new, m', next') →
     m !! self = Some n → m !! next = None →
     ∃ n1 n2, m' !! self = Some n1 ∧ m' !! new = Some n2 ∧ new ≠ self ∧
       is_inv (n_ext n1) = is_inv (n_ext n) ∧ is_inv (n_ext n2) = is_inv (n_ext n)) ∧
  (∀ s st bgn end_ st',
     reachable s st → amp bgn end_ st = Ok (true, st') →
     ∃ st1, _2split bgn end_ st = Ok st1 ∧
       (∀ h' n', muts st' !! h' = Some n' → muts st1 !! h' = None →
          ∃ h n, muts st1 !! h = Some n ∧ bgn <= n_bgn n ∧ n_end n <= end_ ∧
                 is_inv (n_ext n') = is_inv (n_ext n) ∧
                 parent (n_ext n') = parent (n_ext n)) ∧
       (∀ h n, muts st1 !! h = Some n → bgn <= n_bgn n → n_end n <= end_ →
          ∃ h' n', muts st1 !! h' = None ∧ muts st' !! h' = Some n' ∧
                 is_inv (n_ext n') = is_inv (n_ext n) ∧
                 parent (n_ext n') = parent (n_ext n))) ∧
  (∀ s st o bgn end_ b st' h n n',
     reachable s st → o ≠ Invert → run o bgn end_ st = Ok (b, st') →
     muts st !! h = Some n → muts st' !! h = Some n' →
     is_inv (n_ext n') = is_inv (n_ext n)).
Proof.
  split; [|split].
  - intros self k m next new m' next' n Hsp Hl Hn.
    destruct (MutNode_split_is_inv _ _ _ _ _ _ _ _ Hsp Hl Hn)
      as (n1 & n2 & ? & ? & ? & ? & ? & _).
    by exists n1, n2.
  - intros s st bgn end_ st' Hreach Hamp.
    destruct (amp_copies _ _ _ _ _ Hreach Hamp) as (st1 & Hsp & H1 & H2).
    exists st1. split; [done|]. split.
    + intros h' n' Hl' Hnone.
      destruct (H1 _ _ Hl' Hnone) as (h & n & ? & ? & ? & ? & ? & _).
      by exists h, n.
    + intros h n Hl Hb He.
      destruct (H2 _ _ Hl Hb He) as (h' & n' & ? & ? & ? & ? & _).
      by exists h', n'.
  - intros s st o bgn end_ b st' h n n' Hreach Ho Hrun Hl Hl'.
    by rewrite (run_keeps_ext _ _ _ _ _ _ _ _ _ _ Hreach Ho Hrun Hl Hl').
Qed.

(** The arena a split leaves behind and the node behind a handle, for the
    examples. *)
Definition split_result (r : res (nat * gmap nat (Node MutX) * nat)) : gmap nat (Node MutX) :=
  match r with Ok (_, m, _) => m | _ => ∅ end.
Definition node_at (m : gmap nat (Node MutX)) (h : nat) : Node MutX :=
  default (mkNode None None 0 0 (mkMutX None false)) (m !! h).

Lemma orientation_kept_witness :
  let st := after (inv 1 3 (create (str "ATCCGA"))) in
  let m' := split_result (MutNode_split 1 1 (muts st) 3) in
  let st' := after (amp 0 5 st) in
  (∃ n1 n2, m' !! 1%nat = Some n1 ∧ m' !! 3%nat = Some n2 ∧ 3%nat ≠ 1%nat ∧
     is_inv (n_ext n1) = is_inv (n_ext (node_at (muts st) 1)) ∧
     is_inv (n_ext n2) = is_inv (n_ext (node_at (muts st) 1))) ∧
  (∃ st1, _2split 0 5 st = Ok st1 ∧
     (∀ h' n', muts st' !! h' = Some n' → muts st1 !! h' = None →
        ∃ h n, muts st1 !! h = Some n ∧ 0 <= n_bgn n ∧ n_end n <= 5 ∧
               is_inv (n_ext n') = is_inv (n_ext n) ∧
               parent (n_ext n') = parent (n_ext n)) ∧
     (∀ h n, muts st1 !! h = Some n → 0 <= n_bgn n → n_end n <= 5 →
        ∃ h' n', muts st1 !! h' = None ∧ muts st' !! h' = Some n' ∧
               is_inv (n_ext n') = is_inv (n_ext n) ∧
               parent (n_ext n') = parent (n_ext n))) ∧
  (∀ h n n', muts st !! h = Some n → muts st' !! h = Some n' →
     is_inv (n_ext n') = is_inv (n_ext n)).
Proof.
  intros st m' st'.
  assert (reachable (str "ATCCGA") st) as Hreach.
  { apply (reach_step _ (create (str "ATCCGA")) Invert 1 3 true);
      [apply reach_create|vm_compute; reflexivity]. }
  pose proof orientation_kept as (H1 & H2 & H3).
  split; [|split].
  - apply (H1 1%nat 1 (muts st) 3%nat 3%nat m' 4%nat (node_at (muts st) 1));
      vm_compute; reflexivity.
  - apply (H2 (str "ATCCGA") st 0 5 st' Hreach). vm_compute. reflexivity.
  - intros h n n'. apply (H3 (str "ATCCGA") st Amplify 0 5 true st' h n n' Hreach).
    + discriminate.
    + vm_compute. reflexivity.
Defined.

(** ** Copy numbers under amplification *)

(** The nodes of the mutated list, in the order of the list. *)
Definition mut_nodes (st : ChrmProf) : res (list (Node MutX)) :=
  hs ← mut_chain st; Ok (nodes_of (muts st) hs).

(** How many of the nodes [ns] lie inside [[bgn, end_]] and have the
    original node [o] as their parent. *)
Definition count_kids (bgn end_ : Z) (o : nat) (ns : list (Node MutX)) : nat :=
  length (filter (λ n, bgn <= n_bgn n ∧ n_end n <= end_ ∧ parent (n_ext n) = Some o) ns).

Lemma filter_ext_in {A} (P Q : A → Prop) `{∀ x, Decision (P x)} `{∀ x, Decision (Q x)}
    (l : list A) :
  (∀ x, x ∈ l → P x ↔ Q x) → filter P l = filter Q l.
Proof.
  induction l as [|y l IH]; intros Hall; [done|].
  assert (filter P l = filter Q l) as IH' by (apply IH; intros x Hx; apply Hall; by right).
  destruct (decide (P y)) as [Hy|Hy].
  - rewrite !filter_cons_True by (done || by apply (Hall y); [left|]). by f_equal.
  - rewrite !filter_cons_False; [done| |done].
    intros Hq. apply Hy. apply (Hall y); [left|done].
Qed.

Lemma count_nodes_of {X} (P : Node X → Prop) (Q : Seg X → Prop)
    `{∀ n, Decision (P n)} `{∀ s, Decision (Q s)} (m : gmap nat (Node X)) L : ∀ p n,
  (∀ p n s, P (cell p n s) ↔ Q s) → dlseg m p L n →
  length (filter P (nodes_of m (ids L))) = length (filter Q L).
Proof.
  induction L as [|x L IH]; intros p n HPQ; simpl; [done|].
  intros [Hl Hseg]. unfold nodes_of in *. simpl. rewrite Hl. simpl.
  specialize (IH _ _ HPQ Hseg).
  destruct (decide (Q x)) as [Hx|Hx].
  - rewrite !filter_cons_True by (done || by apply HPQ). simpl. by rewrite IH.
  - rewrite !filter_cons_False; [done|done|]. by rewrite HPQ.
Qed.

Lemma filter_copies_length o (L : list (Seg MutX)) : ∀ next,
  length (filter (λ x, parent (s_ext x) = Some o) (copies next L)) =
  length (filter (λ x, parent (s_ext x) = Some o) L).
Proof.
  induction L as [|s t IH]; intros next; simpl; [done|].
  rewrite !filter_cons. simpl. destruct (decide (parent (s_ext s) = Some o)); simpl;
    by rewrite IH.
Qed.

Lemma region_filter {X} bgn end_ z (L A mid D : list (Seg X)) sih sit z'
    (Q : Seg X → Prop) `{∀ s, Decision (Q s)} :
  region bgn end_ L A mid D sih sit → tiling z L z' →
  filter (λ s, bgn <= s_bgn s ∧ s_end s <= end_ ∧ Q s) L = filter Q mid.
Proof.
  intros Hrg Ht.
  destruct (region_tiling _ _ _ _ _ _ _ _ _ _ Hrg Ht) as (HA & Hm & HD).
  rewrite (rg_L _ _ _ _ _ _ _ _ Hrg), !filter_app.
  rewrite (filter_none _ A), (filter_none _ D), app_nil_r; simpl.
  - apply filter_ext_in. intros x Hx. destruct (tiling_elem _ _ _ _ Hm Hx). split; [tauto|].
    intros. repeat split; [lia|lia|done].
  - intros x Hx. destruct (tiling_elem _ _ _ _ HD Hx). lia.
  - intros x Hx. destruct (tiling_elem _ _ _ _ HA Hx). lia.
Qed.

(** X1 (C4), as the code has it.  When [amp(bgn, end)] returns [True] on a
    reachable profile, the boundaries have been put in place by [_2split];
    with respect to the original list as it is then, the intervals are
    unchanged and the copy number of each original node grows by the number
    of nodes of the mutated list inside [[bgn, end]] that have it as
    parent; the length grows by [end - bgn + 1] and the sequence is
    prefix + S + S + suffix. *)
Theorem amplify_effect s st bgn end_ st' :
  reachable s st → amp bgn end_ st = Ok (true, st') →
  ∃ st1 hs bgns ends cps ns,
    _2split bgn end_ st = Ok st1 ∧
    org_chain st1 = Ok hs ∧ org_chain st' = Ok hs ∧
    get_copy_nums st1 = Ok (bgns, ends, cps) ∧
    mut_nodes st1 = Ok ns ∧
    get_copy_nums st' =
      Ok (bgns, ends, zip_with (λ o c, (c + count_kids bgn end_ o ns)%nat) hs cps) ∧
    len st' = len st + (end_ - bgn + 1) ∧
    chrm st' = take (Z.to_nat bgn) (chrm st)
               ++ take (Z.to_nat (end_ - bgn + 1)) (drop (Z.to_nat bgn) (chrm st))
               ++ take (Z.to_nat (end_ - bgn + 1)) (drop (Z.to_nat bgn) (chrm st))
               ++ drop (Z.to_nat (end_ + 1)) (chrm st).
Proof.
  intros Hreach Hamp.
  destruct (reachable_Good _ _ Hreach) as [[HN (Lo & Lm & HR & HA)]|[_ ->]].
  2:{ change (amp bgn end_ (create [])) with (run Amplify bgn end_ (create [])) in Hamp.
      by rewrite run_empty in Hamp. }
  destruct (amp_spec _ _ _ _ bgn end_ HR HA)
    as [[_ Heq]|(Hrj & st1 & Lo1 & Lm1 & Hsp & HR1 & HA1 & Hch & Hk &
         [[_ Heq]|(A & mid & D & sih & sit & st2 & Hrg & Heq & HR' & HA' & Hch' & Hlen')])];
    rewrite Heq in Hamp; try done. injection Hamp as <-.
  rewrite adopt_all_fmap in HR'.
  exists st1, (ids Lo1), (s_bgn <$> Lo1), (s_end <$> Lo1),
    ((λ o, length (children (s_ext o))) <$> Lo1), (nodes_of (muts st1) (ids Lm1)).
  split; [done|].
  split; [apply chain_from_rep, HR1|].
  split.
  { unfold org_chain. rewrite (chain_from_rep _ _ _ (Rep_org _ _ _ HR')).
    f_equal. by apply ids_fmap_id. }
  split; [by apply (get_copy_nums_Rep _ _ _ HR1)|].
  split.
  { unfold mut_nodes. by rewrite (mut_chain_Rep _ _ _ HR1). }
  split; [|done].
  rewrite (get_copy_nums_Rep _ _ _ HR'), <- !list_fmap_compose. do 2 f_equal.
  unfold ids. rewrite zip_with_fmap_l, zip_with_fmap_r, zip_with_diag.
  apply list_fmap_ext. intros _ o _. simpl. rewrite length_app. f_equal.
  unfold count_kids, kids_of, ids. rewrite length_fmap, filter_copies_length.
  rewrite <- (region_filter _ _ _ _ _ _ _ _ _ _
                (λ x, parent (s_ext x) = Some (s_id o)) Hrg (AI_mut _ _ _ _ HA1)).
  symmetry. apply (count_nodes_of _ _ _ _ None None); [done|].
  apply (rep_seg _ _ _ (Rep_mut _ _ _ HR1)).
Qed.

Lemma amplify_effect_witness :
  let st := after (amp 1 3 (create (str "ATCCGA"))) in
  let st' := after (amp 0 8 st) in
  ∃ st1 hs bgns ends cps ns,
    _2split 0 8 st = Ok st1 ∧
    org_chain st1 = Ok hs ∧ org_chain st' = Ok hs ∧
    get_copy_nums st1 = Ok (bgns, ends, cps) ∧
    mut_nodes st1 = Ok ns ∧
    get_copy_nums st' =
      Ok (bgns, ends, zip_with (λ o c, (c + count_kids 0 8 o ns)%nat) hs cps) ∧
    len st' = len st + (8 - 0 + 1) ∧
    chrm st' = take (Z.to_nat 0) (chrm st)
               ++ take (Z.to_nat (8 - 0 + 1)) (drop (Z.to_nat 0) (chrm st))
               ++ take (Z.to_nat (8 - 0 + 1)) (drop (Z.to_nat 0) (chrm st))
               ++ drop (Z.to_nat (8 + 1)) (chrm st).
Proof.
  intros st st'.
  apply (amplify_effect (str "ATCCGA") st 0 8 st').
  - apply (reach_step _ (create (str "ATCCGA")) Amplify 1 3 true);
      [apply reach_create|vm_compute; reflexivity].
  - vm_compute. reflexivity.
Defined.

(** C4 as stated fails on "ATCCGA": after [amp(1, 3)] the sequence is
    "ATCCTCCGA" and the original segment [[1, 3]] has copy number 2; then
    [amp(0, 8)] returns [True] and the copy number of [[1, 3]] is 4, two
    more and not one more, because the region holds two copies of it. *)
Lemma amplify_counterexample :
  ∃ st1 st2,
    amp 1 3 (create (str "ATCCGA")) = Ok (true, st1) ∧
    chrm st1 = str "ATCCTCCGA" ∧
    get_copy_nums st1 = Ok ([0; 1; 4], [0; 3; 5], [1; 2; 1]%nat) ∧
    amp 0 8 st1 = Ok (true, st2) ∧
    get_copy_nums st2 = Ok ([0; 1; 4], [0; 3; 5], [2; 4; 2]%nat).
Proof.
  exists (after (amp 1 3 (create (str "ATCCGA")))),
         (after (amp 0 8 (after (amp 1 3 (create (str "ATCCGA")))))).
  split_and!; vm_compute; reflexivity.
Qed.

(** ** Copy numbers under deletion *)

Lemma length_filter_split (cs l : list nat) :
  length l = (length (filter (λ c, c ∈ cs) l) + length (filter (λ c, c ∉ cs) l))%nat.
Proof.
  induction l as [|a l IH]; [done|]. rewrite !filter_cons.
  destruct (decide (a ∈ cs)), (decide (a ∉ cs)); simpl; try done; lia.
Qed.

(** The children of an original segment that [rem] unregisters are its
    descendants inside the region. *)
Lemma prune_count Lo Lm (mid : list (Seg MutX)) o :
  NoDup (ids Lo) → NoDup (ids Lm) → kin Lo Lm → o ∈ Lo →
  (∀ x, x ∈ mid → x ∈ Lm) → NoDup (ids mid) →
  length (children (s_ext o)) =
  (length (children (s_ext (prune (ids mid) o))) +
   length (filter (λ x, parent (s_ext x) = Some (s_id o)) mid))%nat.
Proof.
  intros Hno Hnm Hkin Ho Hsub Hnmid. simpl.
  rewrite (length_filter_split (ids mid) (children (s_ext o))), Nat.add_comm. f_equal.
  rewrite <- (length_fmap s_id (filter _ mid)). apply Permutation_length.
  apply NoDup_Permutation.
  - apply NoDup_filter. apply (kin_children _ _ Hkin o Ho).
  - by apply NoDup_ids_filter.
  - intros c. rewrite list_elem_of_filter, list_elem_of_fmap. split.
    + intros [Hc Hin]. apply list_elem_of_fmap in Hc as (x & -> & Hx).
      exists x. split; [done|]. apply list_elem_of_filter. split; [|done].
      by apply (kin_child_unique Lo Lm); [| |apply Hsub|..].
    + intros (x & -> & Hx). apply list_elem_of_filter in Hx as [Hp Hx].
      split; [by apply elem_of_ids|].
      by apply (kin_parent_unique Lo Lm); [| |apply Hsub|..].
Qed.

(** X2 (C7), as the code has it.  When [rem(bgn, end)] returns [True] on a
    reachable profile, the boundaries have first been put in place by
    [_2split], which also splits the original list.  With respect to the
    profile as it is then: the sequence loses the substring [[bgn, end]]
    and its length drops by [end - bgn + 1]; the original list keeps its
    nodes, their order and their intervals; the copy number of each
    original node drops by the number of removed nodes that have it as
    parent; the nodes left of the region are unchanged, those inside it
    are gone, and those right of it have both ends lowered by
    [end - bgn + 1]. *)
Theorem delete_effect s st bgn end_ st' :
  reachable s st → rem bgn end_ st = Ok (true, st') →
  ∃ st1 hs bgns ends cps cps' ns,
    _2split bgn end_ st = Ok st1 ∧
    len st' = len st - (end_ - bgn + 1) ∧
    chrm st' = take (Z.to_nat bgn) (chrm st) ++ drop (Z.to_nat (end_ + 1)) (chrm st) ∧
    org_chain st1 = Ok hs ∧ org_chain st' = Ok hs ∧
    get_copy_nums st1 = Ok (bgns, ends, cps) ∧
    get_copy_nums st' = Ok (bgns, ends, cps') ∧
    mut_nodes st1 = Ok ns ∧
    cps = zip_with (λ o c, (c + count_kids bgn end_ o ns)%nat) hs cps' ∧
    (∀ h n, muts st1 !! h = Some n → n_end n < bgn →
       ∃ n', muts st' !! h = Some n' ∧ interval n' = interval n ∧ n_ext n' = n_ext n) ∧
    (∀ h n, muts st1 !! h = Some n → bgn <= n_bgn n → n_end n <= end_ →
       muts st' !! h = None) ∧
    (∀ h n, muts st1 !! h = Some n → end_ < n_bgn n →
       ∃ n', muts st' !! h = Some n' ∧
             n_bgn n' = n_bgn n - (end_ - bgn + 1) ∧
             n_end n' = n_end n - (end_ - bgn + 1) ∧ n_ext n' = n_ext n) ∧
    (∀ h, is_Some (muts st' !! h) → is_Some (muts st1 !! h)).
Proof.
  intros Hreach Hrem.
  destruct (reachable_Good _ _ Hreach) as [[HN (Lo & Lm & HR & HA)]|[_ ->]].
  2:{ change (rem bgn end_ (create [])) with (run Delete bgn end_ (create [])) in Hrem.
      by rewrite run_empty in Hrem. }
  destruct (rem_spec _ _ _ _ bgn end_ HR HA)
    as [[_ Heq]|(Hrj & st1 & Lo1 & Lm1 & Hsp & HR1 & HA1 & Hch & Hk &
         [[_ Heq]|(A & mid & D & sih & sit & st2 & Hrg & Heq & HR' & HA' & Hch' & Hlen')])];
    rewrite Heq in Hrem; try done. injection Hrem as <-.
  destruct (rejected_false_inv _ _ _ _ _ HR Hrj) as [Hbe _].
  pose proof (rg_L _ _ _ _ _ _ _ _ Hrg) as HL.
  pose proof (rep_nodup _ _ _ (Rep_mut _ _ _ HR1)) as Hnd.
  destruct (region_nodup _ _ _ _ _ _ _ _ Hrg Hnd) as (HnA & Hnm & HnD & HAm & HAD & HmD).
  exists st1, (ids Lo1), (s_bgn <$> Lo1), (s_end <$> Lo1),
    ((λ o, length (children (s_ext o))) <$> Lo1),
    ((λ o, length (children (s_ext (prune (ids mid) o)))) <$> Lo1),
    (nodes_of (muts st1) (ids Lm1)).
  do 3 (split; [done|]).
  split; [apply chain_from_rep, HR1|].
  split.
  { unfold org_chain. rewrite (chain_from_rep _ _ _ (Rep_org _ _ _ HR')).
    f_equal. by apply ids_fmap_id. }
  split; [by apply (get_copy_nums_Rep _ _ _ HR1)|].
  split.
  { rewrite (get_copy_nums_Rep _ _ _ HR'), <- !list_fmap_compose. done. }
  split.
  { unfold mut_nodes. by rewrite (mut_chain_Rep _ _ _ HR1). }
  split.
  { unfold ids. rewrite zip_with_fmap_l, zip_with_fmap_r, zip_with_diag.
    apply list_fmap_ext. intros i o Ho%list_elem_of_lookup_2.
    rewrite (prune_count Lo1 Lm1 mid o); try done.
    - f_equal. unfold count_kids.
      rewrite <- (region_filter _ _ _ _ _ _ _ _ _ _
                    (λ x, parent (s_ext x) = Some (s_id o)) Hrg (AI_mut _ _ _ _ HA1)).
      symmetry. apply (count_nodes_of _ _ _ _ None None); [done|].
      apply (rep_seg _ _ _ (Rep_mut _ _ _ HR1)).
    - apply (rep_nodup _ _ _ (Rep_org _ _ _ HR1)).
    - apply HA1.
    - intros x Hx. rewrite HL, !elem_of_app. tauto. }
  split.
  { intros h n Hl Hlt.
    pose proof (rep_lookup _ _ _ _ _ (Rep_mut _ _ _ HR1) Hl) as Hin.
    destruct (region_where _ _ _ _ _ _ _ _ _ _ _ Hrg (AI_mut _ _ _ _ HA1) Hin)
      as (Hle & [[HinA _]|[[_ [Hb _]]|[_ Hgt]]]); simpl in *; try lia.
    assert (seg_of h n ∈ A ++ (shift_seg (- (end_ - bgn + 1)) <$> D)) as Hin'
      by (apply elem_of_app; by left).
    destruct (rep_lookup_seg _ _ _ _ (Rep_mut _ _ _ HR') Hin') as (n' & Hl' & Hn').
    exists n'. split; [done|]. simpl in Hn'. unfold interval.
    injection Hn' as -> -> ->. done. }
  split.
  { intros h n Hl Hb He.
    pose proof (rep_lookup _ _ _ _ _ (Rep_mut _ _ _ HR1) Hl) as Hin.
    destruct (region_where _ _ _ _ _ _ _ _ _ _ _ Hrg (AI_mut _ _ _ _ HA1) Hin)
      as (Hle & [[_ Hlt]|[[Hm _]|[_ Hgt]]]); simpl in *; try lia.
    apply elem_of_ids in Hm. simpl in Hm.
    destruct (muts st2 !! h) as [n'|] eqn:Hl'; [exfalso|done].
    pose proof (rep_lookup _ _ _ _ _ (Rep_mut _ _ _ HR') Hl') as Hin'.
    apply elem_of_app in Hin' as [Hin'|Hin'].
    - apply elem_of_ids in Hin'. simpl in Hin'. by apply (HAm h).
    - apply list_elem_of_fmap in Hin' as (x & Hx & Hin').
      apply elem_of_ids in Hin'. pose proof (f_equal s_id Hx) as Hid. simpl in Hid.
      rewrite <- Hid in Hin'. by apply (HmD h). }
  split.
  { intros h n Hl Hgt.
    pose proof (rep_lookup _ _ _ _ _ (Rep_mut _ _ _ HR1) Hl) as Hin.
    destruct (region_where _ _ _ _ _ _ _ _ _ _ _ Hrg (AI_mut _ _ _ _ HA1) Hin)
      as (Hle & [[_ Hlt]|[[_ [_ He]]|[HinD _]]]); simpl in *; try lia.
    assert (shift_seg (- (end_ - bgn + 1)) (seg_of h n)
              ∈ A ++ (shift_seg (- (end_ - bgn + 1)) <$> D)) as Hin'.
    { apply elem_of_app. right. by apply list_elem_of_fmap_2. }
    destruct (rep_lookup_seg _ _ _ _ (Rep_mut _ _ _ HR') Hin') as (n' & Hl' & Hn').
    exists n'. split; [done|]. simpl in Hn'.
    injection Hn' as H1 H2 H3. repeat split; [lia|lia|done]. }
  intros h [n' Hl'].
  pose proof (rep_lookup _ _ _ _ _ (Rep_mut _ _ _ HR') Hl') as Hin'.
  assert (∃ x, x ∈ Lm1 ∧ s_id x = h) as (x & Hx & <-).
  { apply elem_of_app in Hin' as [Hin'|Hin'].
    - exists (seg_of h n'). split; [|done]. rewrite HL, !elem_of_app. tauto.
    - apply list_elem_of_fmap in Hin' as (x & Hx & Hin').
      exists x. split; [rewrite HL, !elem_of_app; tauto|].
      exact (eq_sym (f_equal s_id Hx)). }
  destruct (rep_lookup_seg _ _ _ _ (Rep_mut _ _ _ HR1) Hx) as (n & Hn & _). eauto.
Qed.

Lemma delete_effect_witness :
  let st := after (amp 1 3 (create (str "ATCCGA"))) in
  let st' := after (rem 2 4 st) in
  ∃ st1 hs bgns ends cps cps' ns,
    _2split 2 4 st = Ok st1 ∧
    len st' = len st - (4 - 2 + 1) ∧
    chrm st' = take (Z.to_nat 2) (chrm st) ++ drop (Z.to_nat (4 + 1)) (chrm st) ∧
    org_chain st1 = Ok hs ∧ org_chain st' = Ok hs ∧
    get_copy_nums st1 = Ok (bgns, ends, cps) ∧
    get_copy_nums st' = Ok (bgns, ends, cps') ∧
    mut_nodes st1 = Ok ns ∧
    cps = zip_with (λ o c, (c + count_kids 2 4 o ns)%nat) hs cps' ∧
    (∀ h n, muts st1 !! h = Some n → n_end n < 2 →
       ∃ n', muts st' !! h = Some n' ∧ interval n' = interval n ∧ n_ext n' = n_ext n) ∧
    (∀ h n, muts st1 !! h = Some n → 2 <= n_bgn n → n_end n <= 4 →
       muts st' !! h = None) ∧
    (∀ h n, muts st1 !! h = Some n → 4 < n_bgn n →
       ∃ n', muts st' !! h = Some n' ∧
             n_bgn n' = n_bgn n - (4 - 2 + 1) ∧
             n_end n' = n_end n - (4 - 2 + 1) ∧ n_ext n' = n_ext n) ∧
    (∀ h, is_Some (muts st' !! h) → is_Some (muts st1 !! h)).
Proof.
  intros st st'.
  apply (delete_effect (str "ATCCGA") st 2 4 st').
  - apply (reach_step _ (create (str "ATCCGA")) Amplify 1 3 true);
      [apply reach_create|vm_compute; reflexivity].
  - vm_compute. reflexivity.
Defined.

(** C7 as stated fails on "ATCCGA": [rem(1, 3)] returns [True], and the
    original list, one segment [[0, 5]] before the call, holds the three
    segments [[0, 0]], [[1, 3]], [[4, 5]] after it. *)
Lemma delete_counterexample :
  ∃ st',
    rem 1 3 (create (str "ATCCGA")) = Ok (true, st') ∧
    chrm st' = str "AGA" ∧
    org_intervals (create (str "ATCCGA")) = Ok [(0, 5)] ∧
    org_intervals st' = Ok [(0, 0); (1, 3); (4, 5)] ∧
    get_copy_nums (create (str "ATCCGA")) = Ok ([0], [5], [1%nat]) ∧
    get_copy_nums st' = Ok ([0; 1; 4], [0; 3; 5], [1; 0; 1]%nat) ∧
    org_intervals st' ≠ org_intervals (create (str "ATCCGA")).
Proof.
  exists (after (rem 1 3 (create (str "ATCCGA")))).
  split_and!; try (vm_compute; reflexivity). vm_compute. discriminate.
Qed.

(** * Reads over breakpoints *)

(** ** The keys that are deleted *)

Lemma del_keys_lookup ks : ∀ svs k,
  del_keys ks svs !! k = if decide (k ∈ ks) then None else svs !! k.
Proof.
  unfold del_keys. induction ks as [|a ks IH]; intros svs k.
  - destruct (decide (k ∈ [])) as [Hin|_]; [by apply elem_of_nil in Hin|done].
  - change (foldl (λ m k0, delete k0 m) (delete a svs) ks !! k =
            if decide (k ∈ a :: ks) then None else svs !! k).
    rewrite IH.
    destruct (decide (k ∈ ks)) as [Hin|Hnin], (decide (k ∈ a :: ks)) as [Hin'|Hnin'].
    + done.
    + exfalso. apply Hnin'. by right.
    + apply elem_of_cons in Hin' as [->|?]; [apply lookup_delete_eq|done].
    + apply lookup_delete_ne. intros ->. apply Hnin'. left.
Qed.

Lemma keys_to_remove_spec svs k :
  k ∈ keys_to_remove svs ↔ ∃ v, svs !! k = Some v ∧ mate v = None.
Proof.
  unfold keys_to_remove. rewrite list_elem_of_omap. split.
  - intros ([k' v] & Hin & Hf). apply elem_of_map_to_list in Hin. simpl in Hf.
    destruct (mate v) eqn:Hm; [done|]. injection Hf as ->. eauto.
  - intros (v & Hl & Hm). exists (k, v). split; [by apply elem_of_map_to_list|].
    simpl. by rewrite Hm.
Qed.

(** ** The walk along the mutated list returns *)

(** Every node of the mutated list has its parent in the original list, and
    its links lead to nodes of the list. *)
Definition linked (st : ChrmProf) : Prop :=
  ∀ h n, muts st !! h = Some n →
    (∃ np, parent_node st n = Ok np) ∧
    (∀ l, n_l n = Some l → is_Some (muts st !! l)) ∧
    (∀ r, n_r n = Some r → is_Some (muts st !! r)).

Lemma Rep_linked st Lo Lm : Rep st Lo Lm → kin Lo Lm → linked st.
Proof.
  intros HR Hkin h n Hl.
  pose proof (rep_lookup _ _ _ _ _ (Rep_mut _ _ _ HR) Hl) as Hin.
  assert (∀ x, x ∈ ids Lm → is_Some (muts st !! x)) as Hid.
  { intros x (y & -> & Hy)%list_elem_of_fmap.
    destruct (rep_lookup_seg _ _ _ _ (Rep_mut _ _ _ HR) Hy) as (n' & Hn' & _). eauto. }
  split; [|].
  - destruct (kin_parent _ _ Hkin _ Hin) as (o & Ho & Hp & _). simpl in Hp.
    destruct (rep_lookup_seg _ _ _ _ (Rep_org _ _ _ HR) Ho) as (np & Hnp & _).
    exists np. unfold parent_node. rewrite Hp. by apply rd_Some.
  - apply list_elem_of_split in Hin as (L1 & L2 & HL).
    pose proof (rep_seg _ _ _ (Rep_mut _ _ _ HR)) as Hseg. rewrite HL in Hseg.
    pose proof (dlseg_middle _ _ _ _ _ _ Hseg) as Hc. simpl in Hc.
    rewrite Hl in Hc. injection Hc as Hc. rewrite Hc. simpl.
    split; intros x Hx; apply Hid; rewrite HL, ids_app; simpl.
    + apply elem_of_app. left. by apply last_id_in.
    + apply elem_of_app. right. right. by apply first_id_in.
Qed.

Section reads.
Variable st : ChrmProf.
Hypothesis Hlinked : linked st.

Lemma _get_org_pos_Ok h b : is_Some (muts st !! h) → ∃ z, _get_org_pos st h b = Ok z.
Proof.
  intros [n Hn]. destruct (Hlinked _ _ Hn) as ((np & Hnp) & _).
  unfold _get_org_pos. rewrite (rd_Some _ _ _ Hn), bind_Ok. cbv zeta.
  rewrite Hnp, bind_Ok. eauto.
Qed.

Lemma _get_cur_pos_Ok h b : is_Some (muts st !! h) → ∃ t, _get_cur_pos st h b = Ok t.
Proof.
  intros [n Hn]. destruct (Hlinked _ _ Hn) as ((np & Hnp) & _).
  unfold _get_cur_pos. rewrite (rd_Some _ _ _ Hn), bind_Ok, Hnp, bind_Ok. eauto.
Qed.

Lemma _get_mated_pos_Ok h b : is_Some (muts st !! h) → ∃ r, _get_mated_pos st h b = Ok r.
Proof.
  intros [n Hn]. destruct (Hlinked _ _ Hn) as (_ & Hl & Hr).
  unfold _get_mated_pos. rewrite (rd_Some _ _ _ Hn), bind_Ok. cbv zeta.
  destruct (if b then n_l n else n_r n) as [mt|] eqn:Hmt; [|eauto].
  assert (is_Some (muts st !! mt)) as Hm by (destruct b; eauto).
  destruct (_get_org_pos_Ok h b ltac:(eauto)) as (z1 & ->).
  destruct (_get_org_pos_Ok mt (negb b) Hm) as (z2 & ->).
  destruct Hm as [nm Hnm]. destruct (Hlinked _ _ Hnm) as ((pm & Hpm) & _).
  rewrite !bind_Ok, (rd_Some _ _ _ Hnm), bind_Ok, Hpm, bind_Ok. eauto.
Qed.

Lemma _add_sv_to_dict_Ok svs h b :
  is_Some (muts st !! h) → ∃ svs', _add_sv_to_dict st svs h b = Ok svs'.
Proof.
  intros Hh. unfold _add_sv_to_dict.
  destruct (_get_mated_pos_Ok h b Hh) as (r & ->).
  destruct (_get_cur_pos_Ok h b Hh) as (t & ->). rewrite !bind_Ok.
  destruct r as [[[matePos mateIsLeft] isAdj]|]; [|eauto].
  cbv zeta. destruct (negb isAdj); eauto.
Qed.

Lemma read_loop_Ok d ps : ∀ cur svs,
  (∀ c, cur = Some c → is_Some (muts st !! c)) →
  ∃ svs', read_loop st d ps cur svs = Ok svs'.
Proof.
  induction ps as [|p ps IH]; intros cur svs Hcur.
  { destruct cur; simpl; eauto. }
  destruct cur as [c|]; [|simpl; eauto].
  destruct (Hcur c eq_refl) as [nc Hnc]. simpl.
  rewrite (rd_Some _ _ _ Hnc), bind_Ok.
  destruct (Hlinked _ _ Hnc) as (_ & _ & Hr).
  destruct (if bool_decide (n_end nc < p) then n_r nc else Some c) as [c'|] eqn:Hc';
    [|eauto].
  assert (is_Some (muts st !! c')) as Hsome.
  { case_bool_decide; [by apply Hr|]. injection Hc' as <-. eauto. }
  destruct Hsome as [nc' Hnc']. rewrite (rd_Some _ _ _ Hnc'), bind_Ok.
  assert (∃ svs1, (if _is_between (n_bgn nc') (p - d) (p + d)
                   then _add_sv_to_dict st svs c' true else Ok svs) = Ok svs1)
    as (svs1 & ->).
  { destruct (_is_between _ _ _); [|eauto]. apply _add_sv_to_dict_Ok. eauto. }
  rewrite bind_Ok.
  assert (∃ svs2, (if _is_between (n_end nc') (p - d) (p + d)
                   then _add_sv_to_dict st svs1 c' false else Ok svs1) = Ok svs2)
    as (svs2 & ->).
  { destruct (_is_between _ _ _); [|eauto]. apply _add_sv_to_dict_Ok. eauto. }
  rewrite bind_Ok. apply IH. intros ? [= <-]. eauto.
Qed.
End reads.

Lemma create_linked s : linked (create s).
Proof.
  intros h n Hn. simpl in Hn. apply lookup_singleton_Some in Hn as [<- <-]. simpl.
  split; [|done]. eexists. unfold parent_node. simpl. apply rd_Some.
  apply lookup_singleton_eq.
Qed.

Lemma reachable_linked s st : reachable s st → linked st.
Proof.
  intros Hreach.
  destruct (reachable_Good _ _ Hreach) as [[HN (Lo & Lm & HR & HA)]|[_ ->]].
  - eapply Rep_linked; [done|apply HA].
  - apply create_linked.
Qed.

Lemma sample_reads_Ok s st read_len ps :
  reachable s st → ∃ svs, sample_reads read_len ps st = Ok svs.
Proof.
  intros Hreach. unfold sample_reads. apply read_loop_Ok.
  - by eapply reachable_linked.
  - intros c Hc.
    destruct (reachable_Good _ _ Hreach) as [[HN (Lo & Lm & HR & HA)]|[_ ->]].
    + rewrite (rep_hd _ _ _ (Rep_mut _ _ _ HR)) in Hc. apply first_id_in in Hc.
      apply list_elem_of_fmap in Hc as (y & -> & Hy).
      destruct (rep_lookup_seg _ _ _ _ (Rep_mut _ _ _ HR) Hy) as (n' & Hn' & _). eauto.
    + injection Hc as <-. simpl. rewrite lookup_singleton_eq. eauto.
Qed.



(** ** One breakpoint of one read *)

Lemma touch_lookup (key : Z * bool) (svs : gmap (Z * bool) SvRec) (k : Z * bool) :
  touch key svs !! k =
  if decide (k = key) then Some (default (mkSvRec 0 0 None) (svs !! key)) else svs !! k.
Proof.
  unfold touch. destruct (decide (k = key)) as [->|Hne].
  - destruct (svs !! key) eqn:E; simpl; [done|]. by rewrite lookup_insert_eq.
  - destruct (svs !! key) eqn:E; [done|]. by rewrite lookup_insert_ne.
Qed.

(** X5.  What [_add_sv_to_dict] does for a breakpoint with a mate that is not
    adjacent in the original sequence: the record of the breakpoint counts
    one more read and one more mated read and names the mate; the record of
    the mate names the breakpoint, and its counters are as they were (zero
    when the record is new); the other records are untouched. *)
Theorem add_sv_not_adjacent st svs cur isBgn matePos mateIsLeft curTup :
  _get_mated_pos st cur isBgn = Ok (Some (matePos, mateIsLeft, false)) →
  _get_cur_pos st cur isBgn = Ok curTup →
  let mateTup := (matePos, mateIsLeft) in
  let old k := default (mkSvRec 0 0 None) (svs !! k) in
  ∃ svs', _add_sv_to_dict st svs cur isBgn = Ok svs' ∧
    svs' !! curTup =
      Some (mkSvRec (total_reads (old curTup) + 1) (mated_reads (old curTup) + 1)
                    (Some (if decide (mateTup = curTup) then curTup else mateTup))) ∧
    (mateTup ≠ curTup →
     svs' !! mateTup =
       Some (mkSvRec (total_reads (old mateTup)) (mated_reads (old mateTup))
                     (Some curTup))) ∧
    (∀ k, k ≠ curTup → k ≠ mateTup → svs' !! k = svs !! k).
Proof.
  intros Hm Hc mateTup old. unfold _add_sv_to_dict.
  rewrite Hm, Hc, !bind_Ok. cbv zeta. simpl negb. cbv iota.
  eexists. split; [reflexivity|]. fold mateTup.
  split; [|split].
  - destruct (decide (mateTup = curTup)) as [Heq|Hne].
    + rewrite Heq. rewrite !lookup_alter_eq, !touch_lookup.
      rewrite decide_True by done. rewrite decide_True by done. done.
    + rewrite lookup_alter_ne by done. rewrite !lookup_alter_eq, !touch_lookup.
      rewrite decide_False by done. rewrite decide_True by done. done.
  - intros Hne. rewrite lookup_alter_eq. rewrite !lookup_alter_ne by done.
    rewrite touch_lookup, decide_True by done. simpl.
    rewrite touch_lookup, decide_False by done. done.
  - intros k Hk1 Hk2. rewrite !lookup_alter_ne by done.
    rewrite !touch_lookup. by rewrite !decide_False by done.
Qed.

Lemma add_sv_not_adjacent_witness :
  let st := after (rem 1 3 (create (str "ATCCGA"))) in
  let svs : gmap (Z * bool) SvRec := ∅ in
  let curTup := (0, true) in
  let mateTup := (4, false) in
  let old k := default (mkSvRec 0 0 None) (svs !! k) in
  ∃ svs', _add_sv_to_dict st svs 0 false = Ok svs' ∧
    svs' !! curTup =
      Some (mkSvRec (total_reads (old curTup) + 1) (mated_reads (old curTup) + 1)
                    (Some (if decide (mateTup = curTup) then curTup else mateTup))) ∧
    (mateTup ≠ curTup →
     svs' !! mateTup =
       Some (mkSvRec (total_reads (old mateTup)) (mated_reads (old mateTup))
                     (Some curTup))) ∧
    (∀ k, k ≠ curTup → k ≠ mateTup → svs' !! k = svs !! k).
Proof.
  intros st svs curTup mateTup.
  apply (add_sv_not_adjacent st svs 0 false 4 false curTup); vm_compute; reflexivity.
Defined.

(** * Copy numbers account for the whole sequence *)

Definition seg_len {X} (s : Seg X) : Z := s_end s - s_bgn s + 1.

(** The length that the copy numbers returned by [get_copy_nums] stand
    for: each original segment counted as many times as its copy number. *)
Definition accounted (bgns ends : list Z) (cps : list nat) : Z :=
  foldr Z.add 0 (zip_with (λ be c, Z.of_nat c * (be.2 - be.1 + 1)) (zip bgns ends) cps).

Definition weight (l : list (nat * Z)) : Z := foldr (λ p acc, p.2 + acc) 0 l.

Lemma weight_app l1 l2 : weight (l1 ++ l2) = weight l1 + weight l2.
Proof. induction l1 as [|p l1 IH]; csimpl; [done|]. rewrite IH. lia. Qed.

Lemma weight_Permutation l1 l2 : l1 ≡ₚ l2 → weight l1 = weight l2.
Proof. induction 1; simpl; lia. Qed.

Lemma weight_const (cs : list nat) z :
  weight ((λ c, (c, z)) <$> cs) = Z.of_nat (length cs) * z.
Proof. induction cs as [|c cs IH]; csimpl; [done|]. rewrite IH. lia. Qed.

(** Each node of the mutated list is a child of one original segment, which
    is as long as it is. *)
Lemma kin_pairs Lo Lm :
  NoDup (ids Lo) → NoDup (ids Lm) → kin Lo Lm →
  (Lo ≫= λ o, (λ c, (c, seg_len o)) <$> children (s_ext o)) ≡ₚ
  ((λ s, (s_id s, seg_len s)) <$> Lm).
Proof.
  intros Hno Hnm Hkin. apply NoDup_Permutation.
  - apply NoDup_bind.
    + intros o1 o2 [c z] Ho1 Ho2 Hin1 Hin2.
      apply list_elem_of_fmap in Hin1 as (c1 & [= -> _] & Hc1).
      apply list_elem_of_fmap in Hin2 as (c2 & [= -> _] & Hc2).
      destruct (kin_children _ _ Hkin o1 Ho1) as (_ & Hk1).
      destruct (Hk1 _ Hc1) as (s1 & Hs1 & Hid1 & Hp1).
      pose proof (kin_child_unique Lo Lm s1 o2 Hnm Hkin Hs1 Ho2) as Hp2.
      rewrite Hid1 in Hp2. specialize (Hp2 Hc2). rewrite Hp1 in Hp2.
      injection Hp2 as Hid. by apply (seg_inj_id Lo).
    + intros o Ho. apply (NoDup_fmap_2_strong _).
      * intros c1 c2 _ _ [= ->]. done.
      * apply (kin_children _ _ Hkin o Ho).
    + eapply NoDup_fmap_1, Hno.
  - apply (NoDup_fmap_1 fst). rewrite <- list_fmap_compose. apply Hnm.
  - intros [c z]. rewrite list_elem_of_bind, list_elem_of_fmap. split.
    + intros (o & Hin & Ho). apply list_elem_of_fmap in Hin as (c' & [= -> ->] & Hc).
      destruct (kin_children _ _ Hkin o Ho) as (_ & Hk).
      destruct (Hk _ Hc) as (s & Hs & Hid & Hp).
      destruct (kin_parent_unique Lo Lm s o Hno Hkin Hs Ho Hp) as [_ Hlen].
      exists s. split; [|done]. unfold seg_len. rewrite Hid. f_equal. lia.
    + intros (s & [= -> ->] & Hs).
      destruct (kin_parent _ _ Hkin s Hs) as (o & Ho & Hp & Hc & Hlen).
      exists o. split; [|done]. apply list_elem_of_fmap. exists (s_id s).
      split; [|done]. unfold seg_len. f_equal. lia.
Qed.

Lemma weight_children (Lo : list (Seg OrgX)) :
  weight (Lo ≫= λ o, (λ c, (c, seg_len o)) <$> children (s_ext o)) =
  foldr Z.add 0 ((λ o, Z.of_nat (length (children (s_ext o))) * seg_len o) <$> Lo).
Proof.
  induction Lo as [|o Lo IH]; [done|].
  rewrite bind_cons, weight_app, weight_const, IH. done.
Qed.

Lemma weight_segs {X} (L : list (Seg X)) :
  weight ((λ s, (s_id s, seg_len s)) <$> L) = total_len (ivl L).
Proof. induction L as [|s L IH]; csimpl; [done|]. rewrite IH. unfold seg_len. simpl. lia. Qed.

(** X6.  On every reachable profile the copy numbers account for the sequence:
    the lengths of the original segments, each counted as many times as its
    copy number, add up to the length of the current sequence. *)
Theorem copy_numbers_account s st :
  reachable s st →
  ∃ bgns ends cps,
    get_copy_nums st = Ok (bgns, ends, cps) ∧ accounted bgns ends cps = len st.
Proof.
  intros Hreach.
  destruct (reachable_Good _ _ Hreach) as [[HN (Lo & Lm & HR & HA)]|[_ ->]].
  2:{ eexists _, _, _. split; vm_compute; reflexivity. }
  eexists _, _, _. split; [apply (get_copy_nums_Rep _ _ _ HR)|].
  unfold accounted. rewrite zip_fmap_ivl. unfold ivl.
  rewrite zip_with_fmap_l, zip_with_fmap_r, zip_with_diag. simpl.
  change (foldr Z.add 0 ((λ o, Z.of_nat (length (children (s_ext o))) * seg_len o) <$> Lo)
          = len st).
  rewrite <- weight_children.
  rewrite (weight_Permutation _ _ (kin_pairs Lo Lm (rep_nodup _ _ _ (Rep_org _ _ _ HR))
             (rep_nodup _ _ _ (Rep_mut _ _ _ HR)) (AI_kin _ _ _ _ HA))).
  rewrite weight_segs, (tiling_total _ _ _ (AI_mut _ _ _ _ HA)). lia.
Qed.

Lemma copy_numbers_account_witness :
  let st := after (amp 0 8 (after (amp 1 3 (create (str "ATCCGA"))))) in
  ∃ bgns ends cps,
    get_copy_nums st = Ok (bgns, ends, cps) ∧ accounted bgns ends cps = len st.
Proof.
  intros st. apply (copy_numbers_account (str "ATCCGA") st).
  apply (reach_step _ (after (amp 1 3 (create (str "ATCCGA")))) Amplify 0 8 true).
  - apply (reach_step _ (create (str "ATCCGA")) Amplify 1 3 true);
      [apply reach_create|vm_compute; reflexivity].
  - vm_compute. reflexivity.
Defined.

(** * When a call is rejected *)

(** The exception a call raises when the region is not there after
    [_2split]: [inv] and [rem] reach [None.r] or [None.l], [amp] unpacks
    the [None] that [_copy_from_to] returns. *)
Definition fault (o : op) : exn :=
  match o with Amplify => TypeError | _ => AttributeError end.

Lemma run_cases s st o bgn end_ :
  reachable s st →
  ∃ b, rejected bgn end_ st = Ok b ∧
       (b = true → run o bgn end_ st = Ok (false, st)) ∧
       (b = false →
        (∃ st', run o bgn end_ st = Ok (true, st')) ∨
        run o bgn end_ st = Raise (fault o)).
Proof.
  intros Hreach.
  destruct (reachable_Good _ _ Hreach) as [[HN (Lo & Lm & HR & HA)]|[_ ->]].
  2:{ exists true. split; [by apply rejected_empty|]. split; [|done].
      intros _. by apply run_empty. }
  destruct o; simpl.
  - destruct (inv_spec _ _ _ _ bgn end_ HR HA)
      as [[Hrj Heq]|(Hrj & st1 & Lo1 & Lm1 & _ & _ & _ & _ & _ &
           [[_ Heq]|(A & mid & D & sih & sit & st2 & _ & Heq & _)])];
      rewrite Hrj, Heq; [exists true|exists false|exists false];
      (split; [reflexivity|]); split; intros; try done; eauto.
  - destruct (rem_spec _ _ _ _ bgn end_ HR HA)
      as [[Hrj Heq]|(Hrj & st1 & Lo1 & Lm1 & _ & _ & _ & _ & _ &
           [[_ Heq]|(A & mid & D & sih & sit & st2 & _ & Heq & _)])];
      rewrite Hrj, Heq; [exists true|exists false|exists false];
      (split; [reflexivity|]); split; intros; try done; eauto.
  - destruct (amp_spec _ _ _ _ bgn end_ HR HA)
      as [[Hrj Heq]|(Hrj & st1 & Lo1 & Lm1 & _ & _ & _ & _ & _ &
           [[_ Heq]|(A & mid & D & sih & sit & st2 & _ & Heq & _)])];
      rewrite Hrj, Heq; [exists true|exists false|exists false];
      (split; [reflexivity|]); split; intros; try done; eauto.
Qed.

(** The bounds that the guard of [inv], [rem] and [amp] refuses, read on
    the intervals [im] of the mutated list of a sequence of length [M]. *)
Definition refused (bgn end_ M : Z) (im : list (Z * Z)) : Prop :=
  (bgn < 0 ∨ bgn > end_ ∨ end_ >= M) ∨
  (bgn ≠ 0 ∧ ∃ e, (bgn, e) ∈ im) ∨
  (end_ + 1 < M ∧ ∃ b, (b, end_) ∈ im).

Lemma splitable_refused bgn end_ M (Lm : list (Seg MutX)) :
  (0 <= bgn <= end_ ∧ end_ < M) ∧ splitable bgn end_ M Lm ↔ ¬ refused bgn end_ M (ivl Lm).
Proof.
  unfold refused, splitable, ivl. split.
  - intros [Hb [H1 H2]] [Hout|[[Hne [e He]]|[Hlt [b Hb']]]]; [lia| |].
    + destruct H1 as [?|H1]; [done|].
      apply list_elem_of_fmap in He as (x & [= Hx _] & Hin). by apply (H1 x).
    + destruct H2 as [?|H2]; [done|].
      apply list_elem_of_fmap in Hb' as (x & [= _ Hx] & Hin). by apply (H2 x).
  - intros Hnr. split; [|split].
    + destruct (decide (0 <= bgn <= end_ ∧ end_ < M)) as [?|Hn]; [done|].
      exfalso. apply Hnr. left. lia.
    + destruct (decide (bgn = 0)) as [?|Hne]; [by left|]. right.
      intros x Hx Heq. apply Hnr. right. left. split; [done|].
      exists (s_end x). apply list_elem_of_fmap. exists x. by rewrite Heq.
    + destruct (decide (end_ + 1 < M)) as [Hlt|?]; [|by left]. right.
      intros x Hx Heq. apply Hnr. right. right. split; [done|].
      exists (s_bgn x). apply list_elem_of_fmap. exists x. by rewrite Heq.
Qed.

(** X7.  On a reachable profile, [inv], [rem] and [amp] return [False] and
    leave the profile as it is exactly when the bounds are out of the
    sequence, or [bgn] is not 0 and a node of the mutated list begins at
    [bgn], or [end + 1] is less than the length and a node ends at [end].
    With other bounds the call returns [True] or raises: [AttributeError]
    from [inv] and [rem], [TypeError] from [amp]. *)
Theorem guard_refuses s st o bgn end_ :
  reachable s st →
  ∃ im, mut_intervals st = Ok im ∧
    (refused bgn end_ (len st) im → run o bgn end_ st = Ok (false, st)) ∧
    (¬ refused bgn end_ (len st) im →
     (∃ st', run o bgn end_ st = Ok (true, st')) ∨
     run o bgn end_ st = Raise (fault o)).
Proof.
  intros Hreach.
  destruct (reachable_Good _ _ Hreach) as [[HN (Lo & Lm & HR & HA)]|[_ ->]].
  2:{ eexists. split; [vm_compute; reflexivity|]. split.
      - intros _. by apply run_empty.
      - intros Hnr. exfalso. apply Hnr. left. unfold len. simpl. lia. }
  exists (ivl Lm). split; [by apply (mut_intervals_Rep _ _ _ HR)|].
  destruct (run_cases s st o bgn end_ Hreach) as (b & Hrj & Ht & Hf).
  destruct (rejected_spec _ _ _ bgn end_ HR) as (b' & Hrj' & Hiff).
  rewrite Hrj in Hrj'. injection Hrj' as <-.
  rewrite splitable_refused in Hiff. split.
  - intros Href. apply Ht. destruct b; [done|]. exfalso. by apply Hiff.
  - intros Hnr. apply Hf. by apply Hiff.
Qed.

Lemma guard_refuses_witness :
  let st := after (inv 1 3 (create (str "ATCCGA"))) in
  ∃ im, mut_intervals st = Ok im ∧
    (refused 1 3 (len st) im → run Delete 1 3 st = Ok (false, st)) ∧
    (¬ refused 1 3 (len st) im →
     (∃ st', run Delete 1 3 st = Ok (true, st')) ∨
     run Delete 1 3 st = Raise (fault Delete)).
Proof.
  intros st. apply (guard_refuses (str "ATCCGA") st Delete 1 3).
  apply (reach_step _ (create (str "ATCCGA")) Invert 1 3 true);
    [apply reach_create|vm_compute; reflexivity].
Defined.

(** * When a call raises *)

Lemma region_bounds {X} bgn end_ (L A mid D : list (Seg X)) sih sit :
  region bgn end_ L A mid D sih sit →
  (∃ e, (bgn, e) ∈ ivl L) ∧ (∃ b, (b, end_) ∈ ivl L).
Proof.
  intros Hrg. destruct (region_ends _ _ _ _ _ _ _ _ Hrg) as (_ & _ & Hih & Hit).
  pose proof (rg_L _ _ _ _ _ _ _ _ Hrg) as HL.
  split.
  - exists (s_end sih). apply list_elem_of_fmap. exists sih.
    rewrite (rg_bgn _ _ _ _ _ _ _ _ Hrg). split; [done|].
    rewrite HL, !elem_of_app. tauto.
  - exists (s_bgn sit). apply list_elem_of_fmap. exists sit.
    rewrite (rg_end _ _ _ _ _ _ _ _ Hrg). split; [done|].
    rewrite HL, !elem_of_app. tauto.
Qed.

Lemma no_region_bounds {X} bgn end_ z (L : list (Seg X)) z' :
  tiling z L z' → bgn <= end_ → no_region bgn end_ L →
  ¬ ((∃ e, (bgn, e) ∈ ivl L) ∧ (∃ b, (b, end_) ∈ ivl L)).
Proof.
  intros Ht Hle [Hall|(A & s & R & -> & HA & Hs & Hall)] [[e He] [b Hb]].
  - apply list_elem_of_fmap in He as (x & [= Hx _] & Hin).
    rewrite Forall_forall in Hall. by apply (Hall x).
  - apply list_elem_of_fmap in Hb as (x & [= _ Hx] & Hin).
    apply elem_of_app in Hin as [Hin|Hin].
    + pose proof (tiling_middle _ _ _ _ _ _ Ht Hin). lia.
    + rewrite Forall_forall in Hall. by apply (Hall x).
Qed.

(** X8.  When the guard lets a call through, the call first splits at [bgn] and
    at [end + 1].  It returns [True] exactly when, after these splits, a
    node of the mutated list begins at [bgn] and a node ends at [end];
    otherwise it raises, [inv] and [rem] an [AttributeError] and [amp] a
    [TypeError]. *)
Theorem raises_without_boundaries s st o bgn end_ :
  reachable s st → rejected bgn end_ st = Ok false →
  ∃ st1 im,
    _2split bgn end_ st = Ok st1 ∧ mut_intervals st1 = Ok im ∧
    (((∃ e, (bgn, e) ∈ im) ∧ (∃ b, (b, end_) ∈ im)) →
     ∃ st', run o bgn end_ st = Ok (true, st')) ∧
    (¬ ((∃ e, (bgn, e) ∈ im) ∧ (∃ b, (b, end_) ∈ im)) →
     run o bgn end_ st = Raise (fault o)).
Proof.
  intros Hreach Hrj.
  destruct (reachable_Good _ _ Hreach) as [[HN (Lo & Lm & HR & HA)]|[_ ->]].
  2:{ by rewrite rejected_empty in Hrj. }
  destruct (rejected_false_inv _ _ _ _ _ HR Hrj) as [Hb _].
  assert (∃ st1 Lm1 Lo1, _2split bgn end_ st = Ok st1 ∧ Rep st1 Lo1 Lm1 ∧
            tiling 0 Lm1 (len st) ∧
            ((no_region bgn end_ Lm1 ∧ run o bgn end_ st = Raise (fault o)) ∨
             (∃ A mid D sih sit st', region bgn end_ Lm1 A mid D sih sit ∧
                                     run o bgn end_ st = Ok (true, st'))))
    as (st1 & Lm1 & Lo1 & Hsp & HR1 & Ht & Hcases).
  { destruct o; simpl.
    - destruct (inv_spec _ _ _ _ bgn end_ HR HA)
        as [[Hrj' _]|(_ & st1 & Lo1 & Lm1 & Hsp & HR1 & HA1 & _ & _ &
             [[Hno Heq]|(A & mid & D & sih & sit & st2 & Hrg & Heq & _)])];
        [congruence| |]; exists st1, Lm1, Lo1;
        (split; [done|]); (split; [done|]); (split; [apply HA1|]); eauto 10.
    - destruct (rem_spec _ _ _ _ bgn end_ HR HA)
        as [[Hrj' _]|(_ & st1 & Lo1 & Lm1 & Hsp & HR1 & HA1 & _ & _ &
             [[Hno Heq]|(A & mid & D & sih & sit & st2 & Hrg & Heq & _)])];
        [congruence| |]; exists st1, Lm1, Lo1;
        (split; [done|]); (split; [done|]); (split; [apply HA1|]); eauto 10.
    - destruct (amp_spec _ _ _ _ bgn end_ HR HA)
        as [[Hrj' _]|(_ & st1 & Lo1 & Lm1 & Hsp & HR1 & HA1 & _ & _ &
             [[Hno Heq]|(A & mid & D & sih & sit & st2 & Hrg & Heq & _)])];
        [congruence| |]; exists st1, Lm1, Lo1;
        (split; [done|]); (split; [done|]); (split; [apply HA1|]); eauto 10. }
  exists st1, (ivl Lm1). split; [done|].
  split; [by apply (mut_intervals_Rep _ _ _ HR1)|].
  destruct Hcases as [[Hno Heq]|(A & mid & D & sih & sit & st' & Hrg & Heq)].
  - assert (bgn <= end_) as Hle by lia.
    pose proof (no_region_bounds _ _ _ _ _ Ht Hle Hno) as Hnb. split; [|done].
    intros Hboth. exfalso. by apply Hnb.
  - split; [eauto|]. intros Hnb. exfalso. apply Hnb. by eapply region_bounds.
Qed.

Lemma raises_without_boundaries_witness :
  ∃ st1 im,
    _2split 1 4 (create (str "ATCCGA")) = Ok st1 ∧ mut_intervals st1 = Ok im ∧
    (((∃ e, (1, e) ∈ im) ∧ (∃ b, (b, 4) ∈ im)) →
     ∃ st', run Amplify 1 4 (create (str "ATCCGA")) = Ok (true, st')) ∧
    (¬ ((∃ e, (1, e) ∈ im) ∧ (∃ b, (b, 4) ∈ im)) →
     run Amplify 1 4 (create (str "ATCCGA")) = Raise (fault Amplify)).
Proof.
  apply (raises_without_boundaries (str "ATCCGA") (create (str "ATCCGA")) Amplify 1 4).
  - apply reach_create.
  - vm_compute. reflexivity.
Defined.

(** * What an inversion leaves alone *)

(** X9.  When [inv(bgn, end)] returns [True] on a reachable profile: the
    sequence is prefix + reversed S + suffix and keeps its length; with
    respect to the profile after [_2split], the original list and the copy
    numbers are the same, no node is added or dropped, and the nodes of
    the mutated list outside [[bgn, end]] keep their interval, orientation
    and parent. *)
Theorem invert_effect s st bgn end_ st' :
  reachable s st → inv bgn end_ st = Ok (true, st') →
  ∃ st1, _2split bgn end_ st = Ok st1 ∧
    len st' = len st ∧
    chrm st' = take (Z.to_nat bgn) (chrm st)
               ++ reverse (take (Z.to_nat (end_ - bgn + 1)) (drop (Z.to_nat bgn) (chrm st)))
               ++ drop (Z.to_nat (end_ + 1)) (chrm st) ∧
    org_chain st' = org_chain st1 ∧
    get_copy_nums st' = get_copy_nums st1 ∧
    (∀ h n, muts st1 !! h = Some n → n_end n < bgn ∨ end_ < n_bgn n →
       ∃ n', muts st' !! h = Some n' ∧ interval n' = interval n ∧ n_ext n' = n_ext n) ∧
    (∀ h, is_Some (muts st' !! h) ↔ is_Some (muts st1 !! h)).
Proof.
  intros Hreach Hinv.
  destruct (reachable_Good _ _ Hreach) as [[HN (Lo & Lm & HR & HA)]|[_ ->]].
  2:{ change (inv bgn end_ (create [])) with (run Invert bgn end_ (create [])) in Hinv.
      by rewrite run_empty in Hinv. }
  destruct (inv_spec _ _ _ _ bgn end_ HR HA)
    as [[_ Heq]|(Hrj & st1 & Lo1 & Lm1 & Hsp & HR1 & HA1 & Hch & Hk &
         [[_ Heq]|(A & mid & D & sih & sit & st2 & Hrg & Heq & HR' & HA' &
                    Hch' & Hlen' & Ho1 & Ho2 & Ho3 & Ho4)])];
    rewrite Heq in Hinv; try done. injection Hinv as <-.
  destruct (rejected_false_inv _ _ _ _ _ HR Hrj) as [Hbe _].
  pose proof (rg_L _ _ _ _ _ _ _ _ Hrg) as HL.
  exists st1. do 3 (split; [done|]).
  split; [unfold org_chain; by rewrite Ho1, Ho2|].
  split; [unfold get_copy_nums; by rewrite Ho1, Ho2|].
  split.
  - intros h n Hl Hout.
    pose proof (rep_lookup _ _ _ _ _ (Rep_mut _ _ _ HR1) Hl) as Hin.
    assert (seg_of h n ∈ A ++ reverse (flip_seg bgn end_ <$> mid) ++ D) as Hin'.
    { destruct (region_where _ _ _ _ _ _ _ _ _ _ _ Hrg (AI_mut _ _ _ _ HA1) Hin)
        as (Hle & [[HinA _]|[[_ [? ?]]|[HinD _]]]); simpl in *.
      - rewrite !elem_of_app. by left.
      - lia.
      - rewrite !elem_of_app. by right; right. }
    destruct (rep_lookup_seg _ _ _ _ (Rep_mut _ _ _ HR') Hin') as (n' & Hl' & Hn').
    exists n'. split; [done|]. simpl in Hn'. unfold interval.
    injection Hn' as -> -> ->. done.
  - intros h.
    assert (ids (A ++ reverse (flip_seg bgn end_ <$> mid) ++ D) ≡ₚ ids Lm1) as Hperm.
    { rewrite HL, !ids_app, ids_reverse, reverse_Permutation.
      by rewrite (ids_fmap_id (flip_seg bgn end_)). }
    assert (∀ st0 Lo0 L0, Rep st0 Lo0 L0 → is_Some (muts st0 !! h) ↔ h ∈ ids L0) as Hdom.
    { intros st0 Lo0 L0 HR0. split; [apply (rep_dom _ _ _ (Rep_mut _ _ _ HR0))|].
      intros (x & -> & Hx)%list_elem_of_fmap.
      destruct (rep_lookup_seg _ _ _ _ (Rep_mut _ _ _ HR0) Hx) as (n & Hn & _). eauto. }
    rewrite (Hdom _ _ _ HR'), (Hdom _ _ _ HR1). by rewrite Hperm.
Qed.

Lemma invert_effect_witness :
  let st := after (amp 1 3 (create (str "ATCCGA"))) in
  let st' := after (inv 2 4 st) in
  ∃ st1, _2split 2 4 st = Ok st1 ∧
    len st' = len st ∧
    chrm st' = take (Z.to_nat 2) (chrm st)
               ++ reverse (take (Z.to_nat (4 - 2 + 1)) (drop (Z.to_nat 2) (chrm st)))
               ++ drop (Z.to_nat (4 + 1)) (chrm st) ∧
    org_chain st' = org_chain st1 ∧
    get_copy_nums st' = get_copy_nums st1 ∧
    (∀ h n, muts st1 !! h = Some n → n_end n < 2 ∨ 4 < n_bgn n →
       ∃ n', muts st' !! h = Some n' ∧ interval n' = interval n ∧ n_ext n' = n_ext n) ∧
    (∀ h, is_Some (muts st' !! h) ↔ is_Some (muts st1 !! h)).
Proof.
  intros st st'.
  apply (invert_effect (str "ATCCGA") st 2 4 st').
  - apply (reach_step _ (create (str "ATCCGA")) Amplify 1 3 true);
      [apply reach_create|vm_compute; reflexivity].
  - vm_compute. reflexivity.
Defined.

(** * Calls that repeat a boundary *)






(** * The two lists stay well formed *)

Lemma create_kin (s : list ascii) :
  let e := Z.of_nat (length s) - 1 in
  kin [mkSeg 0%nat 0 e (mkOrgX [0%nat])] [mkSeg 0%nat 0 e (mkMutX (Some 0%nat) false)].
Proof.
  intros e. split.
  - intros x Hx. apply list_elem_of_singleton in Hx as ->.
    eexists. split; [left|]. simpl. repeat split. left.
  - intros o Ho. apply list_elem_of_singleton in Ho as ->. simpl.
    split; [apply NoDup_singleton|]. intros c' Hc'.
    apply list_elem_of_singleton in Hc' as ->.
    eexists. split; [left|]. done.
Qed.

Lemma reachable_Rep s st : reachable s st → ∃ Lo Lm, Rep st Lo Lm ∧ kin Lo Lm.
Proof.
  intros Hreach.
  destruct (reachable_Good _ _ Hreach) as [[HN (Lo & Lm & HR & HA)]|[_ ->]].
  - exists Lo, Lm. split; [done|apply HA].
  - eexists _, _. split; [apply create_Rep|apply create_kin].
Qed.

Lemma rep_links {X} (m : gmap nat (Node X)) hd L h n :
  rep m hd L → m !! h = Some n →
  (∀ r, n_r n = Some r → ∃ nr, m !! r = Some nr ∧ n_l nr = Some h) ∧
  (∀ l, n_l n = Some l → ∃ nl, m !! l = Some nl ∧ n_r nl = Some h).
Proof.
  intros Hrep Hl.
  pose proof (rep_lookup _ _ _ _ _ Hrep Hl) as Hin.
  apply list_elem_of_split in Hin as (L1 & L2 & HL).
  pose proof (rep_seg _ _ _ Hrep) as Hseg. rewrite HL in Hseg.
  pose proof (dlseg_middle _ _ _ _ _ _ Hseg) as Hc. simpl in Hc.
  rewrite Hl in Hc. injection Hc as Hc. split.
  - intros r Hr. rewrite Hc in Hr. simpl in Hr.
    destruct L2 as [|y L2]; [done|]. simpl in Hr. injection Hr as <-.
    rewrite (cons_middle (seg_of h n)), app_assoc in Hseg.
    pose proof (dlseg_middle _ _ _ _ _ _ Hseg) as Hy.
    eexists. split; [done|]. simpl. by rewrite last_id_snoc.
  - intros l Hll. rewrite Hc in Hll. simpl in Hll.
    destruct L1 as [|y L1 _] using rev_ind; [done|].
    rewrite last_id_snoc in Hll. injection Hll as <-.
    rewrite <- app_assoc in Hseg. simpl in Hseg.
    pose proof (dlseg_middle _ _ _ _ _ _ Hseg) as Hy.
    eexists. split; [done|]. done.
Qed.

(** X11.  On every reachable profile both lists are properly linked: the right
    neighbour of a node has that node as its left neighbour and the other
    way round, every link leads to a node, and the head of each list has no
    left neighbour. *)
Theorem links_consistent s st :
  reachable s st →
  (∀ h n, muts st !! h = Some n →
     (∀ r, n_r n = Some r → ∃ nr, muts st !! r = Some nr ∧ n_l nr = Some h) ∧
     (∀ l, n_l n = Some l → ∃ nl, muts st !! l = Some nl ∧ n_r nl = Some h)) ∧
  (∀ h n, orgs st !! h = Some n →
     (∀ r, n_r n = Some r → ∃ nr, orgs st !! r = Some nr ∧ n_l nr = Some h) ∧
     (∀ l, n_l n = Some l → ∃ nl, orgs st !! l = Some nl ∧ n_r nl = Some h)) ∧
  (∀ h, mut st = Some h → ∃ n, muts st !! h = Some n ∧ n_l n = None) ∧
  (∀ h, org st = Some h → ∃ n, orgs st !! h = Some n ∧ n_l n = None).
Proof.
  intros Hreach. destruct (reachable_Rep _ _ Hreach) as (Lo & Lm & HR & _).
  assert (∀ X (m : gmap nat (Node X)) hd L h,
            rep m hd L → hd = Some h → ∃ n, m !! h = Some n ∧ n_l n = None) as Hhead.
  { intros X m hd L h Hrep Hh. rewrite (rep_hd _ _ _ Hrep) in Hh.
    destruct L as [|x L]; [done|]. simpl in Hh. injection Hh as <-.
    pose proof (dlseg_middle m None [] x L None (rep_seg _ _ _ Hrep)) as Hc.
    eexists. split; [done|]. done. }
  split; [|split; [|split]].
  - intros h n Hl. by apply (rep_links _ _ _ _ _ (Rep_mut _ _ _ HR)).
  - intros h n Hl. by apply (rep_links _ _ _ _ _ (Rep_org _ _ _ HR)).
  - intros h Hh. by apply (Hhead _ _ _ _ _ (Rep_mut _ _ _ HR)).
  - intros h Hh. by apply (Hhead _ _ _ _ _ (Rep_org _ _ _ HR)).
Qed.

Lemma links_consistent_witness :
  let st := after (inv 1 3 (create (str "ATCCGA"))) in
  (∀ h n, muts st !! h = Some n →
     (∀ r, n_r n = Some r → ∃ nr, muts st !! r = Some nr ∧ n_l nr = Some h) ∧
     (∀ l, n_l n = Some l → ∃ nl, muts st !! l = Some nl ∧ n_r nl = Some h)) ∧
  (∀ h n, orgs st !! h = Some n →
     (∀ r, n_r n = Some r → ∃ nr, orgs st !! r = Some nr ∧ n_l nr = Some h) ∧
     (∀ l, n_l n = Some l → ∃ nl, orgs st !! l = Some nl ∧ n_r nl = Some h)) ∧
  (∀ h, mut st = Some h → ∃ n, muts st !! h = Some n ∧ n_l n = None) ∧
  (∀ h, org st = Some h → ∃ n, orgs st !! h = Some n ∧ n_l n = None).
Proof.
  intros st. apply (links_consistent (str "ATCCGA") st).
  apply (reach_step _ (create (str "ATCCGA")) Invert 1 3 true);
    [apply reach_create|vm_compute; reflexivity].
Defined.

(** X12.  On every reachable profile, every node of the mutated list has a parent
    in the original list, is registered once among the children of that
    parent and is as long as it; and every child registered with an
    original node is a node of the mutated list whose parent is that
    node. *)
Theorem parents_and_children s st :
  reachable s st →
  (∀ h n, muts st !! h = Some n →
     ∃ p np, parent (n_ext n) = Some p ∧ orgs st !! p = Some np ∧
             h ∈ children (n_ext np) ∧
             n_end n - n_bgn n = n_end np - n_bgn np) ∧
  (∀ p np, orgs st !! p = Some np →
     NoDup (children (n_ext np)) ∧
     ∀ c, c ∈ children (n_ext np) →
       ∃ n, muts st !! c = Some n ∧ parent (n_ext n) = Some p).
Proof.
  intros Hreach. destruct (reachable_Rep _ _ Hreach) as (Lo & Lm & HR & Hkin).
  split.
  - intros h n Hl.
    pose proof (rep_lookup _ _ _ _ _ (Rep_mut _ _ _ HR) Hl) as Hin.
    destruct (kin_parent _ _ Hkin _ Hin) as (o & Ho & Hp & Hc & Hlen). simpl in *.
    destruct (rep_lookup_seg _ _ _ _ (Rep_org _ _ _ HR) Ho) as (np & Hnp & Ho').
    exists (s_id o), np. split; [done|]. split; [done|].
    rewrite <- Ho' in Hc, Hlen. simpl in Hc, Hlen. done.
  - intros p np Hl.
    pose proof (rep_lookup _ _ _ _ _ (Rep_org _ _ _ HR) Hl) as Hin.
    destruct (kin_children _ _ Hkin _ Hin) as [Hnd Hk]. simpl in *.
    split; [done|]. intros c Hc.
    destruct (Hk c Hc) as (x & Hx & Hid & Hp).
    destruct (rep_lookup_seg _ _ _ _ (Rep_mut _ _ _ HR) Hx) as (n & Hn & Hx').
    exists n. rewrite Hid in Hn. split; [done|].
    rewrite <- Hx' in Hp. done.
Qed.

Lemma parents_and_children_witness :
  let st := after (amp 1 3 (create (str "ATCCGA"))) in
  (∀ h n, muts st !! h = Some n →
     ∃ p np, parent (n_ext n) = Some p ∧ orgs st !! p = Some np ∧
             h ∈ children (n_ext np) ∧
             n_end n - n_bgn n = n_end np - n_bgn np) ∧
  (∀ p np, orgs st !! p = Some np →
     NoDup (children (n_ext np)) ∧
     ∀ c, c ∈ children (n_ext np) →
       ∃ n, muts st !! c = Some n ∧ parent (n_ext n) = Some p).
Proof.
  intros st. apply (parents_and_children (str "ATCCGA") st).
  apply (reach_step _ (create (str "ATCCGA")) Amplify 1 3 true);
    [apply reach_create|vm_compute; reflexivity].
Defined.

(** * The records of the breakpoints *)

(** The counters of a record are in order. *)
Definition counted (svs : gmap (Z * bool) SvRec) : Prop :=
  ∀ k v, svs !! k = Some v → 0 <= mated_reads v <= total_reads v.

(** The mate that a record names has a record of its own, with a mate. *)
Definition mated (svs : gmap (Z * bool) SvRec) : Prop :=
  ∀ k v m, svs !! k = Some v → mate v = Some m →
    ∃ v', svs !! m = Some v' ∧ is_Some (mate v').

Lemma touch_is_Some (key : Z * bool) svs : is_Some (touch key svs !! key).
Proof. rewrite touch_lookup, decide_True by done. eauto. Qed.

Lemma touch_keeps (key : Z * bool) svs k v :
  svs !! k = Some v → touch key svs !! k = Some v.
Proof.
  intros Hl. rewrite touch_lookup. destruct (decide (k = key)) as [->|]; [|done].
  by rewrite Hl.
Qed.

Lemma touch_inv (key : Z * bool) svs k v :
  touch key svs !! k = Some v → svs !! k = Some v ∨ (k = key ∧ v = mkSvRec 0 0 None).
Proof.
  rewrite touch_lookup. destruct (decide (k = key)) as [->|]; [|by left].
  destruct (svs !! key); simpl; intros [= <-]; [by left|by right].
Qed.

Lemma counted_touch key svs : counted svs → counted (touch key svs).
Proof.
  intros HI k v Hl. apply touch_inv in Hl as [Hl|[_ ->]]; [by eapply HI|]. simpl. lia.
Qed.

Lemma mated_touch key svs : mated svs → mated (touch key svs).
Proof.
  intros HI k v m Hl Hm. apply touch_inv in Hl as [Hl|[_ ->]]; [|done].
  destruct (HI k v m Hl Hm) as (v' & Hl' & Hs). exists v'. split; [|done].
  by apply touch_keeps.
Qed.

Lemma lookup_alter_Some' (f : SvRec → SvRec) (svs : gmap (Z * bool) SvRec) key k v :
  alter f key svs !! k = Some v →
  (k = key ∧ ∃ v0, svs !! k = Some v0 ∧ v = f v0) ∨ (k ≠ key ∧ svs !! k = Some v).
Proof.
  destruct (decide (k = key)) as [->|Hne].
  - rewrite lookup_alter_eq. destruct (svs !! key) as [v0|]; [|done].
    intros [= <-]. left. eauto.
  - rewrite lookup_alter_ne by done. by right.
Qed.

Lemma counted_alter (f : SvRec → SvRec) key svs :
  (∀ v, 0 <= mated_reads v <= total_reads v →
        0 <= mated_reads (f v) <= total_reads (f v)) →
  counted svs → counted (alter f key svs).
Proof.
  intros Hf HI k v Hl.
  apply lookup_alter_Some' in Hl as [[-> (v0 & Hl & ->)]|[_ Hl]]; [|by eapply HI].
  apply Hf. by eapply HI.
Qed.

(** An update that keeps the mates, or sets one that has a record with a
    mate, keeps the records mated. *)
Lemma mated_alter (f : SvRec → SvRec) key svs :
  (∀ v, is_Some (mate v) → is_Some (mate (f v))) →
  (∀ v m, mate (f v) = Some m →
      mate v = Some m ∨ ∃ v', alter f key svs !! m = Some v' ∧ is_Some (mate v')) →
  mated svs → mated (alter f key svs).
Proof.
  intros Hkeep Hset HI k v m Hl Hm.
  assert (∀ m0 v0, svs !! m0 = Some v0 → is_Some (mate v0) →
            ∃ v', alter f key svs !! m0 = Some v' ∧ is_Some (mate v')) as Hstill.
  { intros m0 v0 Hl0 Hs0. destruct (decide (m0 = key)) as [->|Hne].
    - exists (f v0). rewrite lookup_alter_eq, Hl0. split; [done|by apply Hkeep].
    - exists v0. by rewrite lookup_alter_ne. }
  apply lookup_alter_Some' in Hl as [[-> (v0 & Hl & ->)]|[_ Hl]].
  - destruct (Hset v0 m Hm) as [Hm0|?]; [|done].
    destruct (HI _ _ _ Hl Hm0) as (v' & Hl' & Hs). by eapply Hstill.
  - destruct (HI _ _ _ Hl Hm) as (v' & Hl' & Hs). by eapply Hstill.
Qed.

Lemma _add_sv_to_dict_counted st svs cur isBgn svs' :
  _add_sv_to_dict st svs cur isBgn = Ok svs' → counted svs → counted svs'.
Proof.
  unfold _add_sv_to_dict. intros Hadd HI.
  destruct (_get_mated_pos st cur isBgn) as [r| |]; [|done..].
  destruct (_get_cur_pos st cur isBgn) as [curTup| |]; [|done..].
  rewrite !bind_Ok in Hadd.
  destruct r as [[[matePos mateIsLeft] isAdj]|]; [|by injection Hadd as <-].
  cbv zeta in Hadd.
  assert (counted (alter incr_total curTup (touch (matePos, mateIsLeft) (touch curTup svs))))
    as H1.
  { apply counted_alter; [intros v; simpl; lia|]. by do 2 apply counted_touch. }
  destruct isAdj; simpl in Hadd; injection Hadd as <-; [done|].
  apply counted_alter; [done|]. apply counted_alter; [done|].
  rewrite alter_alter_eq. apply counted_alter; [intros v; simpl; lia|].
  by do 2 apply counted_touch.
Qed.

Lemma _add_sv_to_dict_mated st svs cur isBgn svs' :
  _add_sv_to_dict st svs cur isBgn = Ok svs' → mated svs → mated svs'.
Proof.
  unfold _add_sv_to_dict. intros Hadd HI.
  destruct (_get_mated_pos st cur isBgn) as [r| |]; [|done..].
  destruct (_get_cur_pos st cur isBgn) as [curTup| |]; [|done..].
  rewrite !bind_Ok in Hadd.
  destruct r as [[[matePos mateIsLeft] isAdj]|]; [|by injection Hadd as <-].
  cbv zeta in Hadd. set (mateTup := (matePos, mateIsLeft)) in *.
  set (base := touch mateTup (touch curTup svs)) in *.
  assert (mated base) as Hb by (by do 2 apply mated_touch).
  assert (is_Some (base !! curTup)) as [vc Hvc].
  { destruct (touch_is_Some curTup svs) as [v Hv]. exists v. by apply touch_keeps. }
  assert (is_Some (base !! mateTup)) as [vm Hvm] by apply touch_is_Some.
  assert (mated (alter incr_total curTup base)) as H1.
  { apply mated_alter; [done| |done]. intros v m Hm. by left. }
  destruct isAdj; simpl in Hadd; injection Hadd as <-; [done|].
  assert (mated (alter incr_mated curTup (alter incr_total curTup base))) as H2.
  { apply mated_alter; [done| |done]. intros v m Hm. by left. }
  set (X := alter incr_mated curTup (alter incr_total curTup base)) in *.
  assert (is_Some (X !! curTup)) as [xc Hxc].
  { unfold X. rewrite !lookup_alter_eq, Hvc. eauto. }
  assert (is_Some (X !! mateTup)) as [xm Hxm].
  { unfold X. apply lookup_alter_is_Some, lookup_alter_is_Some. eauto. }
  intros k v m Hl Hm.
  assert (∀ key, key = curTup ∨ key = mateTup →
            ∃ v', alter (set_mate curTup) mateTup (alter (set_mate mateTup) curTup X) !! key
                  = Some v' ∧ is_Some (mate v')) as Hboth.
  { intros key [->| ->].
    - destruct (decide (curTup = mateTup)) as [Heq|Hne].
      + rewrite <- Heq. rewrite !lookup_alter_eq, Hxc. simpl. eauto.
      + rewrite lookup_alter_ne by done. rewrite lookup_alter_eq, Hxc. simpl. eauto.
    - rewrite lookup_alter_eq.
      destruct (alter (set_mate mateTup) curTup X !! mateTup) as [y|] eqn:Hy.
      + simpl. eauto.
      + exfalso. apply eq_None_not_Some in Hy. apply Hy.
        apply lookup_alter_is_Some. eauto. }
  assert (∀ v0 m0 key, X !! key = Some v0 → mate v0 = Some m0 →
            ∃ v', alter (set_mate curTup) mateTup (alter (set_mate mateTup) curTup X) !! m0
                  = Some v' ∧ is_Some (mate v')) as Hold.
  { intros v0 m0 key Hl0 Hm0.
    destruct (decide (m0 = curTup)) as [->|Hn1]; [apply Hboth; by left|].
    destruct (decide (m0 = mateTup)) as [->|Hn2]; [apply Hboth; by right|].
    rewrite !lookup_alter_ne by done. by eapply H2. }
  apply lookup_alter_Some' in Hl as [[-> (v0 & Hl & ->)]|[Hne Hl]].
  - simpl in Hm. injection Hm as <-. apply Hboth. by left.
  - apply lookup_alter_Some' in Hl as [[-> (v0 & Hl & ->)]|[Hne' Hl]].
    + simpl in Hm. injection Hm as <-. apply Hboth. by right.
    + by eapply Hold.
Qed.

Lemma read_loop_keeps (P : gmap (Z * bool) SvRec → Prop) st d :
  (∀ svs cur b svs', _add_sv_to_dict st svs cur b = Ok svs' → P svs → P svs') →
  ∀ ps cur svs svs', read_loop st d ps cur svs = Ok svs' → P svs → P svs'.
Proof.
  intros Hadd. induction ps as [|p ps IH]; intros cur svs svs' Hrun HP.
  { destruct cur; simpl in Hrun; by injection Hrun as <-. }
  destruct cur as [c|]; [|simpl in Hrun; by injection Hrun as <-].
  simpl in Hrun.
  destruct (rd (muts st) c) as [nc| |]; [|done..]. rewrite bind_Ok in Hrun.
  destruct (if bool_decide (n_end nc < p) then n_r nc else Some c) as [c'|];
    [|by injection Hrun as <-].
  destruct (rd (muts st) c') as [nc'| |]; [|done..]. rewrite bind_Ok in Hrun.
  destruct (if _is_between (n_bgn nc') (p - d) (p + d)
            then _add_sv_to_dict st svs c' true else Ok svs) as [svs1| |] eqn:H1;
    [|done..].
  rewrite bind_Ok in Hrun.
  destruct (if _is_between (n_end nc') (p - d) (p + d)
            then _add_sv_to_dict st svs1 c' false else Ok svs1) as [svs2| |] eqn:H2;
    [|done..].
  rewrite bind_Ok in Hrun.
  apply (IH _ _ _ Hrun).
  assert (P svs1) as HP1.
  { destruct (_is_between (n_bgn nc') _ _); [by eapply Hadd|by injection H1 as <-]. }
  destruct (_is_between (n_end nc') _ _); [by eapply Hadd|by injection H2 as <-].
Qed.

(** X13.  On a reachable profile, in the mapping that [get_sv_read_nums]
    returns, every record has [0 <= mated_reads <= total_reads], and the
    mate that it names is itself a key of the mapping. *)
Theorem sv_records_consistent s st read_len ps :
  reachable s st →
  ∃ svs, get_sv_read_nums read_len ps st = Ok svs ∧
    ∀ k v, svs !! k = Some v →
      0 <= mated_reads v <= total_reads v ∧
      ∃ m, mate v = Some m ∧ is_Some (svs !! m).
Proof.
  intros Hreach. destruct (sample_reads_Ok s st read_len ps Hreach) as (raw & Hraw).
  exists (del_keys (keys_to_remove raw) raw).
  split; [unfold get_sv_read_nums; by rewrite Hraw|].
  assert (counted raw) as Hc.
  { unfold sample_reads in Hraw.
    eapply (read_loop_keeps counted); [|exact Hraw|done].
    intros ?????. by eapply _add_sv_to_dict_counted. }
  assert (mated raw) as Hm.
  { unfold sample_reads in Hraw.
    eapply (read_loop_keeps mated); [|exact Hraw|done].
    intros ?????. by eapply _add_sv_to_dict_mated. }
  assert (∀ k v, del_keys (keys_to_remove raw) raw !! k = Some v ↔
                 raw !! k = Some v ∧ is_Some (mate v)) as Hiff.
  { intros k v. rewrite del_keys_lookup.
    destruct (decide (k ∈ keys_to_remove raw)) as [Hin|Hnin].
    - apply keys_to_remove_spec in Hin as (v' & Hl & Hm'). split; [done|].
      intros [Hl' [m Hm'']]. congruence.
    - split.
      + intros Hl. split; [done|]. destruct (mate v) eqn:Hmv; [eauto|].
        exfalso. apply Hnin, keys_to_remove_spec. eauto.
      + tauto. }
  intros k v Hl. apply Hiff in Hl as [Hl [m Hmv]].
  split; [by eapply Hc|]. exists m. split; [done|].
  destruct (Hm _ _ _ Hl Hmv) as (v' & Hl' & Hs'). exists v'. by apply Hiff.
Qed.

Lemma sv_records_consistent_witness :
  let st := after (rem 1 3 (create (str "ATCCGA"))) in
  ∃ svs, get_sv_read_nums 3 [0; 1; 2] st = Ok svs ∧
    ∀ k v, svs !! k = Some v →
      0 <= mated_reads v <= total_reads v ∧
      ∃ m, mate v = Some m ∧ is_Some (svs !! m).
Proof.
  intros st. apply (sv_records_consistent (str "ATCCGA") st 3 [0; 1; 2]).
  apply (reach_step _ (create (str "ATCCGA")) Delete 1 3 true);
    [apply reach_create|vm_compute; reflexivity].
Defined.

(** X14.  A profile on which no operation was made has one segment and no
    breakpoint: whatever reads are drawn, [get_sv_read_nums] returns the
    empty mapping. *)
Theorem fresh_profile_no_breakpoints (s : list ascii) read_len ps :
  get_sv_read_nums read_len ps (create s) = Ok ∅.
Proof.
  assert (∀ svs b, _add_sv_to_dict (create s) svs 0 b = Ok svs) as Hadd.
  { intros svs b. unfold _add_sv_to_dict, _get_mated_pos, _get_cur_pos, rd, parent_node, rd.
    simpl. rewrite !lookup_singleton_eq. simpl. by destruct b. }
  assert (∀ d ps' svs, read_loop (create s) d ps' (Some 0%nat) svs = Ok svs) as Hloop.
  { intros d ps'. induction ps' as [|p ps' IH]; intros svs; [done|].
    simpl. unfold rd. simpl. rewrite !lookup_singleton_eq. simpl.
    case_bool_decide; [done|]. rewrite lookup_singleton_eq. simpl.
    rewrite !Hadd.
    destruct (_is_between 0 (p - d) (p + d)),
             (_is_between (Z.of_nat (length s) - 1) (p - d) (p + d)); simpl; apply IH. }
  unfold get_sv_read_nums, sample_reads. simpl mut. rewrite Hloop, bind_Ok.
  unfold keys_to_remove. by rewrite map_to_list_empty.
Qed.

(** * The three parts of the sequence *)

(** X15.  [tri_split_str] cuts the string into three parts that give it back
    when put together, whenever [0 <= bgn <= end + 1], also when [end] is
    beyond the string: the slices are clipped as Python clips them. *)
Theorem tri_split_str_partition (s : list ascii) bgn end_ :
  0 <= bgn <= end_ + 1 →
  ∃ s1 s2 s3,
    tri_split_str s bgn end_ = (s1, s2, s3) ∧ s1 ++ s2 ++ s3 = s ∧
    Z.of_nat (length s1) = Z.min bgn (Z.of_nat (length s)) ∧
    Z.of_nat (length s1 + length s2) = Z.min (end_ + 1) (Z.of_nat (length s)).
Proof.
  intros Hb. unfold tri_split_str, py_slice. eexists _, _, _. split; [reflexivity|].
  set (n := Z.of_nat (length s)).
  assert (py_index n 0 = 0%nat) as -> by (unfold py_index; simpl; lia).
  assert (py_index n n = length s) as -> by (unfold py_index, n; destruct (_ <? _) eqn:E; lia).
  assert (py_index n bgn = Z.to_nat (Z.min bgn n)) as ->.
  { unfold py_index. by rewrite (proj2 (Z.ltb_ge _ _)) by lia. }
  assert (py_index n (end_ + 1) = Z.to_nat (Z.min (end_ + 1) n)) as ->.
  { unfold py_index. by rewrite (proj2 (Z.ltb_ge _ _)) by lia. }
  set (ib := Z.to_nat (Z.min bgn n)). set (ie := Z.to_nat (Z.min (end_ + 1) n)).
  assert (ib ≤ ie ≤ length s)%nat as Hi by (unfold ib, ie, n; lia).
  rewrite drop_0, Nat.sub_0_r.
  replace (length s - ie)%nat with (length (drop ie s)) by (rewrite length_drop; lia).
  rewrite firstn_all. split; [|split].
  - rewrite <- (take_drop ib s) at 4. f_equal.
    rewrite <- (take_drop (ie - ib) (drop ib s)) at 2. f_equal.
    rewrite drop_drop. f_equal. lia.
  - rewrite length_take. unfold ib, n. lia.
  - rewrite !length_take, length_drop. unfold ib, ie, n in *. lia.
Qed.

Lemma tri_split_str_partition_witness :
  ∃ s1 s2 s3,
    tri_split_str (str "ATCCGA") 4 9 = (s1, s2, s3) ∧ s1 ++ s2 ++ s3 = str "ATCCGA" ∧
    Z.of_nat (length s1) = Z.min 4 (Z.of_nat (length (str "ATCCGA"))) ∧
    Z.of_nat (length s1 + length s2) = Z.min (9 + 1) (Z.of_nat (length (str "ATCCGA"))).
Proof. apply (tri_split_str_partition (str "ATCCGA") 4 9). lia. Defined.

(** * The displacement of an inversion *)

(** X16.  [_get_inv_pos_diff], on bounds that a float holds exactly: whatever
    the parities of the lengths of the region and of the segment, the
    displacement mirrors the segment in the region; the mirrored segment
    is as long as the segment, lies in the region when the segment does,
    and its own displacement is the opposite one, so that mirroring twice
    gives the segment back. *)
Theorem inv_pos_diff_mirrors rgbgn rgend sgbgn sgend :
  Z.abs rgbgn < 2 ^ 51 → Z.abs rgend < 2 ^ 51 →
  let d := _get_inv_pos_diff rgbgn rgend sgbgn sgend in
  sgbgn + d = rgbgn + rgend - sgend ∧
  sgend + d = rgbgn + rgend - sgbgn ∧
  _get_inv_pos_diff rgbgn rgend (sgbgn + d) (sgend + d) = - d ∧
  (rgbgn <= sgbgn → sgend <= rgend → rgbgn <= sgbgn + d ∧ sgend + d <= rgend).
Proof.
  intros _ _ d. unfold d. rewrite !_get_inv_pos_diff_mirror. lia.
Qed.

Lemma inv_pos_diff_mirrors_witness :
  let d := _get_inv_pos_diff 2 7 3 4 in
  3 + d = 2 + 7 - 4 ∧
  4 + d = 2 + 7 - 3 ∧
  _get_inv_pos_diff 2 7 (3 + d) (4 + d) = - d ∧
  (2 <= 3 → 4 <= 7 → 2 <= 3 + d ∧ 4 + d <= 7).
Proof. apply (inv_pos_diff_mirrors 2 7 3 4); reflexivity. Defined.

(** * Splitting only refines the original list *)

(** Every segment of [Lo'] lies inside a segment of [Lo] that has as many
    children. *)
Definition refines (Lo Lo' : list (Seg OrgX)) : Prop :=
  ∀ o', o' ∈ Lo' →
    ∃ o, o ∈ Lo ∧ s_bgn o <= s_bgn o' ∧ s_end o' <= s_end o ∧
         length (children (s_ext o')) = length (children (s_ext o)).

Lemma refines_refl Lo : refines Lo Lo.
Proof. intros o Ho. exists o. repeat split; (done || lia). Qed.

Lemma refines_trans Lo1 Lo2 Lo3 : refines Lo1 Lo2 → refines Lo2 Lo3 → refines Lo1 Lo3.
Proof.
  intros H12 H23 o3 Ho3. destruct (H23 _ Ho3) as (o2 & Ho2 & ? & ? & ?).
  destruct (H12 _ Ho2) as (o1 & Ho1 & ? & ? & ?). exists o1.
  repeat split; (done || lia || congruence).
Qed.

Lemma _split_refines N st Lo Lm k :
  Rep st Lo Lm → AInv N (len st) Lo Lm → 0 <= k →
  ∃ st' Lo' Lm', _split k st = Ok st' ∧ Rep st' Lo' Lm' ∧
    AInv N (len st') Lo' Lm' ∧ chrm st' = chrm st ∧ refines Lo Lo'.
Proof.
  intros HR HA Hk0.
  destruct (_split_good N st Lo Lm k HR HA Hk0)
    as (st' & Lo' & Lm' & Hsp & HR' & HA' & Hch & _).
  exists st', Lo', Lm'. do 4 (split; [done|]).
  destruct HA as [HtO HtM HK].
  destruct (decide (k = 0 ∨ k >= len st)) as [Hout|Hin].
  { assert (_split k st = Ok st) as Heq.
    { unfold _split. destruct Hout as [Hout|Hout].
      - by rewrite (bool_decide_eq_true_2 _ Hout).
      - rewrite (bool_decide_eq_true_2 _ Hout). by rewrite orb_true_r. }
    rewrite Heq in Hsp. injection Hsp as <-.
    rewrite (rep_fun _ _ _ _ (Rep_org _ _ _ HR') (Rep_org _ _ _ HR)). apply refines_refl. }
  assert (0 < k < len st) as Hk by lia.
  destruct (tiling_locate _ _ _ k HtM) as (L1 & x & L2 & HL & Hs & H1); [lia|].
  apply holds_false_before in H1.
  destruct (decide (s_bgn x = k ∨ s_end x = k)) as [Hedge|Hmid].
  { assert (_split k st = Ok st) as Heq.
    { eapply _split_Rep_same; [done..| |done].
      unfold holds. by rewrite !bool_decide_eq_true_2 by lia. }
    rewrite Heq in Hsp. injection Hsp as <-.
    rewrite (rep_fun _ _ _ _ (Rep_org _ _ _ HR') (Rep_org _ _ _ HR)). apply refines_refl. }
  assert (x ∈ Lm) as HsL by (rewrite HL; apply elem_of_app; right; left).
  destruct (kin_parent _ _ HK x HsL) as (o & Ho & Hp & Hc & Hl).
  destruct (list_elem_of_split _ _ Ho) as (A & B & HLo).
  destruct (kin_children _ _ HK o Ho) as [Hndcs Hcs].
  assert (∀ c, c ∈ children (s_ext o) → c ∈ ids Lm) as Hkids.
  { intros c Hc'. destruct (Hcs c Hc') as (s' & Hs' & <- & _). by apply elem_of_ids. }
  destruct (_split_Rep_cut st Lo Lm k L1 x L2 A o B) as (st2 & Hst2 & HR2 & _);
    [done|done|done|lia|done|done|done|done|].
  rewrite Hst2 in Hsp. injection Hsp as <-.
  rewrite (rep_fun _ _ _ _ (Rep_org _ _ _ HR') (Rep_org _ _ _ HR2)).
  intros o' Ho'. rewrite HLo.
  apply elem_of_app in Ho' as [Ho'|Ho'].
  { exists o'. split; [apply elem_of_app; by left|]. repeat split; (done || lia). }
  apply elem_of_cons in Ho' as [->|Ho'].
  { exists o. split; [apply elem_of_app; right; left|]. simpl. repeat split; (done || lia). }
  apply elem_of_cons in Ho' as [->|Ho'].
  { exists o. split; [apply elem_of_app; right; left|]. simpl.
    rewrite length_seq. repeat split; (done || lia). }
  exists o'. split; [apply elem_of_app; by right; right|]. repeat split; (done || lia).
Qed.

Lemma _2split_refines N st Lo Lm bgn end_ :
  Rep st Lo Lm → AInv N (len st) Lo Lm → 0 <= bgn <= end_ →
  ∃ st' Lo' Lm', _2split bgn end_ st = Ok st' ∧ Rep st' Lo' Lm' ∧
    chrm st' = chrm st ∧ refines Lo Lo'.
Proof.
  intros HR HA Hb. unfold _2split.
  assert (∃ st1 Lo1 Lm1,
    (if bool_decide (bgn > 0) then _split bgn st else Ok st) = Ok st1 ∧
    Rep st1 Lo1 Lm1 ∧ AInv N (len st1) Lo1 Lm1 ∧ chrm st1 = chrm st ∧ refines Lo Lo1)
    as (st1 & Lo1 & Lm1 & -> & HR1 & HA1 & Hch1 & Hr1).
  { case_bool_decide.
    - apply (_split_refines N st Lo Lm); [done|done|lia].
    - exists st, Lo, Lm. do 4 (split; [done|]). apply refines_refl. }
  rewrite bind_Ok.
  assert (∃ st2 Lo2 Lm2,
    (if bool_decide (end_ + 1 < len st) then _split (end_ + 1) st1 else Ok st1) = Ok st2 ∧
    Rep st2 Lo2 Lm2 ∧ AInv N (len st2) Lo2 Lm2 ∧ chrm st2 = chrm st1 ∧ refines Lo1 Lo2)
    as (st2 & Lo2 & Lm2 & -> & HR2 & HA2 & Hch2 & Hr2).
  { case_bool_decide.
    - apply (_split_refines N st1 Lo1 Lm1); [done|done|lia].
    - exists st1, Lo1, Lm1. do 4 (split; [done|]). apply refines_refl. }
  exists st2, Lo2, Lm2. split; [done|]. split; [done|].
  split; [congruence|by eapply refines_trans].
Qed.

(** X17.  On a reachable profile, [_2split(bgn, end)] with [0 <= bgn <= end]
    returns and leaves the sequence as it is; every segment that
    [get_copy_nums] lists afterwards lies inside a segment listed before
    with the same copy number: splitting refines the original list and
    changes the copy number of no original position. *)
Theorem split_refines_original s st bgn end_ :
  reachable s st → 0 <= bgn <= end_ →
  ∃ st1 bgns ends cps bgns1 ends1 cps1,
    _2split bgn end_ st = Ok st1 ∧ chrm st1 = chrm st ∧
    get_copy_nums st = Ok (bgns, ends, cps) ∧
    get_copy_nums st1 = Ok (bgns1, ends1, cps1) ∧
    ∀ i b1 e1 c1,
      bgns1 !! i = Some b1 → ends1 !! i = Some e1 → cps1 !! i = Some c1 →
      ∃ j b e, bgns !! j = Some b ∧ ends !! j = Some e ∧ cps !! j = Some c1 ∧
               b <= b1 ∧ e1 <= e.
Proof.
  intros Hreach Hb.
  assert (∃ st1 Lo Lm Lo1 Lm1, Rep st Lo Lm ∧ _2split bgn end_ st = Ok st1 ∧
            Rep st1 Lo1 Lm1 ∧ chrm st1 = chrm st ∧ refines Lo Lo1)
    as (st1 & Lo & Lm & Lo1 & Lm1 & HR & Hsp & HR1 & Hch & Href).
  { destruct (reachable_Good _ _ Hreach) as [[HN (Lo & Lm & HR & HA)]|[_ ->]].
    - destruct (_2split_refines _ _ _ _ bgn end_ HR HA Hb)
        as (st1 & Lo1 & Lm1 & ? & ? & ? & ?).
      by exists st1, Lo, Lm, Lo1, Lm1.
    - eexists (create []), _, _, _, _. split; [apply create_Rep|].
      split; [|split; [apply create_Rep|split; [done|apply refines_refl]]].
      assert (len (create []) = 0) as Hlen by done.
      assert (_split bgn (create []) = Ok (create [])) as Hs.
      { unfold _split. rewrite (bool_decide_eq_true_2 (bgn >= len (create []))) by lia.
        by rewrite orb_true_r. }
      unfold _2split. destruct (bool_decide (bgn > 0)); rewrite ?Hs, bind_Ok;
        by rewrite bool_decide_eq_false_2 by lia. }
  eexists st1, _, _, _, _, _, _. split; [done|]. split; [done|].
  split; [apply (get_copy_nums_Rep _ _ _ HR)|].
  split; [apply (get_copy_nums_Rep _ _ _ HR1)|].
  intros i b1 e1 c1 H1 H2 H3.
  rewrite list_lookup_fmap in H1. rewrite list_lookup_fmap in H2.
  rewrite list_lookup_fmap in H3.
  destruct (Lo1 !! i) as [o'|] eqn:Ho'; [|done]. simpl in *.
  injection H1 as <-. injection H2 as <-. injection H3 as <-.
  apply list_elem_of_lookup_2 in Ho'.
  destruct (Href _ Ho') as (o & Ho & ? & ? & ?).
  apply list_elem_of_lookup_1 in Ho as [j Hj].
  exists j, (s_bgn o), (s_end o). rewrite !list_lookup_fmap, Hj. simpl.
  repeat split; (done || lia || (f_equal; congruence)).
Qed.

Lemma split_refines_original_witness :
  let st := after (amp 1 3 (create (str "ATCCGA"))) in
  ∃ st1 bgns ends cps bgns1 ends1 cps1,
    _2split 2 4 st = Ok st1 ∧ chrm st1 = chrm st ∧
    get_copy_nums st = Ok (bgns, ends, cps) ∧
    get_copy_nums st1 = Ok (bgns1, ends1, cps1) ∧
    ∀ i b1 e1 c1,
      bgns1 !! i = Some b1 → ends1 !! i = Some e1 → cps1 !! i = Some c1 →
      ∃ j b e, bgns !! j = Some b ∧ ends !! j = Some e ∧ cps !! j = Some c1 ∧
               b <= b1 ∧ e1 <= e.
Proof.
  intros st. apply (split_refines_original (str "ATCCGA") st 2 4); [|lia].
  apply (reach_step _ (create (str "ATCCGA")) Amplify 1 3 true);
    [apply reach_create|vm_compute; reflexivity].
Defined.

(** * Where the nodes are after an amplification *)

(** X18.  When [amp(bgn, end)] returns [True] on a reachable profile, with
    respect to the profile after [_2split]: the nodes of the mutated list
    that end at or before [end] keep their interval, orientation and
    parent; the nodes that begin after [end] have both ends raised by
    [end - bgn + 1]; and every node that is new is the copy of a node of
    the region, with the orientation and the parent of that node and its
    interval raised by [end - bgn + 1]. *)
Theorem amplify_layout s st bgn end_ st' :
  reachable s st → amp bgn end_ st = Ok (true, st') →
  ∃ st1, _2split bgn end_ st = Ok st1 ∧
    (∀ h n, muts st1 !! h = Some n → n_end n <= end_ →
       ∃ n', muts st' !! h = Some n' ∧ interval n' = interval n ∧ n_ext n' = n_ext n) ∧
    (∀ h n, muts st1 !! h = Some n → end_ < n_bgn n →
       ∃ n', muts st' !! h = Some n' ∧
             n_bgn n' = n_bgn n + (end_ - bgn + 1) ∧
             n_end n' = n_end n + (end_ - bgn + 1) ∧ n_ext n' = n_ext n) ∧
    (∀ h' n', muts st' !! h' = Some n' → muts st1 !! h' = None →
       ∃ h n, muts st1 !! h = Some n ∧ bgn <= n_bgn n ∧ n_end n <= end_ ∧
              n_ext n' = n_ext n ∧
              n_bgn n' = n_bgn n + (end_ - bgn + 1) ∧
              n_end n' = n_end n + (end_ - bgn + 1)).
Proof.
  intros Hreach Hamp.
  destruct (amp_copies _ _ _ _ _ Hreach Hamp) as (st1' & Hsp' & Hnew & _).
  destruct (reachable_Good _ _ Hreach) as [[HN (Lo & Lm & HR & HA)]|[_ ->]].
  2:{ change (amp bgn end_ (create [])) with (run Amplify bgn end_ (create [])) in Hamp.
      by rewrite run_empty in Hamp. }
  destruct (amp_spec _ _ _ _ bgn end_ HR HA)
    as [[_ Heq]|(Hrj & st1 & Lo1 & Lm1 & Hsp & HR1 & HA1 & Hch & Hk &
         [[_ Heq]|(A & mid & D & sih & sit & st2 & Hrg & Heq & HR' & HA' & _)])];
    rewrite Heq in Hamp; try done. injection Hamp as <-.
  rewrite Hsp in Hsp'. injection Hsp' as <-.
  destruct (rejected_false_inv _ _ _ _ _ HR Hrj) as [Hbe _].
  exists st1. split; [done|]. split; [|split].
  - intros h n Hl Hle.
    pose proof (rep_lookup _ _ _ _ _ (Rep_mut _ _ _ HR1) Hl) as Hin.
    assert (seg_of h n ∈ A ++ mid ++
              (shift_seg (end_ - bgn + 1) <$> (copies (mut_next st1) mid ++ D))) as Hin'.
    { destruct (region_where _ _ _ _ _ _ _ _ _ _ _ Hrg (AI_mut _ _ _ _ HA1) Hin)
        as (Hle' & [[HinA _]|[[Hinm _]|[_ Hgt]]]); simpl in *.
      - rewrite !elem_of_app. by left.
      - rewrite !elem_of_app. by right; left.
      - lia. }
    destruct (rep_lookup_seg _ _ _ _ (Rep_mut _ _ _ HR') Hin') as (n' & Hl' & Hn').
    exists n'. split; [done|]. simpl in Hn'. unfold interval.
    injection Hn' as -> -> ->. done.
  - intros h n Hl Hgt.
    pose proof (rep_lookup _ _ _ _ _ (Rep_mut _ _ _ HR1) Hl) as Hin.
    destruct (region_where _ _ _ _ _ _ _ _ _ _ _ Hrg (AI_mut _ _ _ _ HA1) Hin)
      as (Hle' & [[_ Hlt]|[[_ [_ He]]|[HinD _]]]); simpl in *; try lia.
    assert (shift_seg (end_ - bgn + 1) (seg_of h n) ∈ A ++ mid ++
              (shift_seg (end_ - bgn + 1) <$> (copies (mut_next st1) mid ++ D))) as Hin'.
    { rewrite !elem_of_app. right. right. apply list_elem_of_fmap_2.
      apply elem_of_app. by right. }
    destruct (rep_lookup_seg _ _ _ _ (Rep_mut _ _ _ HR') Hin') as (n' & Hl' & Hn').
    exists n'. split; [done|]. simpl in Hn'.
    injection Hn' as H1 H2 H3. repeat split; [lia|lia|done].
  - intros h' n' Hl' Hnone.
    destruct (Hnew _ _ Hl' Hnone) as (h & n & Hl & Hb & He & Hi & Hp & Hb' & He').
    exists h, n. repeat split; try done.
    destruct (n_ext n'), (n_ext n). simpl in *. congruence.
Qed.

Lemma amplify_layout_witness :
  let st := after (amp 1 3 (create (str "ATCCGA"))) in
  let st' := after (amp 2 4 st) in
  ∃ st1, _2split 2 4 st = Ok st1 ∧
    (∀ h n, muts st1 !! h = Some n → n_end n <= 4 →
       ∃ n', muts st' !! h = Some n' ∧ interval n' = interval n ∧ n_ext n' = n_ext n) ∧
    (∀ h n, muts st1 !! h = Some n → 4 < n_bgn n →
       ∃ n', muts st' !! h = Some n' ∧
             n_bgn n' = n_bgn n + (4 - 2 + 1) ∧
             n_end n' = n_end n + (4 - 2 + 1) ∧ n_ext n' = n_ext n) ∧
    (∀ h' n', muts st' !! h' = Some n' → muts st1 !! h' = None →
       ∃ h n, muts st1 !! h = Some n ∧ 2 <= n_bgn n ∧ n_end n <= 4 ∧
              n_ext n' = n_ext n ∧
              n_bgn n' = n_bgn n + (4 - 2 + 1) ∧
              n_end n' = n_end n + (4 - 2 + 1)).
Proof.
  intros st st'.
  apply (amplify_layout (str "ATCCGA") st 2 4 st').
  - apply (reach_step _ (create (str "ATCCGA")) Amplify 1 3 true);
      [apply reach_create|vm_compute; reflexivity].
  - vm_compute. reflexivity.
Defined.
